(** * LSB-stego: a shallow embedding of [stego.py]

    The development follows the source file top to bottom: seed derivation,
    the linear-congruential generator, the pixel buffer handed out by the
    image library, the local complexity estimator, the embedding and the
    extraction loops, and the bit/byte codec.  Python integers are [Z];
    [%] and [//] are [Z.modulo] and [Z.div] (both round towards minus
    infinity, as Python does); [&], [^], [<<], [>>] are the [Z] bit
    operations, which agree with Python on negative numbers as well. *)

From Stdlib Require Import ZArith List Lia String Ascii Bool.
From Stdlib.Strings Require Import Byte.
From stdpp Require Import base decidable countable gmap list.

Local Open Scope Z_scope.
Import ListNotations.

(** ** Exceptions and results *)

(** The exceptions the core can raise.  [CapacityExceeded] is the
    [ValueError] of lines 99 and 192, [BudgetExhausted] the [RuntimeError]
    of lines 155 and 223, [IndexError] is what the image library's pixel
    access and Python's sequence indexing raise outside their range, and
    [ValueError] is what [bytearray.append] raises outside [range(256)]. *)
Inductive exn : Set :=
  | IndexError
  | ValueError
  | CapacityExceeded
  | BudgetExhausted.

Inductive result (A : Type) : Type :=
  | Ok (a : A)
  | Raise (e : exn).
Arguments Ok {A} a.
Arguments Raise {A} e.

Definition bind {A B : Type} (m : result A) (k : A -> result B) : result B :=
  match m with
  | Ok a => k a
  | Raise e => Raise e
  end.

Notation "'let*' x ':=' m 'in' k" := (bind m (fun x => k))
  (at level 10, x name, m at level 100, k at level 200, only parsing).

(** [for v in l: acc = body(acc, v)] where the body may raise. *)
Fixpoint for_each {A S : Type} (l : list A) (body : S -> A -> result S) (acc : S)
  : result S :=
  match l with
  | [] => Ok acc
  | v :: rest => let* acc' := body acc v in for_each rest body acc'
  end.

Definition len {A : Type} (s : list A) : Z := Z.of_nat (length s).

(** Sequence indexing [s[i]]: a negative index counts from the end. *)
Definition index {A : Type} (s : list A) (i : Z) : result A :=
  let i := if i <? 0 then i + len s else i in
  if i <? 0 then Raise IndexError
  else match s !! Z.to_nat i with
       | Some v => Ok v
       | None => Raise IndexError
       end.

(** ** Utilities *)

(** A Python [str] is a sequence of code points; [ord] is the identity on
    this representation.  [codepoints] reads an ASCII literal. *)
Definition codepoints (s : string) : list Z :=
  map (fun c => Z.of_N (N_of_ascii c)) (list_ascii_of_string s).

Definition MASK32 : Z := 0xFFFFFFFF.
Definition FALLBACK_SEED : Z := 0xDEADBEEF.

(** The [for i, ch in enumerate(password)] loop of [derive_seed_from_password],
    entered with the running index [i] and accumulator [seed]. *)
Fixpoint derive_seed_loop (i : Z) (seed : Z) (password : list Z) : Z :=
  match password with
  | [] => seed
  | ch :: rest =>
      let seed := Z.lxor seed (Z.shiftl ch (i mod 24)) in
      let seed := Z.land seed MASK32 in
      derive_seed_loop (i + 1) seed rest
  end.

Definition derive_seed_from_password (password : list Z) : Z :=
  let seed := derive_seed_loop 0 0 password in
  if seed =? 0 then FALLBACK_SEED else seed.

(** The accumulator as the specification words it: every character, paired
    with its index, is shifted left by [index mod 24], XOR-ed into the
    accumulator, and the accumulator is masked to 32 bits after the step. *)
Definition spec_accumulate (acc : Z) (ich : nat * Z) : Z :=
  Z.land (Z.lxor acc (Z.shiftl (snd ich) (Z.of_nat (fst ich) mod 24))) (2 ^ 32 - 1).

Definition spec_accumulator (password : list Z) : Z :=
  fold_left spec_accumulate (combine (seq 0 (length password)) password) 0.

(** ** SimplePRNG *)

(** The generator object.  [draws] is a ghost counter of the calls to
    [next_u32]; the source has no such field, it only serves to state how
    many draws a call makes. *)
Record SimplePRNG : Set := {
  state : Z;
  draws : Z
}.

Definition SimplePRNG_init (seed : Z) : SimplePRNG :=
  {| state := Z.land seed MASK32; draws := 0 |}.

Definition next_u32 (self : SimplePRNG) : Z * SimplePRNG :=
  let s := Z.land (1103515245 * state self + 12345) MASK32 in
  (s, {| state := s; draws := draws self + 1 |}).

(** ** Helpers: bits <-> bytes *)

Definition int_of_byte (b : byte) : Z := Z.of_N (Byte.to_N b).

(** [out.append(v)] on a [bytearray]: [v] must be in [range(256)]. *)
Definition append (out : list byte) (v : Z) : result (list byte) :=
  if (0 <=? v) && (v <? 256) then
    match Byte.of_N (Z.to_N v) with
    | Some b => Ok (out ++ [b])
    | None => Raise ValueError
    end
  else Raise ValueError.

Definition bytes_to_bits (data : list byte) : list Z :=
  flat_map
    (fun b => map (fun i => Z.land (Z.shiftr (int_of_byte b) i) 1) [7; 6; 5; 4; 3; 2; 1; 0])
    data.

(** [while len(padded) % 8 != 0: padded.append(0)].  The loop runs at most
    seven times; [fuel] is the bound on its iterations. *)
Fixpoint pad_loop (fuel : nat) (padded : list Z) : option (list Z) :=
  if len padded mod 8 =? 0 then Some padded
  else match fuel with
       | O => None
       | S fuel' => pad_loop fuel' (padded ++ [0])
       end.

(** [range(0, n, 8)] for [0 <= n]. *)
Definition range_step8 (n : Z) : list Z :=
  map (fun k => 8 * Z.of_nat k) (seq 0 (Z.to_nat ((n + 7) / 8))).

(** The inner loop [for j in range(8): byte = (byte << 1) | (padded[i + j] & 1)]. *)
Definition pack_byte (padded : list Z) (i : Z) : result Z :=
  for_each [0; 1; 2; 3; 4; 5; 6; 7]
    (fun byte j => let* bit := index padded (i + j) in
                   Ok (Z.lor (Z.shiftl byte 1) (Z.land bit 1)))
    0.

(** [bits_to_bytes] returns [None] when the model runs out of the padding
    fuel, [Some (Raise _)] when the Python code raises and [Some (Ok _)] on
    a normal return. *)
Definition bits_to_bytes (bits : list Z) : option (result (list byte)) :=
  match pad_loop 8 bits with
  | None => None
  | Some padded =>
      Some (for_each (range_step8 (len padded))
              (fun out i => let* byte := pack_byte padded i in append out byte) [])
  end.

(** ** The pixel buffer

    [load_image] hands out the pixel access object of an image that the
    image library opened from a BMP or PNG file.  The library refuses a
    file whose width or height is not positive, so both are [positive]
    here.  A pixel read is a tuple of band values, or a bare number for a
    single-band image; [load_image] converts the single-band modes to RGB,
    so that the core only meets RGB and RGBA tuples, but the code keeps
    the branches for bare numbers and so does the model.

    Band values are kept as [Z]: the 8-bit storage of the library holds
    [0 .. 255], and the embedding is shown below never to write a value
    outside that range into such a buffer. *)
Inductive pixel : Set :=
  | Scalar (v : Z)
  | Bands (vs : list Z).

Record Image : Type := {
  im_width : positive;
  im_height : positive;
  im_cell : Z -> Z -> pixel
}.

Definition in_image (pixels : Image) (x y : Z) : bool :=
  (0 <=? x) && (x <? Z.pos (im_width pixels)) &&
  (0 <=? y) && (y <? Z.pos (im_height pixels)).

(** [pixels[x, y]]; the coordinates this program computes are never
    negative, and a coordinate past the edge raises [IndexError]. *)
Definition getitem (pixels : Image) (x y : Z) : result pixel :=
  if in_image pixels x y then Ok (im_cell pixels x y) else Raise IndexError.

(** What the library keeps when a tuple is written to a cell: a
    single-band image takes a one-element tuple as its band value. *)
Definition stored (old : pixel) (value : list Z) : pixel :=
  match old, value with
  | Scalar _, [v] => Scalar v
  | _, _ => Bands value
  end.

(** [pixels[x, y] = tuple(value)]. *)
Definition setitem (pixels : Image) (x y : Z) (value : list Z) : result Image :=
  if in_image pixels x y then
    Ok {| im_width := im_width pixels;
          im_height := im_height pixels;
          im_cell := fun x' y' =>
            if (x' =? x) && (y' =? y) then stored (im_cell pixels x y) value
            else im_cell pixels x' y' |}
  else Raise IndexError.

(** [isinstance(p, (tuple, list))] and the two conversions the code makes
    of a pixel: to three channels in the estimator, to a list of its
    channels in the loops. *)
Definition as_triple (p : pixel) : list Z :=
  match p with
  | Scalar v => [v; v; v]
  | Bands vs => vs
  end.

Definition as_list (p : pixel) : list Z :=
  match p with
  | Scalar v => [v]
  | Bands vs => vs
  end.

(** [pix_list[i] = v] on a Python list. *)
Definition assign (l : list Z) (i : Z) (v : Z) : list Z :=
  <[Z.to_nat i := v]> l.

(** ** Local complexity *)

Definition clamp (v lo hi : Z) : Z := Z.max lo (Z.min v hi).

Definition compute_local_complexity (pixels : Image) (x y width height : Z)
  : result Z :=
  let cx := clamp x 1 (width - 2) in
  let cy := clamp y 1 (height - 2) in
  let* center := getitem pixels cx cy in
  let center := as_triple center in
  for_each [(-1, 0); (1, 0); (0, -1); (0, 1)]
    (fun complexity d =>
       let* nb := getitem pixels (cx + fst d) (cy + snd d) in
       let nb := as_triple nb in
       for_each [0; 1; 2]
         (fun complexity c =>
            let* nb_c := index nb c in
            let* center_c := index center c in
            Ok (complexity + Z.abs (nb_c - center_c)))
         complexity)
    0.

(** The header shared by both operations: the channel count read from the
    pixel at the origin, the usable channels and the capacity. *)
Definition num_channels_of (sample : pixel) : Z :=
  match sample with
  | Bands vs => len vs
  | Scalar _ => 1
  end.

Definition usable_channels_of (num_channels : Z) : Z :=
  if 3 <=? num_channels then 3 else num_channels.

(** ** Embedding *)

(** The local variables of [embed_message_bits] that its loop updates.
    [e_accepted] is a ghost log: every accepted position, in order, with
    the buffer as it was when the position passed the two filters. *)
Record embed_locals : Type := {
  e_pixels : Image;
  e_prng : SimplePRNG;
  e_embedded : Z;
  e_used_positions : gset Z;
  e_attempts : Z;
  e_accepted : list (Z * Image)
}.

(** What one pass through the loop body found before it writes: [None]
    stands for a [continue]. *)
Record selection : Set := {
  s_pos : Z;
  s_x : Z;
  s_y : Z;
  s_channel_index : Z;
  s_pix_list : list Z;
  s_current : Z
}.

(** Lines 112-131 and 206-217, the same in both loops: from the drawn
    number to the selected channel and its current value. *)
Definition select (pixels : Image) (used_positions : gset Z)
    (width height usable_channels total_capacity_bits complexity_threshold : Z)
    (pos_rand : Z) : result (option selection) :=
  let pos := pos_rand mod total_capacity_bits in
  let pixel_index := pos / usable_channels in
  let channel_index := pos mod usable_channels in
  let x := pixel_index mod width in
  let y := pixel_index / width in
  let* complexity := compute_local_complexity pixels x y width height in
  if complexity <? complexity_threshold then Ok None
  else if bool_decide (pos ∈ used_positions) then Ok None
  else
    let* pix := getitem pixels x y in
    let pix_list := as_list pix in
    let* current := index pix_list channel_index in
    Ok (Some {| s_pos := pos; s_x := x; s_y := y;
                s_channel_index := channel_index;
                s_pix_list := pix_list; s_current := current |}).

(** Lines 132-152: the write for an accepted position.  The result is the
    new buffer and the generator after the optional direction draw. *)
Definition mutate (pixels : Image) (prng : SimplePRNG) (sel : selection)
    (target_bit : Z) : result (Image * SimplePRNG) :=
  let current := s_current sel in
  let current_lsb := Z.land current 1 in
  if negb (current_lsb =? target_bit) then
    let '(new_value, prng) :=
      if current =? 0 then (1, prng)
      else if current =? 255 then (254, prng)
      else
        let '(r, prng) := next_u32 prng in
        (current + (if negb (Z.land r 1 =? 0) then 1 else -1), prng) in
    let pix_list := assign (s_pix_list sel) (s_channel_index sel) new_value in
    let* pixels := setitem pixels (s_x sel) (s_y sel) pix_list in
    Ok (pixels, prng)
  else Ok (pixels, prng).

(** One pass through the body of the [while] loop of [embed_message_bits].
    The second component is the exception that leaves the loop, if any;
    the first is the state of the locals at that point. *)
Definition embed_body (message_bits : list Z)
    (width height usable_channels total_capacity_bits complexity_threshold : Z)
    (st : embed_locals) : embed_locals * option exn :=
  let attempts := e_attempts st + 1 in
  let '(pos_rand, prng) := next_u32 (e_prng st) in
  let st1 := {| e_pixels := e_pixels st; e_prng := prng;
                e_embedded := e_embedded st;
                e_used_positions := e_used_positions st;
                e_attempts := attempts; e_accepted := e_accepted st |} in
  match select (e_pixels st) (e_used_positions st) width height usable_channels
          total_capacity_bits complexity_threshold pos_rand with
  | Raise e => (st1, Some e)
  | Ok None => (st1, None)
  | Ok (Some sel) =>
      match (let* target_bit := index message_bits (e_embedded st) in
             mutate (e_pixels st) prng sel target_bit) with
      | Raise e => (st1, Some e)
      | Ok (pixels, prng) =>
          ({| e_pixels := pixels; e_prng := prng;
              e_embedded := e_embedded st + 1;
              e_used_positions := {[ s_pos sel ]} ∪ e_used_positions st;
              e_attempts := attempts;
              e_accepted := e_accepted st ++ [(s_pos sel, e_pixels st)] |}, None)
      end
  end.

(** The [while] loop.  [fuel] bounds the number of passes of the model;
    [None] means that the fuel ran out before the loop condition failed. *)
Fixpoint embed_loop (fuel : nat) (message_bits : list Z)
    (width height usable_channels total_capacity_bits complexity_threshold
     max_attempts : Z)
    (st : embed_locals) : option (embed_locals * option exn) :=
  if (e_embedded st <? len message_bits) && (e_attempts st <? max_attempts) then
    match fuel with
    | O => None
    | S fuel' =>
        match embed_body message_bits width height usable_channels
                total_capacity_bits complexity_threshold st with
        | (st', Some e) => Some (st', Some e)
        | (st', None) =>
            embed_loop fuel' message_bits width height usable_channels
              total_capacity_bits complexity_threshold max_attempts st'
        end
    end
  else Some (st, None).

(** What a call of [embed_message_bits] leaves behind: how it ended, the
    buffer (the one written to [output_path] when the call returns), and
    the ghost counters. *)
Record embed_report : Type := {
  er_outcome : result unit;
  er_pixels : Image;
  er_draws : Z;
  er_attempts : Z;
  er_embedded : Z;
  er_accepted : list (Z * Image)
}.

Definition embed_message_bits (img : Image) (message_bits : list Z)
    (password : list Z) (complexity_threshold : Z) (max_attempt_factor : Z)
  : option embed_report :=
  let pixels := img in
  let width := Z.pos (im_width img) in
  let height := Z.pos (im_height img) in
  let stopped e :=
    Some {| er_outcome := Raise e; er_pixels := pixels; er_draws := 0;
            er_attempts := 0; er_embedded := 0; er_accepted := [] |} in
  match getitem pixels 0 0 with
  | Raise e => stopped e
  | Ok sample =>
      let num_channels := num_channels_of sample in
      let usable_channels := usable_channels_of num_channels in
      let total_pixels := width * height in
      let total_capacity_bits := total_pixels * usable_channels in
      if len message_bits >? total_capacity_bits then stopped CapacityExceeded
      else
        let seed := derive_seed_from_password password in
        let prng := SimplePRNG_init seed in
        let max_attempts := total_capacity_bits * max_attempt_factor in
        let st := {| e_pixels := pixels; e_prng := prng; e_embedded := 0;
                     e_used_positions := ∅; e_attempts := 0;
                     e_accepted := [] |} in
        match embed_loop (Z.to_nat max_attempts) message_bits width height
                usable_channels total_capacity_bits complexity_threshold
                max_attempts st with
        | None => None
        | Some (st, signal) =>
            let outcome :=
              match signal with
              | Some e => Raise e
              | None =>
                  if e_embedded st <? len message_bits then Raise BudgetExhausted
                  else Ok tt
              end in
            Some {| er_outcome := outcome; er_pixels := e_pixels st;
                    er_draws := draws (e_prng st);
                    er_attempts := e_attempts st;
                    er_embedded := e_embedded st;
                    er_accepted := e_accepted st |}
        end
  end.

(** ** Extraction *)

(** The locals of [extract_message_bits].  The buffer is carried along so
    that the report can say what the call left in it; [x_accepted] is the
    same ghost log as in the embedding. *)
Record extract_locals : Type := {
  x_pixels : Image;
  x_prng : SimplePRNG;
  x_extracted : list Z;
  x_used_positions : gset Z;
  x_attempts : Z;
  x_accepted : list (Z * Image)
}.

Definition extract_body
    (width height usable_channels total_capacity_bits complexity_threshold : Z)
    (st : extract_locals) : extract_locals * option exn :=
  let attempts := x_attempts st + 1 in
  let '(pos_rand, prng) := next_u32 (x_prng st) in
  let st1 := {| x_pixels := x_pixels st; x_prng := prng;
                x_extracted := x_extracted st;
                x_used_positions := x_used_positions st;
                x_attempts := attempts; x_accepted := x_accepted st |} in
  match select (x_pixels st) (x_used_positions st) width height usable_channels
          total_capacity_bits complexity_threshold pos_rand with
  | Raise e => (st1, Some e)
  | Ok None => (st1, None)
  | Ok (Some sel) =>
      let bit := Z.land (s_current sel) 1 in
      ({| x_pixels := x_pixels st; x_prng := prng;
          x_extracted := x_extracted st ++ [bit];
          x_used_positions := {[ s_pos sel ]} ∪ x_used_positions st;
          x_attempts := attempts;
          x_accepted := x_accepted st ++ [(s_pos sel, x_pixels st)] |}, None)
  end.

Fixpoint extract_loop (fuel : nat) (num_bits : Z)
    (width height usable_channels total_capacity_bits complexity_threshold
     max_attempts : Z)
    (st : extract_locals) : option (extract_locals * option exn) :=
  if (len (x_extracted st) <? num_bits) && (x_attempts st <? max_attempts) then
    match fuel with
    | O => None
    | S fuel' =>
        match extract_body width height usable_channels total_capacity_bits
                complexity_threshold st with
        | (st', Some e) => Some (st', Some e)
        | (st', None) =>
            extract_loop fuel' num_bits width height usable_channels
              total_capacity_bits complexity_threshold max_attempts st'
        end
    end
  else Some (st, None).

Record extract_report : Type := {
  xr_outcome : result (list Z);
  xr_pixels : Image;
  xr_draws : Z;
  xr_attempts : Z;
  xr_accepted : list (Z * Image)
}.

Definition extract_message_bits (img : Image) (num_bits : Z)
    (password : list Z) (complexity_threshold : Z) (max_attempt_factor : Z)
  : option extract_report :=
  let pixels := img in
  let width := Z.pos (im_width img) in
  let height := Z.pos (im_height img) in
  let stopped e :=
    Some {| xr_outcome := Raise e; xr_pixels := pixels; xr_draws := 0;
            xr_attempts := 0; xr_accepted := [] |} in
  match getitem pixels 0 0 with
  | Raise e => stopped e
  | Ok sample =>
      let num_channels := num_channels_of sample in
      let usable_channels := usable_channels_of num_channels in
      let total_pixels := width * height in
      let total_capacity_bits := total_pixels * usable_channels in
      if num_bits >? total_capacity_bits then stopped CapacityExceeded
      else
        let seed := derive_seed_from_password password in
        let prng := SimplePRNG_init seed in
        let max_attempts := total_capacity_bits * max_attempt_factor in
        let st := {| x_pixels := pixels; x_prng := prng; x_extracted := [];
                     x_used_positions := ∅; x_attempts := 0;
                     x_accepted := [] |} in
        match extract_loop (Z.to_nat max_attempts) num_bits width height
                usable_channels total_capacity_bits complexity_threshold
                max_attempts st with
        | None => None
        | Some (st, signal) =>
            let outcome :=
              match signal with
              | Some e => Raise e
              | None =>
                  if len (x_extracted st) <? num_bits then Raise BudgetExhausted
                  else Ok (x_extracted st)
              end in
            Some {| xr_outcome := outcome; xr_pixels := x_pixels st;
                    xr_draws := draws (x_prng st);
                    xr_attempts := x_attempts st;
                    xr_accepted := x_accepted st |}
        end
  end.

(** ** Quantities of the specification *)

(** [Capacity = width * height * usableChannelCount]. *)
Definition Capacity (img : Image) : Z :=
  Z.pos (im_width img) * Z.pos (im_height img)
  * usable_channels_of (num_channels_of (im_cell img 0 0)).

(** The coordinates a position decomposes into. *)
Definition position_x (img : Image) (pos : Z) : Z :=
  (pos / usable_channels_of (num_channels_of (im_cell img 0 0)))
    mod Z.pos (im_width img).

Definition position_y (img : Image) (pos : Z) : Z :=
  (pos / usable_channels_of (num_channels_of (im_cell img 0 0)))
    / Z.pos (im_width img).

Definition position_channel (img : Image) (pos : Z) : Z :=
  pos mod usable_channels_of (num_channels_of (im_cell img 0 0)).

(** Test images: an RGB image of one colour, and one given by its rows. *)
Definition flat_image (w h : positive) (colour : list Z) : Image :=
  {| im_width := w; im_height := h; im_cell := fun _ _ => Bands colour |}.

Definition image_of_rows (w h : positive) (rows : list (list (list Z))) : Image :=
  {| im_width := w; im_height := h;
     im_cell := fun x y =>
       Bands (nth (Z.to_nat x) (nth (Z.to_nat y) rows []) []) |}.

Definition hi_bits : list Z := bytes_to_bits [x68; x69]%byte.


(** ** Vocabulary of the statements *)

(** The eight bits of one byte, most significant first. *)
Definition bits_of_byte (b : byte) : list Z :=
  map (fun i => Z.land (Z.shiftr (int_of_byte b) i) 1) [7; 6; 5; 4; 3; 2; 1; 0].

Section Passes.

Variables (message_bits : list Z).
Variables (width height usable_channels total_capacity_bits : Z).
Variables (complexity_threshold : Z).

(** The two ways a pass through the body of the embedding loop can go. *)
Inductive embed_pass (st st' : embed_locals) (signal : option exn) : Prop :=
  | embed_skip :
      e_pixels st' = e_pixels st ->
      e_prng st' = snd (next_u32 (e_prng st)) ->
      e_embedded st' = e_embedded st ->
      e_used_positions st' = e_used_positions st ->
      e_attempts st' = e_attempts st + 1 ->
      e_accepted st' = e_accepted st ->
      (signal = None ->
       select (e_pixels st) (e_used_positions st) width height usable_channels
         total_capacity_bits complexity_threshold (fst (next_u32 (e_prng st)))
       = Ok None) ->
      embed_pass st st' signal
  | embed_accept (sel : selection) (target_bit : Z) :
      signal = None ->
      select (e_pixels st) (e_used_positions st) width height usable_channels
        total_capacity_bits complexity_threshold (fst (next_u32 (e_prng st)))
      = Ok (Some sel) ->
      index message_bits (e_embedded st) = Ok target_bit ->
      mutate (e_pixels st) (snd (next_u32 (e_prng st))) sel target_bit
      = Ok (e_pixels st', e_prng st') ->
      e_embedded st' = e_embedded st + 1 ->
      e_used_positions st' = {[ s_pos sel ]} ∪ e_used_positions st ->
      e_attempts st' = e_attempts st + 1 ->
      e_accepted st' = e_accepted st ++ [(s_pos sel, e_pixels st)] ->
      embed_pass st st' signal.

(** The same for the body of the extraction loop. *)
Inductive extract_pass (st st' : extract_locals) (signal : option exn) : Prop :=
  | extract_skip :
      x_pixels st' = x_pixels st ->
      x_prng st' = snd (next_u32 (x_prng st)) ->
      x_extracted st' = x_extracted st ->
      x_used_positions st' = x_used_positions st ->
      x_attempts st' = x_attempts st + 1 ->
      x_accepted st' = x_accepted st ->
      (signal = None ->
       select (x_pixels st) (x_used_positions st) width height usable_channels
         total_capacity_bits complexity_threshold (fst (next_u32 (x_prng st)))
       = Ok None) ->
      extract_pass st st' signal
  | extract_accept (sel : selection) :
      signal = None ->
      select (x_pixels st) (x_used_positions st) width height usable_channels
        total_capacity_bits complexity_threshold (fst (next_u32 (x_prng st)))
      = Ok (Some sel) ->
      x_pixels st' = x_pixels st ->
      x_prng st' = snd (next_u32 (x_prng st)) ->
      x_extracted st' = x_extracted st ++ [Z.land (s_current sel) 1] ->
      x_used_positions st' = {[ s_pos sel ]} ∪ x_used_positions st ->
      x_attempts st' = x_attempts st + 1 ->
      x_accepted st' = x_accepted st ++ [(s_pos sel, x_pixels st)] ->
      extract_pass st st' signal.

End Passes.

(** The value that the buffer [pixels] holds in the channel a position
    addresses; the position is decomposed with the geometry of [img]. *)
Definition channel_in (img pixels : Image) (pos : Z) : result Z :=
  let* pix := getitem pixels (position_x img pos) (position_y img pos) in
  index (as_list pix) (position_channel img pos).

(** A logged acceptance passed the complexity gate: the estimator, run on
    the buffer of that moment at the pixel of the position, returned a
    value that is not below the threshold. *)
Definition gated (img : Image) (threshold : Z) (entry : Z * Image) : Prop :=
  exists c,
    compute_local_complexity (snd entry)
      (position_x img (fst entry)) (position_y img (fst entry))
      (Z.pos (im_width img)) (Z.pos (im_height img)) = Ok c
    /\ threshold <= c.

(** The log of accepted positions has no duplicates as long as it lists
    positions of the used set only. *)
Definition fresh_log (used : gset Z) (accepted : list (Z * Image)) : Prop :=
  NoDup (map fst accepted) /\ forall pos, pos ∈ map fst accepted -> pos ∈ used.

(** What the extraction loop keeps true: the buffer is the one it was
    given, every draw belongs to one scheduling attempt, and every
    extracted bit is the lowest bit of the channel its position addresses. *)
Definition read_from (img : Image) (bit : Z) (entry : Z * Image) : Prop :=
  snd entry = img
  /\ exists v, channel_in img img (fst entry) = Ok v /\ bit = Z.land v 1.

Definition extraction_pure (img : Image) (st : extract_locals) : Prop :=
  x_pixels st = img
  /\ draws (x_prng st) = x_attempts st
  /\ Forall2 (read_from img) (x_extracted st) (x_accepted st).

(** Two pixel access objects show the same image when they have the same
    size and the same pixel at every coordinate inside it. *)
Definition same_image (p1 p2 : Image) : Prop :=
  im_width p1 = im_width p2
  /\ im_height p1 = im_height p2
  /\ forall x y, in_image p1 x y = true -> im_cell p1 x y = im_cell p2 x y.

(** The part of the locals and of the report that a caller can observe. *)
Definition visible_locals (st : extract_locals)
  : SimplePRNG * list Z * gset Z * Z * list Z :=
  (x_prng st, x_extracted st, x_used_positions st, x_attempts st,
   map fst (x_accepted st)).

Definition visible (r : extract_report) : result (list Z) * Z * Z * list Z :=
  (xr_outcome r, xr_draws r, xr_attempts r, map fst (xr_accepted r)).

(** A uniformly flat buffer: every pixel is the pixel at the origin. *)
Definition flat (img : Image) : Prop :=
  forall x y, in_image img x y = true -> im_cell img x y = im_cell img 0 0.

(** The buffer has a pixel that is not on its border, and its pixels have
    the three channels the estimator reads. *)
Definition has_interior (img : Image) : Prop :=
  3 <= Z.pos (im_width img) /\ 3 <= Z.pos (im_height img).

(** The value of channel [c] of the pixel at [(x, y)]. *)
Definition chan (pixels : Image) (x y c : Z) : result Z :=
  index (as_list (im_cell pixels x y)) c.

(** A position addresses channel [c] of the pixel at [(x, y)]. *)
Definition decodes_to (img : Image) (pos x y c : Z) : Prop :=
  position_x img pos = x /\ position_y img pos = y /\ position_channel img pos = c.

(** LSB matching: what the embedding does to a channel holding [old] when
    it is chosen to carry the bit [target]. *)
Definition lsb_matched (old new target : Z) : Prop :=
  (Z.land old 1 = target -> new = old)
  /\ (Z.land old 1 <> target ->
      (new = old + 1 \/ new = old - 1)
      /\ (old = 0 -> new = 1)
      /\ (old = 255 -> new = 254)).

(** Every channel of every pixel inside the image is in [0 .. 255]. *)
Definition byte_valued (img : Image) : Prop :=
  forall x y, in_image img x y = true ->
              Forall (fun v => 0 <= v <= 255) (as_list (im_cell img x y)).

(** The history of one channel during an embedding: [old] is its value in
    the buffer the call was given, [new] its value now.  If a logged
    position addresses the channel, the channel went through LSB matching
    with the message bit of that acceptance; if none does, it is intact.
    Either way it is where it was or one step away from there. *)
Definition channel_history (img : Image) (message_bits : list Z)
    (accepted : list (Z * Image)) (x y c old new : Z) : Prop :=
  (forall (i : nat) pos snapshot,
      accepted !! i = Some (pos, snapshot) ->
      decodes_to img pos x y c ->
      exists target, index message_bits (Z.of_nat i) = Ok target
                     /\ lsb_matched old new target)
  /\ ((forall pos, pos ∈ map fst accepted -> ~ decodes_to img pos x y c) ->
      new = old)
  /\ (new = old
      \/ ((new = old + 1 \/ new = old - 1)
          /\ (old = 0 -> new = 1)
          /\ (old = 255 -> new = 254))).

(** Two buffers of the same shape: the same size, and at every coordinate
    pixels of the same kind with the same number of channels. *)
Definition same_shape (p q : Image) : Prop :=
  im_width p = im_width q
  /\ im_height p = im_height q
  /\ forall x y,
       length (as_list (im_cell p x y)) = length (as_list (im_cell q x y))
       /\ length (as_triple (im_cell p x y)) = length (as_triple (im_cell q x y)).

(** The invariant of the embedding loop. *)
Definition embedding_inv (img : Image) (message_bits : list Z)
    (st : embed_locals) : Prop :=
  same_shape (e_pixels st) img
  /\ e_embedded st = len (e_accepted st)
  /\ fresh_log (e_used_positions st) (e_accepted st)
  /\ forall x y c old,
       0 <= c -> chan img x y c = Ok old ->
       exists new, chan (e_pixels st) x y c = Ok new
                   /\ channel_history img message_bits (e_accepted st) x y c old new.

(** The channels that the positions used up to [st0] address hold in [st]
    what they held in [st0]. *)
Definition frozen (img : Image) (st0 st : embed_locals) : Prop :=
  e_used_positions st0 ⊆ e_used_positions st
  /\ forall pos x y c,
       pos ∈ e_used_positions st0 -> decodes_to img pos x y c -> 0 <= c ->
       chan (e_pixels st) x y c = chan (e_pixels st0) x y c.

Definition is_bit (b : Z) : Prop := b = 0 \/ b = 1.

(** The same image held by an access object that answers [p] outside the
    image. *)
Definition outside_changed (img : Image) (p : pixel) : Image :=
  {| im_width := im_width img;
     im_height := im_height img;
     im_cell := fun x y => if in_image img x y then im_cell img x y else p |}.

(** ** Vocabulary of the further properties *)

(** The state from which the generator reaches the draw [r]: the step
    [s -> 1103515245 * s + 12345] undone modulo [2 ^ 32]. *)
Definition previous_state (r : Z) : Z :=
  Z.land (4005161829 * (r - 12345)) MASK32.

(** The generator after [n] calls of [next_u32]. *)
Fixpoint after_draws (n : nat) (p : SimplePRNG) : SimplePRNG :=
  match n with
  | O => p
  | S n' => after_draws n' (snd (next_u32 p))
  end.

(** Every pixel inside the image has the three channels the estimator
    reads (a bare number counts for three). *)
Definition three_channel (img : Image) : Prop :=
  forall x y, in_image img x y = true -> 3 <= len (as_triple (im_cell img x y)).

(** Two buffers of the same size whose pixels agree on their first three
    channels; a fourth channel may differ. *)
Definition same_rgb (p q : Image) : Prop :=
  im_width p = im_width q
  /\ im_height p = im_height q
  /\ forall x y, in_image p x y = true ->
                 take 3 (as_triple (im_cell p x y)) = take 3 (as_triple (im_cell q x y)).

(** The buffer with the fourth channel of every pixel replaced. *)
Definition with_alpha (img : Image) (alpha : Z -> Z -> Z) : Image :=
  {| im_width := im_width img;
     im_height := im_height img;
     im_cell := fun x y =>
       match im_cell img x y with
       | Bands [r; g; b; _] => Bands [r; g; b; alpha x y]
       | p => p
       end |}.

(** A position addresses a channel that the buffer has: it is within the
    capacity, its pixel is inside the image and the pixel has the channel. *)
Definition addressable (img : Image) (pos : Z) : Prop :=
  0 <= pos < Capacity img
  /\ in_image img (position_x img pos) (position_y img pos) = true
  /\ 0 <= position_channel img pos
  /\ exists v, chan img (position_x img pos) (position_y img pos)
                 (position_channel img pos) = Ok v.

(** The counters of the embedding loop: attempts within the budget, one or
    two draws per attempt, one accepted position per embedded bit. *)
Definition embed_counters (img : Image) (message_bits : list Z)
    (max_attempts : Z) (st : embed_locals) : Prop :=
  0 <= e_attempts st <= Z.max 0 max_attempts
  /\ e_attempts st <= draws (e_prng st) <= 2 * e_attempts st
  /\ e_embedded st = len (e_accepted st)
  /\ e_embedded st <= len message_bits
  /\ Forall (fun entry => addressable img (fst entry)) (e_accepted st).

(** The counters of the extraction loop. *)
Definition extract_counters (img : Image) (num_bits max_attempts : Z)
    (st : extract_locals) : Prop :=
  0 <= x_attempts st <= Z.max 0 max_attempts
  /\ len (x_extracted st) = len (x_accepted st)
  /\ len (x_extracted st) <= Z.max 0 num_bits
  /\ Forall is_bit (x_extracted st)
  /\ Forall (fun entry => 0 <= fst entry < Capacity img) (x_accepted st).

(** ** The caller: the key handed to the extracting party

    Lines 272 and 289-290 of the command-line flow: the key is the password,
    an underscore and the number of bits; the extracting side splits it at
    its last underscore and reads the number. *)

(** [str(n)]: the decimal digits of [n], most significant first, after a
    minus sign for a negative number.  [fuel] bounds the number of digits. *)
Fixpoint digits_loop (fuel : nat) (n : Z) (acc : list Z) : list Z :=
  match fuel with
  | O => acc
  | S fuel' =>
      let acc := (48 + n mod 10) :: acc in
      if n / 10 =? 0 then acc else digits_loop fuel' (n / 10) acc
  end.

Definition str_of_int (n : Z) : list Z :=
  if n <? 0 then 45 :: digits_loop (S (Z.to_nat (- n))) (- n) []
  else digits_loop (S (Z.to_nat n)) n [].

(** The first occurrence of [sep] in [l]: what is before it and what is
    after it. *)
Fixpoint break_at (sep : Z) (l : list Z) : option (list Z * list Z) :=
  match l with
  | [] => None
  | c :: rest =>
      if c =? sep then Some ([], rest)
      else match break_at sep rest with
           | Some (before, after) => Some (c :: before, after)
           | None => None
           end
  end.

(** [s.rsplit(sep, 1)] for a separator of one character: split at the last
    occurrence, or the whole string when there is none. *)
Definition rsplit_once (s : list Z) (sep : Z) : list (list Z) :=
  match break_at sep (rev s) with
  | Some (after, before) => [rev before; rev after]
  | None => [s]
  end.

Definition is_digit (c : Z) : bool := (48 <=? c) && (c <=? 57).

(** [int(s)] on a string of ASCII digits; the empty string raises
    [ValueError].  [int] also reads signs, blanks, underscores between
    digits and other decimal digits: such strings are outside this model
    and give [None]. *)
Definition int_of_str (s : list Z) : option (result Z) :=
  match s with
  | [] => Some (Raise ValueError)
  | _ =>
      if forallb is_digit s
      then Some (Ok (fold_left (fun acc c => 10 * acc + (c - 48)) s 0))
      else None
  end.

(** [password + '_' + str(len(bits))]. *)
Definition make_key (password : list Z) (bits : list Z) : list Z :=
  password ++ [95] ++ str_of_int (len bits).

(** [password_temp, count = key.rsplit("_", 1); count = int(count)]; the
    unpacking of a one-element list raises [ValueError]. *)
Definition split_key (key : list Z) : option (result (list Z * Z)) :=
  match rsplit_once key 95 with
  | [password; count] =>
      match int_of_str count with
      | Some (Ok n) => Some (Ok (password, n))
      | Some (Raise e) => Some (Raise e)
      | None => None
      end
  | _ => Some (Raise ValueError)
  end.
Example derive_x : derive_seed_from_password (codepoints "x") = 120.
Proof. reflexivity. Qed.

Example codec_hi :
  bits_to_bytes (bytes_to_bits [x68; x69]%byte) = Some (Ok [x68; x69]%byte).
Proof. reflexivity. Qed.

Example hi_bits_value :
  hi_bits = [0;1;1;0;1;0;0;0; 0;1;1;0;1;0;0;1].
Proof. reflexivity. Qed.

(** * Seed derivation *)

Lemma derive_seed_loop_fold (password : list Z) :
  forall (n : nat) (seed : Z),
    derive_seed_loop (Z.of_nat n) seed password
    = fold_left spec_accumulate (combine (seq n (length password)) password) seed.
Proof.
  induction password as [|ch rest IH]; intros n seed; simpl; [reflexivity|].
  replace (Z.of_nat n + 1) with (Z.of_nat (S n)) by lia.
  rewrite IH. reflexivity.
Qed.

Lemma spec_accumulate_range (acc : Z) (ich : nat * Z) :
  0 <= spec_accumulate acc ich < 2 ^ 32.
Proof.
  unfold spec_accumulate.
  change (2 ^ 32 - 1) with (Z.ones 32).
  rewrite Z.land_ones by lia.
  apply Z.mod_pos_bound. lia.
Qed.

Lemma spec_accumulator_range (password : list Z) :
  0 <= spec_accumulator password < 2 ^ 32.
Proof.
  unfold spec_accumulator.
  generalize (combine (seq 0 (length password)) password).
  intros l. 
  assert (H : forall acc, 0 <= acc < 2 ^ 32 ->
            0 <= fold_left spec_accumulate l acc < 2 ^ 32).
  { induction l as [|a l IH]; intros acc Hacc; simpl; [exact Hacc|].
    apply IH, spec_accumulate_range. }
  apply H. lia.
Qed.

(** Claim C7 (seed derivation).  [derive_seed_from_password] is a function
    of the password alone: it returns the accumulator that XORs every code
    point, shifted left by its index modulo 24, into a running value
    masked to 32 bits after every step, except that it returns the fixed
    non-zero fallback constant when that accumulator is zero.  The seed is
    therefore never zero and fits 32 bits; the password "x" gives 120 and
    the empty password gives the fallback. *)
Theorem derive_seed_from_password_spec (password : list Z) :
  derive_seed_from_password password
  = (if spec_accumulator password =? 0 then FALLBACK_SEED
     else spec_accumulator password)
  /\ FALLBACK_SEED <> 0
  /\ derive_seed_from_password password <> 0
  /\ 0 <= derive_seed_from_password password < 2 ^ 32
  /\ derive_seed_from_password (codepoints "x") = 120
  /\ derive_seed_from_password (codepoints "") = FALLBACK_SEED.
Proof.
  assert (E : derive_seed_from_password password
              = if spec_accumulator password =? 0 then FALLBACK_SEED
                else spec_accumulator password).
  { pose proof (derive_seed_loop_fold password 0 0) as H.
    change (Z.of_nat 0) with 0 in H.
    unfold derive_seed_from_password. cbv zeta.
    rewrite H. reflexivity. }
  split; [exact E|].
  split; [discriminate|].
  pose proof (spec_accumulator_range password) as R.
  rewrite E.
  destruct (spec_accumulator password =? 0) eqn:Z0.
  - repeat split; try discriminate; try reflexivity.
  - apply Z.eqb_neq in Z0. repeat split; try assumption; try lia; reflexivity.
Qed.

(** * Bit/byte codec *)


Lemma bytes_to_bits_cons (b : byte) (data : list byte) :
  bytes_to_bits (b :: data) = bits_of_byte b ++ bytes_to_bits data.
Proof. reflexivity. Qed.

Lemma bytes_to_bits_app (d1 d2 : list byte) :
  bytes_to_bits (d1 ++ d2) = bytes_to_bits d1 ++ bytes_to_bits d2.
Proof. unfold bytes_to_bits. apply flat_map_app. Qed.

Lemma bytes_to_bits_len (data : list byte) :
  len (bytes_to_bits data) = 8 * len data.
Proof.
  unfold len. induction data as [|b data IH]; [reflexivity|].
  rewrite bytes_to_bits_cons, length_app. cbn [length bits_of_byte map].
  lia.
Qed.

Lemma index_nonneg {A : Type} (s : list A) (i : Z) :
  0 <= i ->
  index s i = match s !! Z.to_nat i with
              | Some v => Ok v
              | None => Raise IndexError
              end.
Proof.
  intros Hi. unfold index. cbv zeta.
  assert (E : (i <? 0) = false) by (apply Z.ltb_ge; lia).
  rewrite E, E. reflexivity.
Qed.

Lemma index_app_r {A : Type} (l1 l2 : list A) (j : Z) :
  0 <= j -> index (l1 ++ l2) (len l1 + j) = index l2 j.
Proof.
  intros Hj. unfold len. rewrite !index_nonneg by lia.
  replace (Z.to_nat (Z.of_nat (length l1) + j)) with (length l1 + Z.to_nat j)%nat by lia.
  rewrite lookup_app_r by lia.
  replace (length l1 + Z.to_nat j - length l1)%nat with (Z.to_nat j) by lia.
  reflexivity.
Qed.

Lemma pack_bits_of_byte (b : byte) :
  fold_left (fun byte bit => Z.lor (Z.shiftl byte 1) (Z.land bit 1)) (bits_of_byte b) 0
  = int_of_byte b.
Proof. destruct b; reflexivity. Qed.

Lemma pack_byte_at (pre : list Z) (b : byte) (rest : list Z) :
  pack_byte (pre ++ bits_of_byte b ++ rest) (len pre) = Ok (int_of_byte b).
Proof.
  unfold pack_byte. cbn [for_each].
  rewrite !index_app_r by lia.
  rewrite <- (pack_bits_of_byte b).
  reflexivity.
Qed.

Lemma append_int_of_byte (out : list byte) (b : byte) :
  append out (int_of_byte b) = Ok (out ++ [b]).
Proof.
  unfold append, int_of_byte.
  pose proof (Byte.to_N_bounded b) as Hb.
  destruct (Z.leb_spec 0 (Z.of_N (Byte.to_N b))); [|lia].
  destruct (Z.ltb_spec (Z.of_N (Byte.to_N b)) 256); [|lia].
  cbn [andb]. rewrite N2Z.id, Byte.of_to_N. reflexivity.
Qed.

Lemma pack_all (data pre : list byte) (out : list byte) (tail : list Z) :
  for_each (map (fun k => 8 * Z.of_nat k) (seq (length pre) (length data)))
    (fun out i =>
       let* byte := pack_byte (bytes_to_bits pre ++ bytes_to_bits data ++ tail) i in
       append out byte)
    out
  = Ok (out ++ data).
Proof.
  revert pre out. induction data as [|b data IH]; intros pre out.
  - cbn. rewrite app_nil_r. reflexivity.
  - cbn [length seq map for_each].
    rewrite bytes_to_bits_cons, <- app_assoc.
    replace (8 * Z.of_nat (length pre)) with (len (bytes_to_bits pre))
      by (rewrite bytes_to_bits_len; reflexivity).
    rewrite pack_byte_at. cbn [bind]. rewrite append_int_of_byte. cbn [bind].
    specialize (IH (pre ++ [b]) (out ++ [b])).
    rewrite length_app, Nat.add_comm in IH. cbn [length Nat.add] in IH.
    rewrite bytes_to_bits_app in IH. cbn [bytes_to_bits flat_map] in IH.
    rewrite app_nil_r, <- !app_assoc in IH. 
    fold (bits_of_byte b) in IH.
    exact IH.
Qed.

(** * Padding *)

Lemma pad_loop_pads (fuel : nat) :
  forall bits : list Z,
    (- len bits) mod 8 <= Z.of_nat fuel ->
    pad_loop fuel bits
    = Some (bits ++ repeat 0 (Z.to_nat ((- len bits) mod 8))).
Proof.
  induction fuel as [|fuel IH]; intros bits Hfuel; cbn [pad_loop];
    destruct (Z.eqb_spec (len bits mod 8) 0) as [E|E].
  - replace ((- len bits) mod 8) with 0 by (Z.div_mod_to_equations; lia).
    cbn. rewrite app_nil_r. reflexivity.
  - exfalso. revert Hfuel E. Z.div_mod_to_equations. lia.
  - replace ((- len bits) mod 8) with 0 by (Z.div_mod_to_equations; lia).
    cbn. rewrite app_nil_r. reflexivity.
  - assert (Hlen : len (bits ++ [0]) = len bits + 1)
      by (unfold len; rewrite length_app; cbn [length]; lia).
    assert (Hk : (- len bits) mod 8 = (- len (bits ++ [0])) mod 8 + 1)
      by (rewrite Hlen; revert E; Z.div_mod_to_equations; lia).
    rewrite IH by lia. rewrite Hk.
    pose proof (Z.mod_pos_bound (- len (bits ++ [0])) 8 ltac:(lia)).
    replace (Z.to_nat ((- len (bits ++ [0])) mod 8 + 1))
      with (S (Z.to_nat ((- len (bits ++ [0])) mod 8))) by lia.
    cbn [repeat]. rewrite <- app_assoc. reflexivity.
Qed.

Lemma padding (bits : list Z) :
  exists k,
    0 <= k < 8
    /\ pad_loop 8 bits = Some (bits ++ repeat 0 (Z.to_nat k))
    /\ len (bits ++ repeat 0 (Z.to_nat k)) mod 8 = 0.
Proof.
  pose proof (Z.mod_pos_bound (- len bits) 8 ltac:(lia)) as Hk.
  exists ((- len bits) mod 8). split; [lia|]. split.
  - apply pad_loop_pads. cbn. lia.
  - unfold len in *. rewrite length_app, repeat_length.
    rewrite Nat2Z.inj_add, Z2Nat.id by lia.
    Z.div_mod_to_equations. lia.
Qed.

(** Claim C3 (codec round trip).  For every byte sequence [d],
    [bits_to_bytes (bytes_to_bits d)] returns [d]; [bytes_to_bits] emits
    the eight bits of each byte most significant first, [8 * len d] bits
    in all; and [bits_to_bytes] first pads any bit list on the right with
    fewer than eight zero bits to a multiple of eight. *)
Theorem codec_roundtrip (d : list byte) :
  bits_to_bytes (bytes_to_bits d) = Some (Ok d)
  /\ len (bytes_to_bits d) = 8 * len d
  /\ bytes_to_bits d = concat (map bits_of_byte d)
  /\ forall bits : list Z,
       exists k,
         0 <= k < 8
         /\ pad_loop 8 bits = Some (bits ++ repeat 0 (Z.to_nat k))
         /\ len (bits ++ repeat 0 (Z.to_nat k)) mod 8 = 0.
Proof.
  split; [|split; [apply bytes_to_bits_len|split; [apply flat_map_concat_map|apply padding]]].
  unfold bits_to_bytes.
  assert (Hpad : pad_loop 8 (bytes_to_bits d) = Some (bytes_to_bits d)).
  { cbn [pad_loop]. rewrite bytes_to_bits_len.
    replace (8 * len d) with (len d * 8) by lia.
    rewrite Z.mod_mul by lia. reflexivity. }
  rewrite Hpad. f_equal.
  unfold range_step8. rewrite bytes_to_bits_len.
  replace ((8 * len d + 7) / 8) with (len d)
    by (unfold len; apply Z.div_unique with (r := 7); lia).
  unfold len at 1. rewrite Nat2Z.id.
  pose proof (pack_all d [] [] []) as H.
  cbn [length bytes_to_bits flat_map app] in H.
  rewrite app_nil_r in H. exact H.
Qed.

(** * The scheduling loops *)

Lemma bind_Ok {A B : Type} (m : result A) (k : A -> result B) (b : B) :
  bind m k = Ok b -> exists a, m = Ok a /\ k a = Ok b.
Proof. destruct m as [a|e]; cbn; [eauto | discriminate]. Qed.

Lemma next_u32_draws (p : SimplePRNG) :
  draws (snd (next_u32 p)) = draws p + 1.
Proof. reflexivity. Qed.

Section Scheduling.

Variables (message_bits : list Z).
Variables (width height usable_channels total_capacity_bits : Z).
Variables (complexity_threshold max_attempts : Z).

(** What [select] guarantees about a position it lets through. *)
Lemma select_accepts (pixels : Image) (used : gset Z) (pos_rand : Z)
    (sel : selection) :
  select pixels used width height usable_channels total_capacity_bits
    complexity_threshold pos_rand = Ok (Some sel) ->
  s_pos sel = pos_rand mod total_capacity_bits
  /\ s_channel_index sel = s_pos sel mod usable_channels
  /\ s_x sel = (s_pos sel / usable_channels) mod width
  /\ s_y sel = (s_pos sel / usable_channels) / width
  /\ (exists c, compute_local_complexity pixels (s_x sel) (s_y sel) width height = Ok c
                /\ complexity_threshold <= c)
  /\ (s_pos sel ∉ used)
  /\ (exists pix, getitem pixels (s_x sel) (s_y sel) = Ok pix
                  /\ s_pix_list sel = as_list pix)
  /\ index (s_pix_list sel) (s_channel_index sel) = Ok (s_current sel).
Proof.
  unfold select. cbv zeta. intros H.
  apply bind_Ok in H as (c & Hc & H).
  destruct (Z.ltb_spec c complexity_threshold) as [|Hge]; [discriminate|].
  destruct (bool_decide_reflect (pos_rand mod total_capacity_bits ∈ used)) as [|Hnot];
    [discriminate|].
  apply bind_Ok in H as (pix & Hpix & H).
  apply bind_Ok in H as (current & Hcur & H).
  injection H as <-. cbn.
  repeat split; eauto.
Qed.


Lemma embed_body_pass (st st' : embed_locals) (signal : option exn) :
  embed_body message_bits width height usable_channels total_capacity_bits
    complexity_threshold st = (st', signal) ->
  embed_pass message_bits width height usable_channels total_capacity_bits
    complexity_threshold st st' signal.
Proof.
  unfold embed_body.
  destruct (next_u32 (e_prng st)) as [pos_rand prng] eqn:Hdraw.
  cbn [fst snd].
  destruct (select _ _ _ _ _ _ _ _) as [[sel|]|e] eqn:Hsel.
  - destruct (index message_bits (e_embedded st)) as [target_bit|e] eqn:Hbit; cbn [bind].
    + destruct (mutate _ _ _ _) as [[pixels' prng']|e] eqn:Hmut;
        intros [= <- <-].
      * apply embed_accept with (sel := sel) (target_bit := target_bit); rewrite ?Hdraw;
          try reflexivity; assumption.
      * apply embed_skip; rewrite ?Hdraw; try reflexivity; discriminate.
    + intros [= <- <-]. apply embed_skip; rewrite ?Hdraw; try reflexivity;
        discriminate.
  - intros [= <- <-]. apply embed_skip; rewrite ?Hdraw; try reflexivity.
    intros _. exact Hsel.
  - intros [= <- <-]. apply embed_skip; rewrite ?Hdraw; try reflexivity;
      discriminate.
Qed.

(** Loop invariants: what every pass preserves holds when the loop stops. *)
Lemma embed_loop_invariant (P : embed_locals -> Prop) :
  (forall st st' signal,
      P st ->
      e_embedded st < len message_bits ->
      e_attempts st < max_attempts ->
      embed_pass message_bits width height usable_channels total_capacity_bits
    complexity_threshold st st' signal -> P st') ->
  forall fuel st st' signal,
    P st ->
    embed_loop fuel message_bits width height usable_channels
      total_capacity_bits complexity_threshold max_attempts st
    = Some (st', signal) ->
    P st'.
Proof.
  intros Hstep fuel.
  induction fuel as [|fuel IH]; intros st st' signal HP; cbn [embed_loop];
    destruct (Z.ltb_spec (e_embedded st) (len message_bits)) as [He|He];
    destruct (Z.ltb_spec (e_attempts st) max_attempts) as [Ha|Ha];
    cbn [andb]; try discriminate;
    try (intros [= <- <-]; exact HP).
  destruct (embed_body _ _ _ _ _ _ _) as [st1 [e|]] eqn:Hbody.
  - intros [= <- <-]. eapply Hstep; eauto using embed_body_pass.
  - apply IH. eapply Hstep; eauto using embed_body_pass.
Qed.

(** The loop always stops within the attempt budget. *)
Lemma embed_loop_total (fuel : nat) (st : embed_locals) :
  max_attempts - e_attempts st <= Z.of_nat fuel ->
  exists st' signal,
    embed_loop fuel message_bits width height usable_channels
      total_capacity_bits complexity_threshold max_attempts st
    = Some (st', signal).
Proof.
  revert st. induction fuel as [|fuel IH]; intros st Hfuel; cbn [embed_loop];
    destruct (Z.ltb_spec (e_embedded st) (len message_bits)) as [He|He];
    destruct (Z.ltb_spec (e_attempts st) max_attempts) as [Ha|Ha];
    cbn [andb]; eauto; try lia.
  destruct (embed_body _ _ _ _ _ _ _) as [st1 [e|]] eqn:Hbody; eauto.
  apply IH.
  apply embed_body_pass in Hbody. destruct Hbody; lia.
Qed.

(** When the loop leaves without an exception its condition is false. *)
Lemma embed_loop_exit (fuel : nat) (st st' : embed_locals) :
  embed_loop fuel message_bits width height usable_channels
    total_capacity_bits complexity_threshold max_attempts st
  = Some (st', None) ->
  len message_bits <= e_embedded st' \/ max_attempts <= e_attempts st'.
Proof.
  revert st. induction fuel as [|fuel IH]; intros st; cbn [embed_loop];
    destruct (Z.ltb_spec (e_embedded st) (len message_bits)) as [He|He];
    destruct (Z.ltb_spec (e_attempts st) max_attempts) as [Ha|Ha];
    cbn [andb]; try discriminate;
    try (intros [= <-]; lia).
  destruct (embed_body _ _ _ _ _ _ _) as [st1 [e|]] eqn:Hbody; [discriminate|].
  apply IH.
Qed.


Lemma extract_body_pass (st st' : extract_locals) (signal : option exn) :
  extract_body width height usable_channels total_capacity_bits
    complexity_threshold st = (st', signal) ->
  extract_pass width height usable_channels total_capacity_bits
    complexity_threshold st st' signal.
Proof.
  unfold extract_body.
  destruct (next_u32 (x_prng st)) as [pos_rand prng] eqn:Hdraw.
  destruct (select _ _ _ _ _ _ _ _) as [[sel|]|e] eqn:Hsel; intros [= <- <-].
  - apply extract_accept with (sel := sel); rewrite ?Hdraw; try reflexivity; assumption.
  - apply extract_skip; rewrite ?Hdraw; try reflexivity. intros _. exact Hsel.
  - apply extract_skip; rewrite ?Hdraw; try reflexivity; discriminate.
Qed.

Variable num_bits : Z.

Lemma extract_loop_invariant (P : extract_locals -> Prop) :
  (forall st st' signal,
      P st ->
      len (x_extracted st) < num_bits ->
      x_attempts st < max_attempts ->
      extract_pass width height usable_channels total_capacity_bits
    complexity_threshold st st' signal -> P st') ->
  forall fuel st st' signal,
    P st ->
    extract_loop fuel num_bits width height usable_channels
      total_capacity_bits complexity_threshold max_attempts st
    = Some (st', signal) ->
    P st'.
Proof.
  intros Hstep fuel.
  induction fuel as [|fuel IH]; intros st st' signal HP; cbn [extract_loop];
    destruct (Z.ltb_spec (len (x_extracted st)) num_bits) as [He|He];
    destruct (Z.ltb_spec (x_attempts st) max_attempts) as [Ha|Ha];
    cbn [andb]; try discriminate;
    try (intros [= <- <-]; exact HP).
  destruct (extract_body _ _ _ _ _ _) as [st1 [e|]] eqn:Hbody.
  - intros [= <- <-]. eapply Hstep; eauto using extract_body_pass.
  - apply IH. eapply Hstep; eauto using extract_body_pass.
Qed.

Lemma extract_loop_total (fuel : nat) (st : extract_locals) :
  max_attempts - x_attempts st <= Z.of_nat fuel ->
  exists st' signal,
    extract_loop fuel num_bits width height usable_channels
      total_capacity_bits complexity_threshold max_attempts st
    = Some (st', signal).
Proof.
  revert st. induction fuel as [|fuel IH]; intros st Hfuel; cbn [extract_loop];
    destruct (Z.ltb_spec (len (x_extracted st)) num_bits) as [He|He];
    destruct (Z.ltb_spec (x_attempts st) max_attempts) as [Ha|Ha];
    cbn [andb]; eauto; try lia.
  destruct (extract_body _ _ _ _ _ _) as [st1 [e|]] eqn:Hbody; eauto.
  apply IH.
  apply extract_body_pass in Hbody. destruct Hbody; lia.
Qed.


End Scheduling.

(** * The two operations as a whole *)

Lemma getitem_origin (img : Image) : getitem img 0 0 = Ok (im_cell img 0 0).
Proof. unfold getitem, in_image. cbn. reflexivity. Qed.

(** A call of [embed_message_bits] is either stopped by the capacity guard
    or is a run of the loop from the initial locals. *)
Lemma embed_message_bits_run (img : Image) (message_bits password : list Z)
    (complexity_threshold max_attempt_factor : Z) :
  let usable_channels := usable_channels_of (num_channels_of (im_cell img 0 0)) in
  let max_attempts := Capacity img * max_attempt_factor in
  let st0 := {| e_pixels := img;
                e_prng := SimplePRNG_init (derive_seed_from_password password);
                e_embedded := 0; e_used_positions := ∅; e_attempts := 0;
                e_accepted := [] |} in
  (Capacity img < len message_bits /\
   embed_message_bits img message_bits password complexity_threshold
     max_attempt_factor
   = Some {| er_outcome := Raise CapacityExceeded; er_pixels := img;
             er_draws := 0; er_attempts := 0; er_embedded := 0;
             er_accepted := [] |})
  \/
  (len message_bits <= Capacity img /\
   exists st signal,
     embed_loop (Z.to_nat max_attempts) message_bits (Z.pos (im_width img))
       (Z.pos (im_height img)) usable_channels (Capacity img)
       complexity_threshold max_attempts st0 = Some (st, signal)
     /\ embed_message_bits img message_bits password complexity_threshold
          max_attempt_factor
        = Some {| er_outcome :=
                    match signal with
                    | Some e => Raise e
                    | None => if e_embedded st <? len message_bits
                              then Raise BudgetExhausted else Ok tt
                    end;
                  er_pixels := e_pixels st;
                  er_draws := draws (e_prng st);
                  er_attempts := e_attempts st;
                  er_embedded := e_embedded st;
                  er_accepted := e_accepted st |}).
Proof.
  intros usable_channels max_attempts st0.
  unfold embed_message_bits. rewrite getitem_origin. cbv zeta.
  change (Z.pos (im_width img) * Z.pos (im_height img)
          * usable_channels_of (num_channels_of (im_cell img 0 0)))
    with (Capacity img).
  fold usable_channels max_attempts st0.
  destruct (Z.gtb_spec (len message_bits) (Capacity img)) as [Hgt|Hle].
  - left. split; [lia|reflexivity].
  - right. split; [lia|].
    destruct (embed_loop_total message_bits (Z.pos (im_width img))
                (Z.pos (im_height img)) usable_channels (Capacity img)
                complexity_threshold max_attempts (Z.to_nat max_attempts) st0)
      as (st & signal & Hloop); [cbn; lia|].
    exists st, signal. split; [exact Hloop|].
    rewrite Hloop. reflexivity.
Qed.

Lemma extract_message_bits_run (img : Image) (num_bits : Z) (password : list Z)
    (complexity_threshold max_attempt_factor : Z) :
  let usable_channels := usable_channels_of (num_channels_of (im_cell img 0 0)) in
  let max_attempts := Capacity img * max_attempt_factor in
  let st0 := {| x_pixels := img;
                x_prng := SimplePRNG_init (derive_seed_from_password password);
                x_extracted := []; x_used_positions := ∅; x_attempts := 0;
                x_accepted := [] |} in
  (Capacity img < num_bits /\
   extract_message_bits img num_bits password complexity_threshold
     max_attempt_factor
   = Some {| xr_outcome := Raise CapacityExceeded; xr_pixels := img;
             xr_draws := 0; xr_attempts := 0; xr_accepted := [] |})
  \/
  (num_bits <= Capacity img /\
   exists st signal,
     extract_loop (Z.to_nat max_attempts) num_bits (Z.pos (im_width img))
       (Z.pos (im_height img)) usable_channels (Capacity img)
       complexity_threshold max_attempts st0 = Some (st, signal)
     /\ extract_message_bits img num_bits password complexity_threshold
          max_attempt_factor
        = Some {| xr_outcome :=
                    match signal with
                    | Some e => Raise e
                    | None => if len (x_extracted st) <? num_bits
                              then Raise BudgetExhausted else Ok (x_extracted st)
                    end;
                  xr_pixels := x_pixels st;
                  xr_draws := draws (x_prng st);
                  xr_attempts := x_attempts st;
                  xr_accepted := x_accepted st |}).
Proof.
  intros usable_channels max_attempts st0.
  unfold extract_message_bits. rewrite getitem_origin. cbv zeta.
  change (Z.pos (im_width img) * Z.pos (im_height img)
          * usable_channels_of (num_channels_of (im_cell img 0 0)))
    with (Capacity img).
  fold usable_channels max_attempts st0.
  destruct (Z.gtb_spec num_bits (Capacity img)) as [Hgt|Hle].
  - left. split; [lia|reflexivity].
  - right. split; [lia|].
    destruct (extract_loop_total (Z.pos (im_width img))
                (Z.pos (im_height img)) usable_channels (Capacity img)
                complexity_threshold max_attempts num_bits
                (Z.to_nat max_attempts) st0)
      as (st & signal & Hloop); [cbn; lia|].
    exists st, signal. split; [exact Hloop|].
    rewrite Hloop. reflexivity.
Qed.

(** Claim C2 (capacity guard).  For every pixel buffer, password, threshold
    and attempt factor: when the message has more bits than
    [Capacity = width * height * usableChannelCount], [embed_message_bits]
    fails with [CapacityExceeded], no draw and no scheduling attempt is
    made, no position is accepted, and the buffer is the one the call was
    given, pixel for pixel. *)
Theorem capacity_guard (img : Image) (message_bits password : list Z)
    (complexity_threshold max_attempt_factor : Z) :
  len message_bits > Capacity img ->
  exists r,
    embed_message_bits img message_bits password complexity_threshold
      max_attempt_factor = Some r
    /\ er_outcome r = Raise CapacityExceeded
    /\ er_draws r = 0
    /\ er_attempts r = 0
    /\ er_accepted r = []
    /\ er_pixels r = img
    /\ (forall x y, im_cell (er_pixels r) x y = im_cell img x y).
Proof.
  intros Hk.
  destruct (embed_message_bits_run img message_bits password
              complexity_threshold max_attempt_factor) as [[_ E]|[Hle _]]; [|lia].
  eexists. split; [exact E|]. cbn. repeat split; reflexivity.
Qed.



Lemma select_gated (img pixels : Image) (used : gset Z) (threshold pos_rand : Z)
    (sel : selection) :
  select pixels used (Z.pos (im_width img)) (Z.pos (im_height img))
    (usable_channels_of (num_channels_of (im_cell img 0 0))) (Capacity img)
    threshold pos_rand = Ok (Some sel) ->
  gated img threshold (s_pos sel, pixels).
Proof.
  intros H. apply select_accepts in H as (_ & _ & Hx & Hy & Hc & _).
  unfold gated, position_x, position_y. cbn [fst snd].
  rewrite <- Hx, <- Hy. exact Hc.
Qed.

Lemma select_reads (img pixels : Image) (used : gset Z) (threshold pos_rand : Z)
    (sel : selection) :
  select pixels used (Z.pos (im_width img)) (Z.pos (im_height img))
    (usable_channels_of (num_channels_of (im_cell img 0 0))) (Capacity img)
    threshold pos_rand = Ok (Some sel) ->
  channel_in img pixels (s_pos sel) = Ok (s_current sel).
Proof.
  intros H.
  apply select_accepts in H as (_ & Hc & Hx & Hy & _ & _ & (pix & Hpix & Hl) & Hcur).
  unfold channel_in, position_x, position_y, position_channel.
  rewrite <- Hx, <- Hy, <- Hc, Hpix. cbn [bind]. rewrite <- Hl. exact Hcur.
Qed.

(** Claim C4 (complexity gating).  For every threshold, every position
    that the scheduler accepts, in the embedding and in the extraction,
    has a local complexity not below the threshold: the estimator, run at
    the pixel the position decomposes into and on the buffer as it is
    when the position is accepted, returns such a value.  Both calls
    return a report. *)
Theorem complexity_gating (img : Image) (message_bits password : list Z)
    (num_bits complexity_threshold max_attempt_factor : Z) :
  (exists r,
      embed_message_bits img message_bits password complexity_threshold
        max_attempt_factor = Some r
      /\ Forall (gated img complexity_threshold) (er_accepted r))
  /\ (exists r,
      extract_message_bits img num_bits password complexity_threshold
        max_attempt_factor = Some r
      /\ Forall (gated img complexity_threshold) (xr_accepted r)).
Proof.
  split.
  - destruct (embed_message_bits_run img message_bits password
                complexity_threshold max_attempt_factor)
      as [[_ E]|(_ & st & signal & Hloop & E)];
      (eexists; split; [exact E|]); cbn [er_accepted]; [constructor|].
    revert Hloop.
    apply (embed_loop_invariant _ _ _ _ _ _ _
             (fun s => Forall (gated img complexity_threshold) (e_accepted s)));
      [|constructor].
    intros s s' sig HP _ _ [_ _ _ _ _ Hacc _ | sel b _ Hsel _ _ _ _ _ Hacc];
      rewrite Hacc; [exact HP|].
    apply Forall_app. split; [exact HP|].
    constructor; [|constructor]. eapply select_gated, Hsel.
  - destruct (extract_message_bits_run img num_bits password
                complexity_threshold max_attempt_factor)
      as [[_ E]|(_ & st & signal & Hloop & E)];
      (eexists; split; [exact E|]); cbn [xr_accepted]; [constructor|].
    revert Hloop.
    apply (extract_loop_invariant _ _ _ _ _ _ _
             (fun s => Forall (gated img complexity_threshold) (x_accepted s)));
      [|constructor].
    intros s s' sig HP _ _ [_ _ _ _ _ Hacc _ | sel _ Hsel _ _ _ _ _ Hacc];
      rewrite Hacc; [exact HP|].
    apply Forall_app. split; [exact HP|].
    constructor; [|constructor]. eapply select_gated, Hsel.
Qed.


Lemma fresh_log_accept (used : gset Z) (accepted : list (Z * Image))
    (pos : Z) (snapshot : Image) :
  fresh_log used accepted ->
  pos ∉ used ->
  fresh_log ({[ pos ]} ∪ used) (accepted ++ [(pos, snapshot)]).
Proof.
  intros [Hnd Hin] Hfresh. unfold fresh_log.
  rewrite map_app. cbn [map fst]. split.
  - apply NoDup_app. split; [exact Hnd|]. split.
    + intros p Hp Hp'. apply list_elem_of_singleton in Hp'. subst p. auto.
    + apply NoDup_singleton.
  - intros p Hp. apply elem_of_app in Hp as [Hp|Hp].
    + apply elem_of_union_r. auto.
    + apply list_elem_of_singleton in Hp. subst p.
      apply elem_of_union_l, elem_of_singleton. reflexivity.
Qed.

Lemma fresh_log_nil : fresh_log ∅ [].
Proof.
  split; [constructor|]. intros pos H. cbn in H. inversion H.
Qed.

(** Claim C6 (position uniqueness).  Within one call of the embedding and
    within one call of the extraction no position is accepted twice: the
    list of accepted positions has no duplicates. *)
Theorem position_uniqueness (img : Image) (message_bits password : list Z)
    (num_bits complexity_threshold max_attempt_factor : Z) :
  (exists r,
      embed_message_bits img message_bits password complexity_threshold
        max_attempt_factor = Some r
      /\ NoDup (map fst (er_accepted r)))
  /\ (exists r,
      extract_message_bits img num_bits password complexity_threshold
        max_attempt_factor = Some r
      /\ NoDup (map fst (xr_accepted r))).
Proof.
  split.
  - destruct (embed_message_bits_run img message_bits password
                complexity_threshold max_attempt_factor)
      as [[_ E]|(_ & st & signal & Hloop & E)];
      (eexists; split; [exact E|]); cbn [er_accepted]; [constructor|].
    enough (fresh_log (e_used_positions st) (e_accepted st)) as [H _] by exact H.
    revert Hloop.
    apply (embed_loop_invariant _ _ _ _ _ _ _
             (fun s => fresh_log (e_used_positions s) (e_accepted s)));
      [|exact fresh_log_nil].
    intros s s' sig HP _ _ [_ _ _ Hused _ Hacc _ | sel b _ Hsel _ _ _ Hused _ Hacc];
      rewrite Hused, Hacc; [exact HP|].
    apply fresh_log_accept; [exact HP|].
    apply select_accepts in Hsel. tauto.
  - destruct (extract_message_bits_run img num_bits password
                complexity_threshold max_attempt_factor)
      as [[_ E]|(_ & st & signal & Hloop & E)];
      (eexists; split; [exact E|]); cbn [xr_accepted]; [constructor|].
    enough (fresh_log (x_used_positions st) (x_accepted st)) as [H _] by exact H.
    revert Hloop.
    apply (extract_loop_invariant _ _ _ _ _ _ _
             (fun s => fresh_log (x_used_positions s) (x_accepted s)));
      [|exact fresh_log_nil].
    intros s s' sig HP _ _ [_ _ _ Hused _ Hacc _ | sel _ Hsel _ _ _ Hused _ Hacc];
      rewrite Hused, Hacc; [exact HP|].
    apply fresh_log_accept; [exact HP|].
    apply select_accepts in Hsel. tauto.
Qed.


Lemma extraction_pure_pass (img : Image) (threshold : Z)
    (st st' : extract_locals) (signal : option exn) :
  extraction_pure img st ->
  extract_pass (Z.pos (im_width img)) (Z.pos (im_height img))
    (usable_channels_of (num_channels_of (im_cell img 0 0))) (Capacity img)
    threshold st st' signal ->
  extraction_pure img st'.
Proof.
  intros (Hpix & Hdraws & Hbits)
    [Hp Hprng Hext _ Hatt Hacc _ | sel _ Hsel Hp Hprng Hext _ Hatt Hacc];
    unfold extraction_pure;
    rewrite Hp, Hprng, Hext, Hatt, Hacc, next_u32_draws, Hdraws;
    (split; [exact Hpix|]); (split; [reflexivity|]); [exact Hbits|].
  apply Forall2_app; [exact Hbits|].
  constructor; [|constructor].
  split; [exact Hpix|]. cbn [fst].
  exists (s_current sel). split; [|reflexivity].
  rewrite Hpix in Hsel. eapply select_reads, Hsel.
Qed.

(** Claim C8 (extraction purity).  A call of [extract_message_bits] leaves
    the buffer as it was given, makes exactly one draw per scheduling
    attempt, and every bit it returns is the lowest bit of the channel that
    the accepted position addresses in that buffer. *)
Theorem extraction_purity (img : Image) (num_bits : Z) (password : list Z)
    (complexity_threshold max_attempt_factor : Z) :
  exists r,
    extract_message_bits img num_bits password complexity_threshold
      max_attempt_factor = Some r
    /\ xr_pixels r = img
    /\ xr_draws r = xr_attempts r
    /\ (forall bits, xr_outcome r = Ok bits ->
                     Forall2 (read_from img) bits (xr_accepted r)).
Proof.
  destruct (extract_message_bits_run img num_bits password
              complexity_threshold max_attempt_factor)
    as [[_ E]|(_ & st & signal & Hloop & E)];
    (eexists; split; [exact E|]);
    cbn [xr_pixels xr_draws xr_attempts xr_outcome xr_accepted].
  - repeat split; try reflexivity. intros bits [=].
  - assert (H : extraction_pure img st).
    { revert Hloop.
      apply (extract_loop_invariant _ _ _ _ _ _ _ (extraction_pure img)).
      - intros s s' sig HP _ _ Hpass. eapply extraction_pure_pass; eauto.
      - repeat split; constructor. }
    destruct H as (Hp & Hd & Hb). repeat split; try assumption.
    intros bits Hout. destruct signal; [discriminate|].
    destruct (len (x_extracted st) <? num_bits); [discriminate|].
    injection Hout as <-. exact Hb.
Qed.

(** ** Extraction depends on the contents of the buffer only *)


Lemma getitem_ext (p1 p2 : Image) (x y : Z) :
  same_image p1 p2 -> getitem p1 x y = getitem p2 x y.
Proof.
  intros (Hw & Hh & Hc). unfold getitem.
  assert (E : in_image p2 x y = in_image p1 x y)
    by (unfold in_image; rewrite Hw, Hh; reflexivity).
  rewrite E. destruct (in_image p1 x y) eqn:Hin; [|reflexivity].
  rewrite (Hc x y Hin). reflexivity.
Qed.

Lemma for_each_ext {A S : Type} (l : list A) (f g : S -> A -> result S) :
  (forall acc v, f acc v = g acc v) ->
  forall acc, for_each l f acc = for_each l g acc.
Proof.
  intros Hfg. induction l as [|v l IH]; intros acc; cbn [for_each];
    [reflexivity|].
  rewrite Hfg. destruct (g acc v); cbn [bind]; [apply IH|reflexivity].
Qed.

Lemma compute_local_complexity_ext (p1 p2 : Image) (x y width height : Z) :
  same_image p1 p2 ->
  compute_local_complexity p1 x y width height
  = compute_local_complexity p2 x y width height.
Proof.
  intros Hsame. unfold compute_local_complexity. cbv zeta.
  rewrite (getitem_ext p1 p2 _ _ Hsame).
  destruct (getitem p2 _ _) as [center|e]; cbn [bind]; [|reflexivity].
  apply for_each_ext. intros acc d.
  rewrite (getitem_ext p1 p2 _ _ Hsame). reflexivity.
Qed.

Lemma select_ext (p1 p2 : Image) (used : gset Z)
    (width height usable_channels total_capacity_bits threshold pos_rand : Z) :
  same_image p1 p2 ->
  select p1 used width height usable_channels total_capacity_bits threshold pos_rand
  = select p2 used width height usable_channels total_capacity_bits threshold pos_rand.
Proof.
  intros Hsame. unfold select. cbv zeta.
  rewrite (compute_local_complexity_ext p1 p2 _ _ _ _ Hsame).
  rewrite (getitem_ext p1 p2 _ _ Hsame). reflexivity.
Qed.


Lemma extract_body_ext
    (width height usable_channels total_capacity_bits threshold : Z)
    (st1 st2 : extract_locals) :
  same_image (x_pixels st1) (x_pixels st2) ->
  visible_locals st1 = visible_locals st2 ->
  let r1 := extract_body width height usable_channels total_capacity_bits threshold st1 in
  let r2 := extract_body width height usable_channels total_capacity_bits threshold st2 in
  same_image (x_pixels (fst r1)) (x_pixels (fst r2))
  /\ visible_locals (fst r1) = visible_locals (fst r2)
  /\ snd r1 = snd r2.
Proof.
  intros Hsame Hvis. unfold visible_locals in Hvis.
  injection Hvis as Hprng Hext Hused Hatt Hacc.
  cbv zeta. unfold extract_body.
  rewrite <- Hprng, <- Hused, <- Hatt, <- Hext.
  destruct (next_u32 (x_prng st1)) as [pos_rand prng].
  rewrite <- (select_ext _ _ _ _ _ _ _ _ _ Hsame).
  destruct (select _ _ _ _ _ _ _ _) as [[sel|]|e];
    cbn [fst snd x_pixels]; unfold visible_locals;
    cbn [x_prng x_extracted x_used_positions x_attempts x_accepted];
    rewrite ?map_app, ?Hacc; auto.
Qed.

Lemma extract_loop_ext
    (num_bits width height usable_channels total_capacity_bits threshold
     max_attempts : Z) (fuel : nat) :
  forall st1 st2,
    same_image (x_pixels st1) (x_pixels st2) ->
    visible_locals st1 = visible_locals st2 ->
    match extract_loop fuel num_bits width height usable_channels
            total_capacity_bits threshold max_attempts st1,
          extract_loop fuel num_bits width height usable_channels
            total_capacity_bits threshold max_attempts st2 with
    | Some (s1, sig1), Some (s2, sig2) =>
        visible_locals s1 = visible_locals s2 /\ sig1 = sig2
    | None, None => True
    | _, _ => False
    end.
Proof.
  induction fuel as [|fuel IH]; intros st1 st2 Hsame Hvis; cbn [extract_loop];
    pose proof Hvis as Hvis'; unfold visible_locals in Hvis';
    injection Hvis' as _ Hext _ Hatt _; rewrite <- Hext, <- Hatt;
    destruct ((len (x_extracted st1) <? num_bits) && (x_attempts st1 <? max_attempts));
    try (split; [exact Hvis|reflexivity]); try exact I.
  pose proof (extract_body_ext width height usable_channels total_capacity_bits
                threshold st1 st2 Hsame Hvis) as (Hs & Hv & Hsig).
  destruct (extract_body _ _ _ _ _ st1) as [s1 sig1].
  destruct (extract_body _ _ _ _ _ st2) as [s2 sig2].
  cbn [fst snd] in Hs, Hv, Hsig. subst sig2.
  destruct sig1; [split; [exact Hv|reflexivity] | apply IH; assumption].
Qed.

(** Claim C10 (extraction determinism).  What [extract_message_bits] returns
    (the bit list or the error, the numbers of draws and attempts, and the
    accepted positions) is determined by its arguments: two calls with the
    same number of bits, password, threshold and attempt factor on buffers
    that show the same image give the same result. *)
Theorem extraction_deterministic (img1 img2 : Image) (num_bits : Z)
    (password : list Z) (complexity_threshold max_attempt_factor : Z) :
  same_image img1 img2 ->
  option_map visible
    (extract_message_bits img1 num_bits password complexity_threshold
       max_attempt_factor)
  = option_map visible
      (extract_message_bits img2 num_bits password complexity_threshold
         max_attempt_factor).
Proof.
  intros Hsame. pose proof Hsame as (Hw & Hh & Hc).
  unfold extract_message_bits. rewrite !getitem_origin. cbv zeta.
  rewrite <- Hw, <- Hh, <- (Hc 0 0) by reflexivity.
  destruct (num_bits >? _); [reflexivity|].
  match goal with
  | |- context [extract_loop ?f ?n ?w ?h ?u ?c ?t ?m ?s1] =>
      match goal with
      | |- context [extract_loop f n w h u c t m
                      {| x_pixels := img2; x_prng := ?p; x_extracted := ?e;
                         x_used_positions := ?us; x_attempts := ?a;
                         x_accepted := ?ac |}] =>
          pose proof (extract_loop_ext n w h u c t m f
                        {| x_pixels := img1; x_prng := p; x_extracted := e;
                           x_used_positions := us; x_attempts := a;
                           x_accepted := ac |}
                        {| x_pixels := img2; x_prng := p; x_extracted := e;
                           x_used_positions := us; x_attempts := a;
                           x_accepted := ac |} Hsame eq_refl) as H
      end
  end.
  destruct (extract_loop _ _ _ _ _ _ _ _ {| x_pixels := img1 |}) as [[s1 sig1]|];
    destruct (extract_loop _ _ _ _ _ _ _ _ {| x_pixels := img2 |}) as [[s2 sig2]|];
    try contradiction; [|reflexivity].
  destruct H as [Hv ->]. unfold visible_locals in Hv.
  injection Hv as Hprng Hext Hused Hatt Hacc.
  cbn [option_map]. unfold visible.
  cbn [xr_outcome xr_draws xr_attempts xr_accepted].
  rewrite Hprng, Hext, Hatt, Hacc. reflexivity.
Qed.

(** * Flat images *)

Lemma clamp_range (v dim : Z) : 3 <= dim -> 1 <= clamp v 1 (dim - 2) <= dim - 2.
Proof. unfold clamp. lia. Qed.

Lemma getitem_inside (img : Image) (x y : Z) :
  0 <= x < Z.pos (im_width img) -> 0 <= y < Z.pos (im_height img) ->
  getitem img x y = Ok (im_cell img x y).
Proof.
  intros Hx Hy. unfold getitem, in_image.
  destruct (Z.leb_spec 0 x); [|lia].
  destruct (Z.ltb_spec x (Z.pos (im_width img))); [|lia].
  destruct (Z.leb_spec 0 y); [|lia].
  destruct (Z.ltb_spec y (Z.pos (im_height img))); [|lia].
  reflexivity.
Qed.

Lemma getitem_flat (img : Image) (x y : Z) :
  flat img ->
  0 <= x < Z.pos (im_width img) -> 0 <= y < Z.pos (im_height img) ->
  getitem img x y = Ok (im_cell img 0 0).
Proof.
  intros Hflat Hx Hy. rewrite getitem_inside by assumption.
  f_equal. apply Hflat. unfold in_image.
  destruct (Z.leb_spec 0 x); [|lia].
  destruct (Z.ltb_spec x (Z.pos (im_width img))); [|lia].
  destruct (Z.leb_spec 0 y); [|lia].
  destruct (Z.ltb_spec y (Z.pos (im_height img))); [|lia].
  reflexivity.
Qed.

Lemma flat_complexity (img : Image) (x y : Z) :
  flat img -> has_interior img ->
  3 <= len (as_triple (im_cell img 0 0)) ->
  compute_local_complexity img x y (Z.pos (im_width img)) (Z.pos (im_height img))
  = Ok 0.
Proof.
  intros Hflat [Hw Hh] H3.
  unfold compute_local_complexity. cbv zeta.
  pose proof (clamp_range x _ Hw) as Hcx.
  pose proof (clamp_range y _ Hh) as Hcy.
  set (cx := clamp x 1 (Z.pos (im_width img) - 2)) in *.
  set (cy := clamp y 1 (Z.pos (im_height img) - 2)) in *.
  cbn [for_each fst snd].
  rewrite !(getitem_flat img) by (assumption || lia).
  cbn [bind].
  destruct (as_triple (im_cell img 0 0)) as [|a [|b [|c rest]]];
    try (unfold len in H3; cbn [length] in H3; lia).
  change (index (a :: b :: c :: rest) 0) with (Ok a).
  change (index (a :: b :: c :: rest) 1) with (Ok b).
  change (index (a :: b :: c :: rest) 2) with (Ok c).
  cbn [bind]. rewrite !Z.sub_diag. reflexivity.
Qed.

Lemma flat_select (img : Image) (used : gset Z)
    (usable_channels total_capacity_bits threshold pos_rand : Z) :
  flat img -> has_interior img ->
  3 <= len (as_triple (im_cell img 0 0)) ->
  0 < threshold ->
  select img used (Z.pos (im_width img)) (Z.pos (im_height img)) usable_channels
    total_capacity_bits threshold pos_rand = Ok None.
Proof.
  intros Hflat Hint H3 HT. unfold select. cbv zeta.
  rewrite flat_complexity by assumption. cbn [bind].
  destruct (Z.ltb_spec 0 threshold); [reflexivity|lia].
Qed.

(** On a flat image and with a positive threshold the embedding loop only
    draws and rejects until the budget is spent. *)
Lemma flat_embed_loop (img : Image) (message_bits : list Z)
    (usable_channels total_capacity_bits threshold max_attempts : Z) :
  flat img -> has_interior img ->
  3 <= len (as_triple (im_cell img 0 0)) ->
  0 < threshold ->
  0 < len message_bits ->
  forall fuel st,
    e_pixels st = img ->
    e_embedded st = 0 ->
    e_accepted st = [] ->
    Z.of_nat fuel = max_attempts - e_attempts st ->
    exists st',
      embed_loop fuel message_bits (Z.pos (im_width img)) (Z.pos (im_height img))
        usable_channels total_capacity_bits threshold max_attempts st
      = Some (st', None)
      /\ e_pixels st' = img
      /\ e_embedded st' = 0
      /\ e_accepted st' = []
      /\ e_attempts st' = max_attempts
      /\ draws (e_prng st') = draws (e_prng st) + Z.of_nat fuel.
Proof.
  intros Hflat Hint H3 HT HN fuel.
  induction fuel as [|fuel IH]; intros st Hpix Hemb Hacc Hfuel; cbn [embed_loop];
    rewrite Hemb;
    destruct (Z.ltb_spec 0 (len message_bits)) as [_|]; try lia;
    destruct (Z.ltb_spec (e_attempts st) max_attempts) as [Ha|Ha]; try lia;
    cbn [andb].
  - exists st. repeat split; try assumption; try reflexivity; lia.
  - unfold embed_body.
    destruct (next_u32 (e_prng st)) as [pos_rand prng] eqn:Hdraw.
    rewrite Hpix, flat_select by assumption.
    edestruct IH as (st' & Hloop & Hp & He & Hac & Hat & Hd);
      [| | | | exists st'; split; [exact Hloop|] ];
      cbn [e_pixels e_embedded e_accepted e_attempts];
      try reflexivity; try assumption; try lia.
    pose proof (next_u32_draws (e_prng st)) as Hn. rewrite Hdraw in Hn.
    cbn [snd] in Hn. cbn [e_prng] in Hd.
    split_and!; try assumption. lia.
Qed.

(** Claim C5 (flat image, as amended).  On a uniformly flat buffer that is
    at least three pixels wide and high and has three channels per pixel,
    the estimator returns 0 at every coordinate; and for a threshold above
    0, a message of at least one and at most [Capacity] bits and a
    non-negative attempt factor, the embedding makes exactly
    [Capacity * attemptFactor] draws and attempts, accepts no position,
    leaves the buffer as it was and fails with [BudgetExhausted]. *)
Theorem flat_image_exhausts_budget (img : Image) (message_bits password : list Z)
    (complexity_threshold max_attempt_factor : Z) :
  flat img -> has_interior img ->
  3 <= len (as_triple (im_cell img 0 0)) ->
  0 < complexity_threshold ->
  0 < len message_bits <= Capacity img ->
  0 <= max_attempt_factor ->
  (forall x y,
      compute_local_complexity img x y (Z.pos (im_width img))
        (Z.pos (im_height img)) = Ok 0)
  /\ exists r,
      embed_message_bits img message_bits password complexity_threshold
        max_attempt_factor = Some r
      /\ er_outcome r = Raise BudgetExhausted
      /\ er_draws r = Capacity img * max_attempt_factor
      /\ er_attempts r = Capacity img * max_attempt_factor
      /\ er_accepted r = []
      /\ er_embedded r = 0
      /\ er_pixels r = img.
Proof.
  intros Hflat Hint H3 HT [HN Hcap] Hf.
  split; [intros x y; apply flat_complexity; assumption|].
  assert (Hpos : 0 <= Capacity img * max_attempt_factor)
    by (apply Z.mul_nonneg_nonneg; lia).
  destruct (embed_message_bits_run img message_bits password
              complexity_threshold max_attempt_factor)
    as [[Hgt _]|(_ & st & signal & Hloop & E)]; [lia|].
  edestruct (flat_embed_loop img message_bits
               (usable_channels_of (num_channels_of (im_cell img 0 0)))
               (Capacity img) complexity_threshold
               (Capacity img * max_attempt_factor) Hflat Hint H3 HT HN
               (Z.to_nat (Capacity img * max_attempt_factor)))
    as (st' & Hloop' & Hp & He & Hac & Hat & Hd);
    [| | | | rewrite Hloop' in Hloop; injection Hloop as <- <- ];
    try reflexivity; [cbn; lia|].
  eexists. split; [exact E|].
  cbn [er_outcome er_draws er_attempts er_accepted er_embedded er_pixels].
  rewrite He, Hd.
  destruct (Z.ltb_spec 0 (len message_bits)); [|lia].
  repeat split; try assumption. cbn. lia.
Qed.

(** The capacity guard comes first, whatever the image looks like: a flat
    image, a positive threshold and a positive number of bits, and yet
    neither [BudgetExhausted] nor [Capacity * attemptFactor] draws. *)
Lemma flat_image_over_capacity :
  let img := flat_image 3 3 [10; 20; 30] in
  flat img
  /\ 0 < 1
  /\ 0 < len (repeat 1 28)
  /\ Capacity img = 27
  /\ exists r,
      embed_message_bits img (repeat 1 28) (codepoints "pw") 1 4 = Some r
      /\ er_outcome r = Raise CapacityExceeded
      /\ er_outcome r <> Raise BudgetExhausted
      /\ er_draws r = 0
      /\ er_draws r <> Capacity img * 4.
Proof.
  cbv zeta. split; [intros x y _; reflexivity|].
  split; [reflexivity|]. split; [reflexivity|]. split; [reflexivity|].
  eexists. split; [vm_compute; reflexivity|].
  cbn [er_outcome er_draws]. repeat split; discriminate.
Qed.

(** * Channels and positions *)

Lemma position_injective (img : Image) (p q x y c : Z) :
  decodes_to img p x y c -> decodes_to img q x y c -> p = q.
Proof.
  unfold decodes_to, position_x, position_y, position_channel.
  set (u := usable_channels_of _). set (w := Z.pos _).
  intros (Hx & Hy & Hc) (Hx' & Hy' & Hc').
  rewrite (Z_div_mod_eq_full p u), (Z_div_mod_eq_full q u).
  rewrite (Z_div_mod_eq_full (p / u) w), (Z_div_mod_eq_full (q / u) w).
  congruence.
Qed.

Lemma chan_defined (pixels : Image) (x y c : Z) :
  0 <= c ->
  (exists v, chan pixels x y c = Ok v) <-> c < len (as_list (im_cell pixels x y)).
Proof.
  intros Hc. unfold chan, len. rewrite index_nonneg by lia.
  destruct (as_list (im_cell pixels x y) !! Z.to_nat c) as [v|] eqn:E.
  - apply lookup_lt_Some in E. split; [lia|eauto].
  - apply lookup_ge_None in E. split; [intros [v [=]]|lia].
Qed.

Lemma index_assign (l : list Z) (i j v cur : Z) :
  0 <= i -> 0 <= j ->
  index l i = Ok cur ->
  index (assign l i v) j = if j =? i then Ok v else index l j.
Proof.
  intros Hi Hj Hcur. rewrite index_nonneg in Hcur by lia.
  unfold assign. rewrite !index_nonneg by lia.
  destruct (l !! Z.to_nat i) as [cur'|] eqn:E; [|discriminate].
  apply lookup_lt_Some in E.
  destruct (Z.eqb_spec j i) as [->|Hne].
  - rewrite list_lookup_insert_eq by lia. reflexivity.
  - rewrite list_lookup_insert_ne by lia. reflexivity.
Qed.

Lemma as_list_stored (p : pixel) (i v : Z) :
  as_list (stored p (assign (as_list p) i v)) = assign (as_list p) i v.
Proof.
  destruct p as [v0|vs]; [|reflexivity].
  unfold assign. cbn [as_list].
  destruct (Z.to_nat i) as [|n]; reflexivity.
Qed.

Lemma stored_shape (p : pixel) (i v : Z) :
  length (as_list (stored p (assign (as_list p) i v))) = length (as_list p)
  /\ length (as_triple (stored p (assign (as_list p) i v))) = length (as_triple p).
Proof.
  destruct p as [v0|vs]; unfold assign; cbn [as_list].
  - destruct (Z.to_nat i) as [|n]; split; reflexivity.
  - cbn [stored as_list as_triple]. rewrite length_insert. split; reflexivity.
Qed.

Lemma same_shape_refl (p : Image) : same_shape p p.
Proof. repeat split. Qed.

Lemma same_shape_sym (p q : Image) : same_shape p q -> same_shape q p.
Proof.
  intros (Hw & Hh & Hc). split; [auto|]. split; [auto|].
  intros x y. destruct (Hc x y). split; auto.
Qed.

Lemma same_shape_trans (p q r : Image) :
  same_shape p q -> same_shape q r -> same_shape p r.
Proof.
  intros (Hw & Hh & Hc) (Hw' & Hh' & Hc').
  split; [congruence|]. split; [congruence|].
  intros x y. destruct (Hc x y), (Hc' x y). split; congruence.
Qed.

Lemma getitem_Ok (pixels : Image) (x y : Z) (pix : pixel) :
  getitem pixels x y = Ok pix ->
  in_image pixels x y = true /\ pix = im_cell pixels x y.
Proof.
  unfold getitem. destruct (in_image pixels x y); [|discriminate].
  intros [= <-]. split; reflexivity.
Qed.

(** What the write of an accepted position does to the buffer. *)
Lemma mutate_channels (pixels pixels' : Image) (prng prng' : SimplePRNG)
    (sel : selection) (target_bit : Z) :
  getitem pixels (s_x sel) (s_y sel) = Ok (im_cell pixels (s_x sel) (s_y sel)) ->
  s_pix_list sel = as_list (im_cell pixels (s_x sel) (s_y sel)) ->
  index (s_pix_list sel) (s_channel_index sel) = Ok (s_current sel) ->
  0 <= s_channel_index sel ->
  mutate pixels prng sel target_bit = Ok (pixels', prng') ->
  same_shape pixels' pixels
  /\ (prng' = prng \/ prng' = snd (next_u32 prng))
  /\ exists new,
      lsb_matched (s_current sel) new target_bit
      /\ forall x y c, 0 <= c ->
           chan pixels' x y c
           = if (x =? s_x sel) && (y =? s_y sel) && (c =? s_channel_index sel)
             then Ok new else chan pixels x y c.
Proof.
  intros Hget Hlist Hcur Hch. unfold mutate. cbv zeta.
  assert (Hsame : forall x y c, 
             chan pixels x y c
             = if (x =? s_x sel) && (y =? s_y sel) && (c =? s_channel_index sel)
               then Ok (s_current sel) else chan pixels x y c).
  { intros x y c.
    destruct (Z.eqb_spec x (s_x sel)) as [->|]; [|reflexivity].
    destruct (Z.eqb_spec y (s_y sel)) as [->|]; [|reflexivity].
    destruct (Z.eqb_spec c (s_channel_index sel)) as [->|]; [|reflexivity].
    cbn [andb]. unfold chan. rewrite <- Hlist. exact Hcur. }
  destruct (Z.eqb_spec (Z.land (s_current sel) 1) target_bit) as [Hm|Hm];
    cbn [negb].
  { intros [= <- <-]. split; [apply same_shape_refl|]. split; [left; reflexivity|].
    exists (s_current sel). split; [|intros; apply Hsame].
    split; [reflexivity|contradiction]. }
  set (choice := if s_current sel =? 0 then _ else _).
  assert (Hnew : ((fst choice = s_current sel + 1 \/ fst choice = s_current sel - 1)
                  /\ (s_current sel = 0 -> fst choice = 1)
                  /\ (s_current sel = 255 -> fst choice = 254))
                 /\ (snd choice = prng \/ snd choice = snd (next_u32 prng))).
  { subst choice.
    destruct (Z.eqb_spec (s_current sel) 0) as [E0|E0]; cbn [fst snd];
      [split; [lia|left; reflexivity]|].
    destruct (Z.eqb_spec (s_current sel) 255) as [E1|E1]; cbn [fst snd];
      [split; [lia|left; reflexivity]|].
    destruct (next_u32 prng) as [r prng2]. cbn [fst snd].
    split; [|right; reflexivity].
    destruct (negb (Z.land r 1 =? 0)); lia. }
  destruct choice as [new_value prng2]. cbn [fst snd] in Hnew.
  destruct Hnew as [Hnew Hprng].
  unfold setitem. apply getitem_Ok in Hget as [Hin _]. rewrite Hin.
  cbn [bind]. intros [= <- <-].
  split.
  { split; [reflexivity|]. split; [reflexivity|].
    intros x y. cbn [im_cell].
    destruct ((x =? s_x sel) && (y =? s_y sel)) eqn:E; [|split; reflexivity].
    apply andb_true_iff in E as [Ex Ey].
    apply Z.eqb_eq in Ex, Ey. subst x y.
    rewrite Hlist. apply stored_shape. }
  split; [exact Hprng|].
  exists new_value. split; [split; [contradiction|intros _; exact Hnew]|].
  intros x y c Hc. unfold chan. cbn [im_cell].
  destruct ((x =? s_x sel) && (y =? s_y sel)) eqn:E; cbn [andb]; [|reflexivity].
  apply andb_true_iff in E as [Ex Ey].
  apply Z.eqb_eq in Ex, Ey. subst x y.
  rewrite Hlist, as_list_stored.
  rewrite Hlist in Hcur.
  apply (index_assign _ _ _ _ _ Hch Hc Hcur).
Qed.

Lemma mod_nonneg (a b : Z) : 0 <= a -> 0 <= b -> 0 <= a mod b.
Proof.
  intros Ha Hb. destruct (Z.eq_dec b 0) as [->|Hne].
  - rewrite Z.mod_0_r. exact Ha.
  - apply Z.mod_pos_bound. lia.
Qed.

Lemma usable_channels_nonneg (p : pixel) :
  0 <= usable_channels_of (num_channels_of p).
Proof.
  destruct p as [v|vs]; [discriminate|].
  unfold usable_channels_of, num_channels_of, len.
  destruct (Z.leb_spec 3 (Z.of_nat (length vs))); lia.
Qed.

Lemma Capacity_nonneg (img : Image) : 0 <= Capacity img.
Proof.
  unfold Capacity. pose proof (usable_channels_nonneg (im_cell img 0 0)).
  apply Z.mul_nonneg_nonneg; lia.
Qed.

Lemma next_u32_nonneg (p : SimplePRNG) : 0 <= fst (next_u32 p).
Proof. cbn. apply Z.land_nonneg. right. discriminate. Qed.

(** A position that [select] lets through, in the geometry of [img]. *)
Lemma select_position (img pixels : Image) (used : gset Z) (threshold pos_rand : Z)
    (sel : selection) :
  select pixels used (Z.pos (im_width img)) (Z.pos (im_height img))
    (usable_channels_of (num_channels_of (im_cell img 0 0))) (Capacity img)
    threshold pos_rand = Ok (Some sel) ->
  0 <= pos_rand ->
  decodes_to img (s_pos sel) (s_x sel) (s_y sel) (s_channel_index sel)
  /\ 0 <= s_channel_index sel
  /\ (s_pos sel ∉ used)
  /\ getitem pixels (s_x sel) (s_y sel) = Ok (im_cell pixels (s_x sel) (s_y sel))
  /\ s_pix_list sel = as_list (im_cell pixels (s_x sel) (s_y sel))
  /\ index (s_pix_list sel) (s_channel_index sel) = Ok (s_current sel).
Proof.
  intros H Hr.
  apply select_accepts in H
    as (Hp & Hc & Hx & Hy & _ & Hused & (pix & Hpix & Hl) & Hcur).
  pose proof (getitem_Ok _ _ _ _ Hpix) as [_ ->].
  unfold decodes_to, position_x, position_y, position_channel.
  repeat split; auto.
  rewrite Hc, Hp.
  apply mod_nonneg; [|apply usable_channels_nonneg].
  apply mod_nonneg; [exact Hr|apply Capacity_nonneg].
Qed.

Lemma embedding_inv_pass (img : Image) (message_bits : list Z) (threshold : Z)
    (st st' : embed_locals) (signal : option exn) :
  embedding_inv img message_bits st ->
  embed_pass message_bits (Z.pos (im_width img)) (Z.pos (im_height img))
    (usable_channels_of (num_channels_of (im_cell img 0 0))) (Capacity img)
    threshold st st' signal ->
  embedding_inv img message_bits st'.
Proof.
  intros (Hshape & Hemb & Hlog & Hchan)
    [Hp _ He Hu _ Ha _ | sel target _ Hsel Hbit Hmut He Hu _ Ha].
  { unfold embedding_inv. rewrite Hp, He, Hu, Ha.
    exact (conj Hshape (conj Hemb (conj Hlog Hchan))). }
  apply select_position in Hsel as (Hdec & Hc0 & Hfresh & Hget & Hlist & Hcur);
    [|apply next_u32_nonneg].
  apply (mutate_channels _ _ _ _ _ _ Hget Hlist Hcur Hc0) in Hmut
    as (Hshape' & _ & new & Hmatch & Hnew).
  unfold embedding_inv. rewrite He, Hu, Ha.
  split; [eapply same_shape_trans; eassumption|].
  split; [unfold len in *; rewrite length_app; cbn [length]; lia|].
  split; [apply fresh_log_accept; assumption|].
  intros x y c old Hc Hold.
  destruct (Hchan x y c old Hc Hold) as (new0 & Hnew0 & Hhist1 & Hhist2 & Hhist3).
  rewrite (Hnew x y c Hc).
  assert (Hnot : forall pos', pos' ∈ map fst (e_accepted st) -> pos' <> s_pos sel).
  { intros pos' Hin ->. apply Hfresh. destruct Hlog as [_ Hsub]. auto. }
  destruct ((x =? s_x sel) && (y =? s_y sel) && (c =? s_channel_index sel)) eqn:E.
  - apply andb_true_iff in E as [E Ec]. apply andb_true_iff in E as [Ex Ey].
    apply Z.eqb_eq in Ex, Ey, Ec. subst x y c.
    assert (Hcurrent : new0 = s_current sel).
    { unfold chan in Hnew0. rewrite <- Hlist, Hcur in Hnew0. congruence. }
    assert (Hintact : new0 = old).
    { apply Hhist2. intros pos' Hin Hdec'. apply (Hnot pos' Hin).
      eapply position_injective; eauto. }
    exists new. split; [reflexivity|]. split; [|split].
    + intros i pos' snapshot Hlook Hdec'.
      apply lookup_app_Some in Hlook as [Hl|[Hge Hl]].
      * exfalso. apply (Hnot pos'); [|eapply position_injective; eauto].
        apply list_elem_of_In, (in_map fst _ (pos', snapshot)), list_elem_of_In.
        eapply list_elem_of_lookup_2, Hl.
      * destruct (i - length (e_accepted st))%nat as [|n] eqn:Ei;
          cbn in Hl; [|discriminate].
        injection Hl as <- <-.
        exists target. split.
        -- replace (Z.of_nat i) with (e_embedded st)
             by (rewrite Hemb; unfold len; lia).
           exact Hbit.
        -- rewrite <- Hintact, Hcurrent. exact Hmatch.
    + intros Hnone. exfalso. apply (Hnone (s_pos sel)); [|exact Hdec].
      rewrite map_app. apply elem_of_app. right. cbn. apply list_elem_of_singleton.
      reflexivity.
    + rewrite <- Hintact, Hcurrent. destruct Hmatch as [Hsame Hmove].
      destruct (Z.eq_dec (Z.land (s_current sel) 1) target) as [Heq|Hne];
        [left; auto|right; auto].
  - exists new0. split; [exact Hnew0|]. split; [|split; [|exact Hhist3]].
    + intros i pos' snapshot Hlook Hdec'.
      apply lookup_app_Some in Hlook as [Hl|[Hge Hl]]; [eapply Hhist1; eauto|].
      destruct (i - length (e_accepted st))%nat as [|n] eqn:Ei;
        cbn in Hl; [|discriminate].
      injection Hl as <- <-. exfalso.
      destruct Hdec as (Hx & Hy & Hz), Hdec' as (Hx' & Hy' & Hz').
      rewrite <- Hx, <- Hy, <- Hz, Hx', Hy', Hz', !Z.eqb_refl in E. discriminate.
    + intros Hnone. apply Hhist2. intros pos' Hin. apply Hnone.
      rewrite map_app. apply elem_of_app. left. exact Hin.
Qed.

Lemma embedding_inv_initial (img : Image) (message_bits : list Z) (prng : SimplePRNG) :
  embedding_inv img message_bits
    {| e_pixels := img; e_prng := prng; e_embedded := 0;
       e_used_positions := ∅; e_attempts := 0; e_accepted := [] |}.
Proof.
  unfold embedding_inv. cbn [e_pixels e_embedded e_used_positions e_accepted].
  split; [apply same_shape_refl|].
  split; [reflexivity|]. split; [exact fresh_log_nil|].
  intros x y c old Hc Hold. exists old. split; [exact Hold|].
  split; [|split; [reflexivity|left; reflexivity]].
  intros i pos snapshot H. discriminate.
Qed.

(** Whatever way a call of [embed_message_bits] ends, its report satisfies
    the invariant of the loop. *)
Lemma embed_report_inv (img : Image) (message_bits password : list Z)
    (complexity_threshold max_attempt_factor : Z) (r : embed_report) :
  embed_message_bits img message_bits password complexity_threshold
    max_attempt_factor = Some r ->
  exists st,
    embedding_inv img message_bits st
    /\ er_pixels r = e_pixels st
    /\ er_accepted r = e_accepted st
    /\ er_embedded r = e_embedded st.
Proof.
  intros Hr.
  destruct (embed_message_bits_run img message_bits password
              complexity_threshold max_attempt_factor)
    as [[_ E]|(_ & st & signal & Hloop & E)];
    rewrite E in Hr; injection Hr as <-.
  - eexists. split; [apply (embedding_inv_initial img message_bits
                              (SimplePRNG_init 0))|].
    repeat split.
  - exists st. split; [|repeat split].
    revert Hloop.
    apply (embed_loop_invariant _ _ _ _ _ _ _ (embedding_inv img message_bits));
      [|apply embedding_inv_initial].
    intros s s' sig HP _ _ Hpass. eapply embedding_inv_pass; eauto.
Qed.

Lemma in_image_same_size (p q : Image) (x y : Z) :
  im_width p = im_width q -> im_height p = im_height q ->
  in_image p x y = in_image q x y.
Proof. intros Hw Hh. unfold in_image. rewrite Hw, Hh. reflexivity. Qed.

(** Claim C9 (value range).  If every channel of the buffer given to
    [embed_message_bits] is in [0 .. 255] and the call returns, then every
    channel of the buffer it leaves is in [0 .. 255]; a channel that an
    accepted position addresses is unchanged when its lowest bit was the
    message bit, and otherwise moved by exactly one (0 to 1, 255 to 254,
    any other value up or down); every other channel is unchanged. *)
Theorem embedding_value_range (img : Image) (message_bits password : list Z)
    (complexity_threshold max_attempt_factor : Z) (r : embed_report) :
  byte_valued img ->
  embed_message_bits img message_bits password complexity_threshold
    max_attempt_factor = Some r ->
  er_outcome r = Ok tt ->
  byte_valued (er_pixels r)
  /\ forall x y c old,
       0 <= c -> chan img x y c = Ok old ->
       exists new,
         chan (er_pixels r) x y c = Ok new
         /\ channel_history img message_bits (er_accepted r) x y c old new.
Proof.
  intros Hbytes Hr _.
  apply embed_report_inv in Hr
    as (st & ((Hw & Hh & Hlen) & _ & _ & Hchan) & -> & -> & _).
  split; [|exact Hchan].
  intros x y Hin.
  rewrite (in_image_same_size _ img) in Hin by assumption.
  specialize (Hbytes x y Hin).
  apply Forall_lookup. intros k new Hk.
  assert (Hlt : (k < length (as_list (im_cell img x y)))%nat)
    by (rewrite <- (proj1 (Hlen x y)); eapply lookup_lt_Some, Hk).
  destruct (lookup_lt_is_Some_2 _ _ Hlt) as [old Hold].
  pose proof (proj1 (Forall_lookup _ _) Hbytes k old Hold) as Hrange.
  destruct (Hchan x y (Z.of_nat k) old) as (new' & Hnew' & _ & _ & Hstep);
    [lia| |].
  { unfold chan. rewrite index_nonneg, Nat2Z.id, Hold by lia. reflexivity. }
  unfold chan in Hnew'. rewrite index_nonneg, Nat2Z.id, Hk in Hnew' by lia.
  injection Hnew' as <-. cbv beta in Hrange. lia.
Qed.

(** * Embedding followed by extraction *)

Lemma index_same_length {A : Type} (l l' : list A) (i : Z) (v : A) :
  length l = length l' -> index l i = Ok v -> exists v', index l' i = Ok v'.
Proof.
  intros Hlen. unfold index, len. cbv zeta. rewrite <- Hlen.
  set (j := if i <? 0 then i + Z.of_nat (length l) else i).
  destruct (j <? 0); [discriminate|].
  destruct (l !! Z.to_nat j) as [a|] eqn:E; [|discriminate].
  intros _. apply lookup_lt_Some in E. rewrite Hlen in E.
  destruct (lookup_lt_is_Some_2 _ _ E) as [v' ->]. eauto.
Qed.

Lemma for_each_defined {A : Type} (l : list A) (f g : Z -> A -> result Z) :
  (forall a b v a', 0 <= b -> f a v = Ok a' -> exists b', g b v = Ok b' /\ 0 <= b') ->
  forall a b a',
    0 <= b -> for_each l f a = Ok a' ->
    exists b', for_each l g b = Ok b' /\ 0 <= b'.
Proof.
  intros Hfg. induction l as [|v l IH]; intros a b a' Hb; cbn [for_each].
  - intros _. eauto.
  - intros H. apply bind_Ok in H as (a1 & Hf & Hrest).
    destruct (Hfg a b v a1 Hb Hf) as (b1 & Hg & Hb1).
    rewrite Hg. cbn [bind]. eapply IH; eauto.
Qed.

Lemma getitem_same_shape (p q : Image) (x y : Z) (pix : pixel) :
  same_shape p q -> getitem p x y = Ok pix ->
  getitem q x y = Ok (im_cell q x y).
Proof.
  intros (Hw & Hh & _) H. apply getitem_Ok in H as [Hin _].
  unfold getitem. rewrite <- (in_image_same_size p q) by assumption.
  rewrite Hin. reflexivity.
Qed.

(** The estimator returns a non-negative number, and whether it returns at
    all depends on the shape of the buffer only. *)
Lemma complexity_defined (p q : Image) (x y width height c : Z) :
  same_shape p q ->
  compute_local_complexity p x y width height = Ok c ->
  exists c', compute_local_complexity q x y width height = Ok c' /\ 0 <= c'.
Proof.
  intros Hshape. unfold compute_local_complexity. cbv zeta. intros H.
  apply bind_Ok in H as (center & Hcenter & H).
  rewrite (getitem_same_shape p q _ _ _ Hshape Hcenter). cbn [bind].
  apply getitem_Ok in Hcenter as [_ ->].
  revert H. apply for_each_defined; [|lia].
  intros a b d a' Hb H.
  apply bind_Ok in H as (nb & Hnb & H).
  rewrite (getitem_same_shape p q _ _ _ Hshape Hnb). cbn [bind].
  apply getitem_Ok in Hnb as [_ ->].
  revert H. apply for_each_defined; [|exact Hb].
  clear a b a' Hb. intros a b ch a' Hb H.
  apply bind_Ok in H as (nb_c & Hn & H).
  apply bind_Ok in H as (center_c & Hc & _).
  destruct Hshape as (_ & _ & Hcells).
  eapply index_same_length in Hn as [v1 ->]; [|apply Hcells].
  eapply index_same_length in Hc as [v2 ->]; [|apply Hcells].
  cbn [bind]. eexists. split; [reflexivity|lia].
Qed.

(** With a threshold that rejects nothing, what [select] does on a buffer
    carries over to any buffer of the same shape. *)
Lemma select_same_shape (p q : Image) (used : gset Z)
    (width height usable_channels total_capacity_bits threshold pos_rand : Z) :
  same_shape p q -> threshold <= 0 ->
  match select p used width height usable_channels total_capacity_bits
          threshold pos_rand with
  | Raise _ => True
  | Ok None =>
      select q used width height usable_channels total_capacity_bits threshold
        pos_rand = Ok None
  | Ok (Some sel) =>
      exists current,
        chan q (s_x sel) (s_y sel) (s_channel_index sel) = Ok current
        /\ select q used width height usable_channels total_capacity_bits
             threshold pos_rand
           = Ok (Some {| s_pos := s_pos sel; s_x := s_x sel; s_y := s_y sel;
                         s_channel_index := s_channel_index sel;
                         s_pix_list := as_list (im_cell q (s_x sel) (s_y sel));
                         s_current := current |})
  end.
Proof.
  intros Hshape HT. unfold select. cbv zeta.
  set (pos := pos_rand mod total_capacity_bits).
  set (cx := (pos / usable_channels) mod width).
  set (cy := (pos / usable_channels) / width).
  destruct (compute_local_complexity p cx cy width height) as [c|e] eqn:Hc;
    cbn [bind]; [|exact I].
  destruct (complexity_defined p p _ _ _ _ _ (same_shape_refl p) Hc)
    as (c0 & Hc0 & Hc0').
  rewrite Hc in Hc0. injection Hc0 as <-.
  destruct (complexity_defined p q _ _ _ _ _ Hshape Hc) as (c' & -> & Hc').
  cbn [bind].
  destruct (Z.ltb_spec c threshold); [lia|].
  destruct (Z.ltb_spec c' threshold); [lia|].
  destruct (bool_decide (pos ∈ used)); [reflexivity|].
  destruct (getitem p cx cy) as [pix|e] eqn:Hpix; cbn [bind]; [|exact I].
  rewrite (getitem_same_shape p q _ _ _ Hshape Hpix). cbn [bind].
  apply getitem_Ok in Hpix as [_ ->].
  destruct (index (as_list (im_cell p cx cy)) (pos mod usable_channels))
    as [current|e] eqn:Hcur; [|exact I].
  cbn [s_x s_y s_channel_index s_pos].
  destruct Hshape as (_ & _ & Hcells).
  eapply index_same_length in Hcur as [current' Hcur']; [|apply Hcells].
  exists current'. unfold chan. cbn [s_x s_y s_channel_index s_pos].
  rewrite Hcur'. split; reflexivity.
Qed.

Lemma mutate_prng (pixels pixels' : Image) (prng prng' : SimplePRNG)
    (sel : selection) (target_bit : Z) :
  mutate pixels prng sel target_bit = Ok (pixels', prng') ->
  prng' = prng \/ prng' = snd (next_u32 prng).
Proof.
  unfold mutate. cbv zeta.
  destruct (negb _); [|intros [= _ <-]; left; reflexivity].
  destruct (s_current sel =? 0).
  { intros H. apply bind_Ok in H as (p & _ & [= _ <-]). left. reflexivity. }
  destruct (s_current sel =? 255).
  { intros H. apply bind_Ok in H as (p & _ & [= _ <-]). left. reflexivity. }
  destruct (next_u32 prng) as [r prng2]. cbn [snd].
  intros H. apply bind_Ok in H as (p & _ & [= _ <-]). right. reflexivity.
Qed.

Lemma embed_pass_draws (message_bits : list Z)
    (width height usable_channels total_capacity_bits threshold : Z)
    (st st' : embed_locals) (signal : option exn) :
  embed_pass message_bits width height usable_channels total_capacity_bits
    threshold st st' signal ->
  e_attempts st' = e_attempts st + 1
  /\ draws (e_prng st) + 1 <= draws (e_prng st').
Proof.
  intros [_ Hprng _ _ Hatt _ _ | sel target _ _ _ Hmut _ _ Hatt _].
  - rewrite Hprng, next_u32_draws. lia.
  - apply mutate_prng in Hmut as [->| ->]; rewrite ?next_u32_draws; lia.
Qed.

(** Every attempt costs at least one draw. *)
Lemma embed_loop_draws (message_bits : list Z)
    (width height usable_channels total_capacity_bits threshold max_attempts : Z)
    (fuel : nat) (st st' : embed_locals) (signal : option exn) :
  embed_loop fuel message_bits width height usable_channels total_capacity_bits
    threshold max_attempts st = Some (st', signal) ->
  e_attempts st' - e_attempts st <= draws (e_prng st') - draws (e_prng st).
Proof.
  apply (embed_loop_invariant _ _ _ _ _ _ _
           (fun s => e_attempts s - e_attempts st
                     <= draws (e_prng s) - draws (e_prng st))); [|lia].
  intros s s' sig HP _ _ Hpass. apply embed_pass_draws in Hpass. lia.
Qed.

Lemma frozen_pass (img : Image) (message_bits : list Z) (threshold : Z)
    (st0 st st' : embed_locals) (signal : option exn) :
  frozen img st0 st ->
  embed_pass message_bits (Z.pos (im_width img)) (Z.pos (im_height img))
    (usable_channels_of (num_channels_of (im_cell img 0 0))) (Capacity img)
    threshold st st' signal ->
  frozen img st0 st'.
Proof.
  intros [Hsub Hkeep]
    [Hp _ _ Hu _ _ _ | sel target _ Hsel _ Hmut _ Hu _ _]; unfold frozen.
  { rewrite Hp, Hu. split; assumption. }
  apply select_position in Hsel as (Hdec & Hc0 & Hfresh & Hget & Hlist & Hcur);
    [|apply next_u32_nonneg].
  apply (mutate_channels _ _ _ _ _ _ Hget Hlist Hcur Hc0) in Hmut
    as (_ & _ & new & _ & Hnew).
  rewrite Hu. split; [intros p0 Hp0; apply elem_of_union_r, Hsub, Hp0|].
  intros pos x y c Hin Hdec' Hc. rewrite (Hnew x y c Hc).
  destruct ((x =? s_x sel) && (y =? s_y sel) && (c =? s_channel_index sel)) eqn:E;
    [|eauto].
  exfalso. apply andb_true_iff in E as [E Ec]. apply andb_true_iff in E as [Ex Ey].
  apply Z.eqb_eq in Ex, Ey, Ec. subst x y c.
  apply Hfresh. rewrite <- (position_injective img _ _ _ _ _ Hdec' Hdec).
  apply Hsub, Hin.
Qed.

Lemma frozen_loop (img : Image) (message_bits : list Z)
    (threshold max_attempts : Z) (fuel : nat) (st st' : embed_locals)
    (signal : option exn) :
  embed_loop fuel message_bits (Z.pos (im_width img)) (Z.pos (im_height img))
    (usable_channels_of (num_channels_of (im_cell img 0 0))) (Capacity img)
    threshold max_attempts st = Some (st', signal) ->
  frozen img st st'.
Proof.
  apply (embed_loop_invariant _ _ _ _ _ _ _ (frozen img st)).
  - intros s s' sig HP _ _ Hpass. eapply frozen_pass; eauto.
  - split; [reflexivity|]. reflexivity.
Qed.

Lemma embedding_inv_loop (img : Image) (message_bits : list Z)
    (threshold max_attempts : Z) (fuel : nat) (st st' : embed_locals)
    (signal : option exn) :
  embedding_inv img message_bits st ->
  embed_loop fuel message_bits (Z.pos (im_width img)) (Z.pos (im_height img))
    (usable_channels_of (num_channels_of (im_cell img 0 0))) (Capacity img)
    threshold max_attempts st = Some (st', signal) ->
  embedding_inv img message_bits st'.
Proof.
  intros Hinv.
  apply (embed_loop_invariant _ _ _ _ _ _ _ (embedding_inv img message_bits));
    [|exact Hinv].
  intros s s' sig HP _ _ Hpass. eapply embedding_inv_pass; eauto.
Qed.

Lemma land_1_mod (a : Z) : Z.land a 1 = a mod 2.
Proof. exact (Z.land_ones a 1 ltac:(lia)). Qed.

Lemma lsb_matched_bit (old new target : Z) :
  is_bit target -> lsb_matched old new target -> Z.land new 1 = target.
Proof.
  intros Hbit [Hsame Hmove].
  destruct (Z.eq_dec (Z.land old 1) target) as [E|E].
  - rewrite (Hsame E). exact E.
  - destruct (Hmove E) as (Hstep & _).
    rewrite land_1_mod in *.
    destruct Hbit as [-> | ->], Hstep as [-> | ->];
      revert E; Z.div_mod_to_equations; lia.
Qed.

Lemma index_take (l : list Z) (n : Z) (v : Z) :
  0 <= n -> index l n = Ok v ->
  take (Z.to_nat (n + 1)) l = take (Z.to_nat n) l ++ [v] /\ v ∈ l.
Proof.
  intros Hn H. rewrite index_nonneg in H by lia.
  destruct (l !! Z.to_nat n) as [v'|] eqn:E; [|discriminate].
  injection H as ->.
  replace (Z.to_nat (n + 1)) with (S (Z.to_nat n)) by lia.
  split; [apply take_S_r, E|]. eapply list_elem_of_lookup_2, E.
Qed.

Lemma take_len_lt (l : list Z) (n : Z) :
  0 <= n -> (len (take (Z.to_nat n) l) <? len l) = (n <? len l).
Proof.
  intros Hn. unfold len. rewrite length_take.
  destruct (Z.ltb_spec n (Z.of_nat (length l)));
    destruct (Z.ltb_spec (Z.of_nat (Z.to_nat n `min` length l)) (Z.of_nat (length l)));
    lia.
Qed.

(** The extraction loop, run on the buffer the embedding loop ends with,
    accepts the same positions and reads the message bits back, as long
    as the embedding loop made no direction draw. *)
Lemma roundtrip_loop (img : Image) (message_bits : list Z)
    (threshold max_attempts : Z) :
  threshold <= 0 ->
  Forall is_bit message_bits ->
  forall fuel st stf xst,
    embedding_inv img message_bits st ->
    embed_loop fuel message_bits (Z.pos (im_width img)) (Z.pos (im_height img))
      (usable_channels_of (num_channels_of (im_cell img 0 0))) (Capacity img)
      threshold max_attempts st = Some (stf, None) ->
    draws (e_prng stf) - draws (e_prng st) = e_attempts stf - e_attempts st ->
    x_pixels xst = e_pixels stf ->
    x_prng xst = e_prng st ->
    x_used_positions xst = e_used_positions st ->
    x_attempts xst = e_attempts st ->
    x_extracted xst = take (Z.to_nat (e_embedded st)) message_bits ->
    exists xstf,
      extract_loop fuel (len message_bits) (Z.pos (im_width img))
        (Z.pos (im_height img))
        (usable_channels_of (num_channels_of (im_cell img 0 0))) (Capacity img)
        threshold max_attempts xst = Some (xstf, None)
      /\ x_extracted xstf = take (Z.to_nat (e_embedded stf)) message_bits.
Proof.
  intros HT Hbits fuel.
  induction fuel as [|fuel IH];
    intros st stf xst Hinv Hloop Hdraws Hxp Hxr Hxu Hxa Hxe;
    cbn [embed_loop extract_loop] in Hloop |- *;
    assert (Hemb0 : 0 <= e_embedded st)
      by (destruct Hinv as (_ & -> & _); unfold len; lia);
    rewrite Hxe, (take_len_lt _ _ Hemb0), Hxa;
    destruct ((e_embedded st <? len message_bits) && (e_attempts st <? max_attempts))
      eqn:Hcond;
    try discriminate;
    try (injection Hloop as <-; exists xst; split; [reflexivity|exact Hxe]).
  destruct (embed_body _ _ _ _ _ _ st) as [st' [e|]] eqn:Hbody; [discriminate|].
  pose proof (embed_body_pass _ _ _ _ _ _ _ _ _ Hbody) as Hpass.
  pose proof (embedding_inv_pass _ _ _ _ _ _ Hinv Hpass) as Hinv'.
  pose proof (embedding_inv_loop _ _ _ _ _ _ _ _ Hinv' Hloop) as Hinvf.
  pose proof (embed_loop_draws _ _ _ _ _ _ _ _ _ _ _ Hloop) as Hmono.
  pose proof (embed_pass_draws _ _ _ _ _ _ _ _ _ Hpass) as [Hatt Hd1].
  assert (Hshape : same_shape (e_pixels st) (e_pixels stf)).
  { eapply same_shape_trans; [apply Hinv|]. apply same_shape_sym, Hinvf. }
  pose proof (select_same_shape (e_pixels st) (e_pixels stf) (e_used_positions st)
                (Z.pos (im_width img)) (Z.pos (im_height img))
                (usable_channels_of (num_channels_of (im_cell img 0 0)))
                (Capacity img) threshold (fst (next_u32 (e_prng st))) Hshape HT)
    as Hsel'.
  unfold extract_body. rewrite Hxr, Hxp, Hxu, Hxa.
  pose proof (next_u32_draws (e_prng st)) as Hd0.
  pose proof (next_u32_nonneg (e_prng st)) as Hr0.
  destruct Hpass as [Hp Hprng He Hu Ha Hacc Hnone
                    | sel target _ Hsel Hbit Hmut He Hu Ha Hacc];
    destruct (next_u32 (e_prng st)) as [r prng1]; cbn [fst snd] in *.
  - rewrite (Hnone eq_refl) in Hsel'. rewrite Hsel'.
    apply (IH st'); try assumption; cbn; try congruence;
      try (rewrite Hprng; lia).
  - rewrite Hsel in Hsel'. destruct Hsel' as (current' & Hchan' & ->).
    cbn [s_current s_pos].
    assert (Hprng : e_prng st' = prng1).
    { apply mutate_prng in Hmut as [E|E]; [exact E|].
      exfalso. rewrite E, next_u32_draws in Hmono. lia. }
    pose proof Hsel as Hpos.
    apply select_position in Hpos as (Hdec & Hc0 & Hfresh & Hget & Hlist & Hcur);
      [|exact Hr0].
    apply (mutate_channels _ _ _ _ _ _ Hget Hlist Hcur Hc0) in Hmut
      as (_ & _ & new & Hmatch & Hnew).
    destruct (index_take _ _ _ Hemb0 Hbit) as [Htake Hin].
    assert (Hread : current' = new).
    { destruct (frozen_loop _ _ _ _ _ _ _ _ Hloop) as [_ Hkeep].
      rewrite (Hkeep (s_pos sel) _ _ _) in Hchan'; [| |exact Hdec|exact Hc0].
      - rewrite (Hnew _ _ _ Hc0), !Z.eqb_refl in Hchan'. cbn in Hchan'. congruence.
      - rewrite Hu. apply elem_of_union_l, elem_of_singleton. reflexivity. }
    assert (Hlsb : Z.land current' 1 = target).
    { rewrite Hread. apply (lsb_matched_bit (s_current sel)); [|exact Hmatch].
      apply (proj1 (Forall_forall _ _) Hbits). exact Hin. }
    rewrite Hlsb.
    apply (IH st'); try assumption; cbn; try congruence;
      try (rewrite Hprng; lia); try (rewrite He, Htake; reflexivity).
Qed.

Lemma same_shape_channels (p q : Image) :
  same_shape p q ->
  num_channels_of (im_cell p 0 0) = num_channels_of (im_cell q 0 0).
Proof.
  intros (_ & _ & Hcells). destruct (Hcells 0 0) as [Hl Ht].
  unfold num_channels_of, len.
  destruct (im_cell p 0 0) as [v|vs], (im_cell q 0 0) as [v'|vs'];
    cbn [as_list as_triple length] in Hl, Ht; lia.
Qed.

Lemma same_shape_Capacity (p q : Image) :
  same_shape p q -> Capacity p = Capacity q.
Proof.
  intros Hshape. unfold Capacity.
  rewrite (same_shape_channels p q Hshape).
  destruct Hshape as (-> & -> & _). reflexivity.
Qed.

(** Property X15.  Embedding followed by extraction, for any message of
    bits: if the embedding returns and made no direction draw, the
    extraction from the buffer it leaves, with the same password, threshold
    and attempt factor, returns the message. *)
Theorem embed_extract_roundtrip (img : Image) (message_bits password : list Z)
    (complexity_threshold max_attempt_factor : Z) (r : embed_report) :
  Forall is_bit message_bits ->
  complexity_threshold <= 0 ->
  embed_message_bits img message_bits password complexity_threshold
    max_attempt_factor = Some r ->
  er_outcome r = Ok tt ->
  er_draws r = er_attempts r ->
  exists xr,
    extract_message_bits (er_pixels r) (len message_bits) password
      complexity_threshold max_attempt_factor = Some xr
    /\ xr_outcome xr = Ok message_bits.
Proof.
  intros Hbits HT Hr Hout Hdraws.
  destruct (embed_message_bits_run img message_bits password
              complexity_threshold max_attempt_factor)
    as [[_ E]|(Hcap & st & signal & Hloop & E)];
    rewrite E in Hr; injection Hr as <-; cbn in Hout; [discriminate|].
  cbn [er_pixels er_draws er_attempts] in *.
  destruct signal as [e|]; [discriminate|].
  destruct (Z.ltb_spec (e_embedded st) (len message_bits)) as [|Hfull];
    [discriminate|].
  pose proof (embedding_inv_loop _ _ _ _ _ _ _ _
                (embedding_inv_initial img message_bits _) Hloop) as Hinv.
  pose proof (proj1 Hinv) as Hshape.
  destruct (extract_message_bits_run (e_pixels st) (len message_bits) password
              complexity_threshold max_attempt_factor)
    as [[Hover _]|(_ & xst & xsignal & Hxloop & Ex)].
  { rewrite (same_shape_Capacity _ _ Hshape) in Hover. lia. }
  rewrite Ex. eexists. split; [reflexivity|]. cbn [xr_outcome].
  rewrite (same_shape_Capacity _ _ Hshape), (same_shape_channels _ _ Hshape)
    in Hxloop.
  destruct Hshape as (Hw & Hh & _). rewrite Hw, Hh in Hxloop.
  destruct (roundtrip_loop img message_bits complexity_threshold
              (Capacity img * max_attempt_factor) HT Hbits _ _ _
              {| x_pixels := e_pixels st;
                 x_prng := SimplePRNG_init (derive_seed_from_password password);
                 x_extracted := []; x_used_positions := ∅; x_attempts := 0;
                 x_accepted := [] |}
              (embedding_inv_initial img message_bits _) Hloop)
    as (xstf & Hx & Hbits'); try reflexivity; [cbn; lia|].
  rewrite Hx in Hxloop. injection Hxloop as <- <-.
  rewrite Hbits', take_ge by (unfold len in Hfull; lia).
  rewrite Z.ltb_irrefl. reflexivity.
Qed.

(** * Images without an interior *)

Lemma getitem_raises (pixels : Image) (x y : Z) (e : exn) :
  getitem pixels x y = Raise e -> e = IndexError.
Proof. unfold getitem. destruct (in_image pixels x y); congruence. Qed.

Lemma index_raises {A : Type} (s : list A) (i : Z) (e : exn) :
  index s i = Raise e -> e = IndexError.
Proof.
  unfold index. cbv zeta.
  destruct (_ <? 0); [congruence|]. destruct (s !! _); congruence.
Qed.

Lemma bind_Raise {A B : Type} (m : result A) (k : A -> result B) (e : exn) :
  bind m k = Raise e -> m = Raise e \/ exists a, m = Ok a /\ k a = Raise e.
Proof. destruct m as [a|e']; cbn [bind]; [eauto|intros [= ->]; auto]. Qed.

Lemma for_each_raises {A S : Type} (l : list A) (f : S -> A -> result S) (e : exn) :
  (forall a v, f a v = Raise e -> e = IndexError) ->
  forall a, for_each l f a = Raise e -> e = IndexError.
Proof.
  intros Hf. induction l as [|v l IH]; intros a; cbn [for_each]; [discriminate|].
  intros H. apply bind_Raise in H as [H|(a' & _ & H)]; eauto.
Qed.

Lemma complexity_raises (pixels : Image) (x y width height : Z) (e : exn) :
  compute_local_complexity pixels x y width height = Raise e -> e = IndexError.
Proof.
  unfold compute_local_complexity. cbv zeta. intros H.
  apply bind_Raise in H as [H|(center & _ & H)]; [eapply getitem_raises, H|].
  revert H. apply for_each_raises. intros a d H.
  apply bind_Raise in H as [H|(nb & _ & H)]; [eapply getitem_raises, H|].
  revert H. apply for_each_raises. intros a' c H.
  apply bind_Raise in H as [H|(v & _ & H)]; [eapply index_raises, H|].
  apply bind_Raise in H as [H|(v' & _ & H)]; [eapply index_raises, H|].
  discriminate.
Qed.

Lemma in_image_bounds (pixels : Image) (x y : Z) :
  in_image pixels x y = true ->
  0 <= x < Z.pos (im_width pixels) /\ 0 <= y < Z.pos (im_height pixels).
Proof.
  unfold in_image. intros H.
  apply andb_true_iff in H as [H Hy2]. apply andb_true_iff in H as [H Hy1].
  apply andb_true_iff in H as [Hx1 Hx2].
  apply Z.leb_le in Hx1, Hy1. apply Z.ltb_lt in Hx2, Hy2. lia.
Qed.

(** The estimator reads the pixels to the right of and below the clamped
    centre: it returns only on an image that has an interior. *)
Lemma complexity_needs_interior (img : Image) (x y c : Z) :
  compute_local_complexity img x y (Z.pos (im_width img)) (Z.pos (im_height img))
  = Ok c ->
  has_interior img.
Proof.
  unfold compute_local_complexity. cbv zeta. intros H.
  apply bind_Ok in H as (center & _ & H).
  cbn [for_each fst snd] in H.
  apply bind_Ok in H as (a1 & _ & H).
  apply bind_Ok in H as (a2 & Hright & H).
  apply bind_Ok in H as (a3 & _ & H).
  apply bind_Ok in H as (a4 & Hdown & _).
  apply bind_Ok in Hright as (nb & Hright & _).
  apply bind_Ok in Hdown as (nb' & Hdown & _).
  apply getitem_Ok in Hright as [Hr _]. apply getitem_Ok in Hdown as [Hd _].
  apply in_image_bounds in Hr, Hd. unfold clamp in *. split; lia.
Qed.

Lemma select_needs_interior (img : Image) (used : gset Z)
    (usable_channels total_capacity_bits threshold pos_rand : Z) :
  ~ has_interior img ->
  select img used (Z.pos (im_width img)) (Z.pos (im_height img)) usable_channels
    total_capacity_bits threshold pos_rand = Raise IndexError.
Proof.
  intros Hno. unfold select. cbv zeta.
  destruct (compute_local_complexity img _ _ _ _) as [c|e] eqn:E; cbn [bind].
  - exfalso. eapply Hno, complexity_needs_interior, E.
  - apply complexity_raises in E as ->. reflexivity.
Qed.

(** On an image narrower or lower than three pixels the first scheduling
    attempt of the embedding leaves the call with [IndexError]. *)
Lemma embed_needs_interior (img : Image) (message_bits password : list Z)
    (complexity_threshold max_attempt_factor : Z) :
  ~ has_interior img ->
  0 < len message_bits <= Capacity img ->
  0 < max_attempt_factor ->
  exists r,
    embed_message_bits img message_bits password complexity_threshold
      max_attempt_factor = Some r
    /\ er_outcome r = Raise IndexError
    /\ er_draws r = 1
    /\ er_attempts r = 1
    /\ er_pixels r = img.
Proof.
  intros Hno [HN Hcap] Hf.
  destruct (embed_message_bits_run img message_bits password
              complexity_threshold max_attempt_factor)
    as [[Hgt _]|(_ & st & signal & Hloop & E)]; [lia|].
  rewrite E. eexists. split; [reflexivity|].
  assert (Hmax : 0 < Capacity img * max_attempt_factor) by nia.
  destruct (Z.to_nat (Capacity img * max_attempt_factor)) as [|fuel] eqn:Hfuel;
    [lia|].
  cbn [embed_loop e_embedded e_attempts] in Hloop.
  destruct (Z.ltb_spec 0 (len message_bits)); [|lia].
  destruct (Z.ltb_spec 0 (Capacity img * max_attempt_factor)); [|lia].
  cbn [andb] in Hloop. unfold embed_body in Hloop.
  cbn [e_prng e_pixels e_used_positions] in Hloop.
  destruct (next_u32 _) as [pos_rand prng] eqn:Hdraw.
  rewrite select_needs_interior in Hloop by exact Hno.
  injection Hloop as <- <-.
  cbn [er_outcome er_draws er_attempts er_pixels e_prng e_attempts e_pixels].
  pose proof (next_u32_draws (SimplePRNG_init (derive_seed_from_password password)))
    as Hd.
  rewrite Hdraw in Hd. cbn [snd] in Hd. rewrite Hd. repeat split.
Qed.

(** Claim C1 (round trip of "hi"), evaluated on an RGB image of 2 by 3
    pixels.  Its capacity is 18 and the message has 16 bits, yet with
    threshold 0 and whatever the password the embedding does not succeed:
    the first scheduling attempt ends in [IndexError], before any
    direction draw. *)
Theorem hi_embedding_raises_on_narrow_image (password : list Z) :
  let img := flat_image 2 3 [10; 20; 30] in
  16 <= Capacity img
  /\ len hi_bits = 16
  /\ exists r,
      embed_message_bits img hi_bits password 0 4 = Some r
      /\ er_outcome r = Raise IndexError
      /\ er_draws r = er_attempts r.
Proof.
  cbv zeta. split; [vm_compute; discriminate|]. split; [reflexivity|].
  destruct (embed_needs_interior (flat_image 2 3 [10; 20; 30]) hi_bits password 0 4)
    as (r & E & Hout & Hd & Ha & _).
  - intros [Hw _]. vm_compute in Hw. apply Hw. reflexivity.
  - vm_compute. split; [reflexivity|discriminate].
  - reflexivity.
  - exists r. rewrite Hd, Ha. repeat split; assumption.
Qed.

(** * Instances *)

Lemma capacity_guard_witness :
  len (repeat 1 28) > Capacity (flat_image 3 3 [10; 20; 30])
  /\ exists r,
      embed_message_bits (flat_image 3 3 [10; 20; 30]) (repeat 1 28)
        (codepoints "pw") 0 4 = Some r
      /\ er_outcome r = Raise CapacityExceeded
      /\ er_draws r = 0
      /\ er_attempts r = 0
      /\ er_accepted r = []
      /\ er_pixels r = flat_image 3 3 [10; 20; 30]
      /\ (forall x y, im_cell (er_pixels r) x y
                      = im_cell (flat_image 3 3 [10; 20; 30]) x y).
Proof.
  assert (H : len (repeat 1 28) > Capacity (flat_image 3 3 [10; 20; 30]))
    by (vm_compute; reflexivity).
  split; [exact H|].
  exact (capacity_guard (flat_image 3 3 [10; 20; 30]) (repeat 1 28)
           (codepoints "pw") 0 4 H).
Defined.

Lemma extraction_deterministic_witness :
  same_image (flat_image 3 3 [10; 20; 30])
    (outside_changed (flat_image 3 3 [10; 20; 30]) (Scalar 7))
  /\ option_map visible
       (extract_message_bits (flat_image 3 3 [10; 20; 30]) 16 (codepoints "pw") 0 4)
     = option_map visible
         (extract_message_bits
            (outside_changed (flat_image 3 3 [10; 20; 30]) (Scalar 7)) 16
            (codepoints "pw") 0 4).
Proof.
  assert (H : same_image (flat_image 3 3 [10; 20; 30])
                (outside_changed (flat_image 3 3 [10; 20; 30]) (Scalar 7))).
  { split; [reflexivity|]. split; [reflexivity|].
    intros x y Hin. cbn [outside_changed im_cell]. rewrite Hin. reflexivity. }
  split; [exact H|].
  exact (extraction_deterministic _ _ 16 (codepoints "pw") 0 4 H).
Defined.

Lemma embedding_value_range_witness :
  byte_valued (flat_image 4 4 [10; 20; 30])
  /\ exists r,
      embed_message_bits (flat_image 4 4 [10; 20; 30]) hi_bits (codepoints "pw")
        0 4 = Some r
      /\ er_outcome r = Ok tt
      /\ byte_valued (er_pixels r)
      /\ forall x y c old,
           0 <= c -> chan (flat_image 4 4 [10; 20; 30]) x y c = Ok old ->
           exists new,
             chan (er_pixels r) x y c = Ok new
             /\ channel_history (flat_image 4 4 [10; 20; 30]) hi_bits
                  (er_accepted r) x y c old new.
Proof.
  assert (Hbytes : byte_valued (flat_image 4 4 [10; 20; 30])).
  { intros x y _. cbn. repeat constructor; lia. }
  assert (Hrun : exists r,
             embed_message_bits (flat_image 4 4 [10; 20; 30]) hi_bits
               (codepoints "pw") 0 4 = Some r
             /\ er_outcome r = Ok tt).
  { eexists. split; [vm_compute; reflexivity|reflexivity]. }
  split; [exact Hbytes|].
  destruct Hrun as (r & E & Hout).
  exists r. split; [exact E|]. split; [exact Hout|].
  exact (embedding_value_range _ _ _ _ _ r Hbytes E Hout).
Defined.

Lemma flat_image_exhausts_budget_witness :
  let img := flat_image 3 3 [10; 20; 30] in
  flat img /\ has_interior img
  /\ 3 <= len (as_triple (im_cell img 0 0))
  /\ 0 < 1
  /\ 0 < len hi_bits <= Capacity img
  /\ 0 <= 4
  /\ (forall x y, compute_local_complexity img x y 3 3 = Ok 0)
  /\ exists r,
      embed_message_bits img hi_bits (codepoints "pw") 1 4 = Some r
      /\ er_outcome r = Raise BudgetExhausted
      /\ er_draws r = Capacity img * 4
      /\ er_attempts r = Capacity img * 4
      /\ er_accepted r = []
      /\ er_embedded r = 0
      /\ er_pixels r = img.
Proof.
  cbv zeta.
  assert (H1 : flat (flat_image 3 3 [10; 20; 30])) by (intros x y _; reflexivity).
  assert (H2 : has_interior (flat_image 3 3 [10; 20; 30]))
    by (split; vm_compute; discriminate).
  assert (H3 : 3 <= len (as_triple (im_cell (flat_image 3 3 [10; 20; 30]) 0 0)))
    by (vm_compute; discriminate).
  assert (H4 : 0 < 1) by reflexivity.
  assert (H5 : 0 < len hi_bits <= Capacity (flat_image 3 3 [10; 20; 30]))
    by (vm_compute; split; [reflexivity|discriminate]).
  assert (H6 : 0 <= 4) by discriminate.
  repeat (split; [assumption|]).
  exact (flat_image_exhausts_budget (flat_image 3 3 [10; 20; 30]) hi_bits
           (codepoints "pw") 1 4 H1 H2 H3 H4 H5 H6).
Defined.

Lemma embed_extract_roundtrip_witness :
  Forall is_bit hi_bits
  /\ 0 <= 0
  /\ exists r,
      embed_message_bits (flat_image 4 4 [0; 0; 0]) hi_bits (codepoints "pw") 0 4
      = Some r
      /\ er_outcome r = Ok tt
      /\ er_draws r = er_attempts r
      /\ exists xr,
          extract_message_bits (er_pixels r) (len hi_bits) (codepoints "pw") 0 4
          = Some xr
          /\ xr_outcome xr = Ok hi_bits.
Proof.
  assert (Hbits : Forall is_bit hi_bits).
  { apply Forall_forall. intros b Hb. vm_compute in Hb.
    repeat (apply elem_of_cons in Hb as [->|Hb]; [(left; reflexivity) || (right; reflexivity)|]).
    inversion Hb. }
  assert (HT : 0 <= 0) by discriminate.
  assert (Hrun : exists r,
             embed_message_bits (flat_image 4 4 [0; 0; 0]) hi_bits
               (codepoints "pw") 0 4 = Some r
             /\ er_outcome r = Ok tt /\ er_draws r = er_attempts r).
  { eexists. split; [vm_compute; reflexivity|split; reflexivity]. }
  split; [exact Hbits|]. split; [exact HT|].
  destruct Hrun as (r & E & Hout & Hd).
  exists r. split; [exact E|]. split; [exact Hout|]. split; [exact Hd|].
  exact (embed_extract_roundtrip _ _ _ _ _ r Hbits HT E Hout Hd).
Defined.

(** A direction draw shifts the generator: on this image the embedding of
    "hi" makes 24 draws in 17 attempts, and the extraction, which makes one
    draw per attempt, visits other positions and reads other bits. *)
Example direction_draws_desynchronise :
  exists r xr,
    embed_message_bits (flat_image 4 4 [10; 20; 30]) hi_bits (codepoints "pw") 0 4
    = Some r
    /\ er_outcome r = Ok tt
    /\ er_draws r = 24
    /\ er_attempts r = 17
    /\ extract_message_bits (er_pixels r) 16 (codepoints "pw") 0 4 = Some xr
    /\ xr_outcome xr = Ok [0; 1; 0; 1; 0; 0; 1; 0; 0; 0; 0; 0; 1; 0; 1; 0]
    /\ map fst (er_accepted r) <> map fst (xr_accepted xr).
Proof.
  do 2 eexists.
  split; [vm_compute; reflexivity|].
  split; [reflexivity|]. split; [reflexivity|]. split; [reflexivity|].
  split; [vm_compute; reflexivity|].
  split; [reflexivity|]. vm_compute. discriminate.
Qed.

(** * Further properties: the generator *)

Lemma land_MASK32 (a : Z) : Z.land a MASK32 = a mod 2 ^ 32.
Proof. exact (Z.land_ones a 32 ltac:(lia)). Qed.

(** Property X1.  Every draw of the generator is a 32-bit number, it becomes
    the state of the generator, and it counts as one draw; a generator
    made from any seed, negative or beyond 32 bits, starts in a 32-bit
    state. *)
Theorem prng_range (seed : Z) (p : SimplePRNG) :
  0 <= state (SimplePRNG_init seed) < 2 ^ 32
  /\ 0 <= fst (next_u32 p) < 2 ^ 32
  /\ state (snd (next_u32 p)) = fst (next_u32 p)
  /\ draws (snd (next_u32 p)) = draws p + 1
  /\ fst (next_u32 p) = (1103515245 * state p + 12345) mod 2 ^ 32.
Proof.
  unfold SimplePRNG_init, next_u32. cbn [state draws fst snd].
  rewrite !land_MASK32.
  pose proof (Z.mod_pos_bound seed (2 ^ 32) ltac:(lia)).
  pose proof (Z.mod_pos_bound (1103515245 * state p + 12345) (2 ^ 32) ltac:(lia)).
  repeat split; lia.
Qed.

(** Property X2.  The lowest bit of the generator alternates: the lowest bit
    of a draw is the complement of the lowest bit of the state it was drawn
    from, so two draws in a row never have the same lowest bit, and after
    [n] draws the lowest bit is the parity of the first state plus [n].
    The direction of a +-1 adjustment is read from that bit. *)
Theorem prng_low_bit_alternates (p : SimplePRNG) (n : nat) :
  Z.land (fst (next_u32 p)) 1 = 1 - Z.land (state p) 1
  /\ Z.land (fst (next_u32 (snd (next_u32 p)))) 1
     = 1 - Z.land (fst (next_u32 p)) 1
  /\ Z.land (state (after_draws n p)) 1 = (state p + Z.of_nat n) mod 2.
Proof.
  assert (H : forall q, Z.land (fst (next_u32 q)) 1 = 1 - Z.land (state q) 1).
  { intros q. unfold next_u32. cbn [fst]. rewrite land_MASK32, !land_1_mod.
    Z.div_mod_to_equations. lia. }
  split; [apply H|]. split; [rewrite (H (snd (next_u32 p))); reflexivity|].
  revert p. induction n as [|n IH]; intros p.
  - cbn [after_draws]. rewrite land_1_mod, Z.add_0_r. reflexivity.
  - cbn [after_draws]. rewrite IH.
    change (state (snd (next_u32 p))) with (fst (next_u32 p)).
    pose proof (H p) as Hp. rewrite !land_1_mod in Hp.
    revert Hp. Z.div_mod_to_equations. lia.
Qed.

(** Property X3.  The step of the generator can be undone: the state a draw
    was made from is recovered from the draw, so two different 32-bit
    states never lead to the same draw. *)
Theorem prng_step_invertible (p q : SimplePRNG) :
  previous_state (fst (next_u32 p)) = state p mod 2 ^ 32
  /\ (fst (next_u32 p) = fst (next_u32 q) ->
      state p mod 2 ^ 32 = state q mod 2 ^ 32).
Proof.
  assert (H : forall r, previous_state (fst (next_u32 r)) = state r mod 2 ^ 32).
  { intros r. unfold previous_state, next_u32. cbn [fst].
    rewrite !land_MASK32. Z.div_mod_to_equations. lia. }
  split; [apply H|]. intros E. rewrite <- (H p), <- (H q), E. reflexivity.
Qed.

Lemma prng_step_invertible_witness :
  fst (next_u32 (SimplePRNG_init 120)) = fst (next_u32 (SimplePRNG_init 120))
  /\ previous_state (fst (next_u32 (SimplePRNG_init 120))) = 120.
Proof.
  split; [reflexivity|].
  exact (proj1 (prng_step_invertible (SimplePRNG_init 120) (SimplePRNG_init 120))).
Defined.

(** * Further properties: the complexity estimator *)

Lemma for_each_ext_in {A S : Type} (l : list A) (f g : S -> A -> result S) :
  (forall acc v, v ∈ l -> f acc v = g acc v) ->
  forall acc, for_each l f acc = for_each l g acc.
Proof.
  induction l as [|v l IH]; intros Hfg acc; cbn [for_each]; [reflexivity|].
  rewrite Hfg by apply list_elem_of_here.
  destruct (g acc v); cbn [bind]; [|reflexivity].
  apply IH. intros acc' w Hw. apply Hfg. apply list_elem_of_further, Hw.
Qed.

Lemma for_each_growth {A : Type} (l : list A) (f : Z -> A -> result Z) (B : Z) :
  (forall a v b, f a v = Ok b -> a <= b <= a + B) ->
  forall a b, for_each l f a = Ok b -> a <= b <= a + B * len l.
Proof.
  intros Hf. induction l as [|v l IH]; intros a b; cbn [for_each].
  - intros [= <-]. unfold len. cbn. lia.
  - intros H. apply bind_Ok in H as (a1 & H1 & H).
    apply Hf in H1. apply IH in H.
    unfold len in *. cbn [length]. lia.
Qed.

Lemma index_elem_of {A : Type} (s : list A) (i : Z) (v : A) :
  index s i = Ok v -> v ∈ s.
Proof.
  unfold index. cbv zeta. destruct (_ <? 0); [discriminate|].
  destruct (s !! _) as [w|] eqn:E; [|discriminate].
  intros [= <-]. eapply list_elem_of_lookup_2, E.
Qed.

Lemma as_triple_bytes (img : Image) (x y v : Z) :
  byte_valued img -> in_image img x y = true ->
  v ∈ as_triple (im_cell img x y) -> 0 <= v <= 255.
Proof.
  intros Hb Hin Hv. specialize (Hb x y Hin).
  rewrite Forall_forall in Hb. apply Hb.
  destruct (im_cell img x y) as [w|vs]; [|exact Hv].
  cbn [as_triple as_list] in *.
  repeat (apply elem_of_cons in Hv as [->|Hv]; [apply list_elem_of_here|]).
  inversion Hv.
Qed.

(** Property X4.  On a buffer whose channels are all in [0 .. 255] the local
    complexity, whenever the estimator returns one, lies between 0 and
    [4 * 3 * 255 = 3060]. *)
Theorem complexity_range (img : Image) (x y width height c : Z) :
  byte_valued img ->
  compute_local_complexity img x y width height = Ok c ->
  0 <= c <= 3060.
Proof.
  intros Hb. unfold compute_local_complexity. cbv zeta. intros H.
  apply bind_Ok in H as (center & Hcenter & H).
  apply getitem_Ok in Hcenter as [Hin ->].
  apply (for_each_growth _ _ 765) in H; [unfold len in H; cbn in H; lia|].
  intros a d b Hd.
  apply bind_Ok in Hd as (nb & Hnb & Hd).
  apply getitem_Ok in Hnb as [Hin' ->].
  apply (for_each_growth _ _ 255) in Hd; [unfold len in Hd; cbn in Hd; lia|].
  intros a' ch b' Hch.
  apply bind_Ok in Hch as (nb_c & Hn & Hch).
  apply bind_Ok in Hch as (center_c & Hc & [= <-]).
  apply index_elem_of in Hn, Hc.
  apply (as_triple_bytes img _ _ _ Hb Hin') in Hn.
  apply (as_triple_bytes img _ _ _ Hb Hin) in Hc.
  lia.
Qed.

Lemma complexity_range_witness :
  byte_valued (image_of_rows 3 3
                 [[[0; 0; 0]; [255; 255; 255]; [0; 0; 0]];
                  [[255; 255; 255]; [0; 0; 0]; [255; 255; 255]];
                  [[0; 0; 0]; [255; 255; 255]; [0; 0; 0]]])
  /\ compute_local_complexity
       (image_of_rows 3 3
          [[[0; 0; 0]; [255; 255; 255]; [0; 0; 0]];
           [[255; 255; 255]; [0; 0; 0]; [255; 255; 255]];
           [[0; 0; 0]; [255; 255; 255]; [0; 0; 0]]]) 0 0 3 3 = Ok 3060
  /\ 0 <= 3060 <= 3060.
Proof.
  assert (Hb : byte_valued (image_of_rows 3 3
                 [[[0; 0; 0]; [255; 255; 255]; [0; 0; 0]];
                  [[255; 255; 255]; [0; 0; 0]; [255; 255; 255]];
                  [[0; 0; 0]; [255; 255; 255]; [0; 0; 0]]])).
  { intros x y Hin. apply in_image_bounds in Hin as [Hx Hy].
    cbn in Hx, Hy.
    assert (Ex : x = 0 \/ x = 1 \/ x = 2) by lia.
    assert (Ey : y = 0 \/ y = 1 \/ y = 2) by lia.
    destruct Ex as [->|[->| ->]], Ey as [->|[->| ->]];
      cbn; repeat constructor; lia. }
  assert (Hc : compute_local_complexity
                 (image_of_rows 3 3
                    [[[0; 0; 0]; [255; 255; 255]; [0; 0; 0]];
                     [[255; 255; 255]; [0; 0; 0]; [255; 255; 255]];
                     [[0; 0; 0]; [255; 255; 255]; [0; 0; 0]]]) 0 0 3 3 = Ok 3060)
    by (vm_compute; reflexivity).
  split; [exact Hb|]. split; [exact Hc|].
  exact (complexity_range _ 0 0 3 3 3060 Hb Hc).
Defined.

Lemma index_take3 (l l' : list Z) (c : Z) :
  take 3 l = take 3 l' -> c ∈ [0; 1; 2] -> index l c = index l' c.
Proof.
  intros Ht Hc.
  assert (Hl : forall k : nat, (k < 3)%nat -> l !! k = l' !! k).
  { intros k Hk. rewrite <- (lookup_take_lt l 3 k), <- (lookup_take_lt l' 3 k) by lia.
    rewrite Ht. reflexivity. }
  repeat (apply elem_of_cons in Hc as [->|Hc];
          [rewrite !index_nonneg by lia; rewrite Hl by (cbn; lia); reflexivity|]).
  inversion Hc.
Qed.

Lemma complexity_same_rgb (p q : Image) (x y width height : Z) :
  same_rgb p q ->
  compute_local_complexity p x y width height
  = compute_local_complexity q x y width height.
Proof.
  intros (Hw & Hh & Hcells). unfold compute_local_complexity. cbv zeta.
  assert (Hread : forall a b (K K' : pixel -> result Z),
             (forall pix pix',
                 take 3 (as_triple pix) = take 3 (as_triple pix') ->
                 K pix = K' pix') ->
             bind (getitem p a b) K = bind (getitem q a b) K').
  { intros a b K K' HK. unfold getitem.
    rewrite <- (in_image_same_size p q) by assumption.
    destruct (in_image p a b) eqn:Hin; [|reflexivity].
    cbn [bind]. apply HK, Hcells, Hin. }
  apply Hread. intros center center' Hcenter.
  apply for_each_ext. intros acc d.
  apply Hread. intros nb nb' Hnb.
  apply for_each_ext_in. intros acc' c Hc.
  rewrite (index_take3 _ _ c Hnb Hc), (index_take3 _ _ c Hcenter Hc).
  reflexivity.
Qed.

(** Property X5.  The estimator ignores alpha: replacing the fourth channel
    of the pixels of a buffer, in any way, changes neither the value it
    returns nor whether it returns one. *)
Theorem complexity_ignores_alpha (img : Image) (alpha : Z -> Z -> Z)
    (x y width height : Z) :
  compute_local_complexity (with_alpha img alpha) x y width height
  = compute_local_complexity img x y width height.
Proof.
  symmetry. apply complexity_same_rgb.
  split; [reflexivity|]. split; [reflexivity|].
  intros a b _. cbn [with_alpha im_cell].
  destruct (im_cell img a b) as [v|[|r [|g [|bl [|al [|e rest]]]]]]; reflexivity.
Qed.

Lemma clamp_idempotent (v lo hi : Z) :
  clamp (clamp v lo hi) lo hi = clamp v lo hi.
Proof. unfold clamp. lia. Qed.

(** Property X6.  The estimator looks at the coordinate only through its
    clamp into [[1, dim - 2]]: a pixel reports the complexity of the pixel
    it is clamped to, so every coordinate at or before column 1 and row 1
    reports the complexity of [(1, 1)], and two coordinates with the same
    clamps report the same. *)
Theorem complexity_of_clamped (img : Image) (x y x' y' width height : Z) :
  compute_local_complexity img x y width height
  = compute_local_complexity img (clamp x 1 (width - 2)) (clamp y 1 (height - 2))
      width height
  /\ compute_local_complexity img (Z.min x 1) (Z.min y 1) width height
     = compute_local_complexity img 1 1 width height
  /\ (clamp x 1 (width - 2) = clamp x' 1 (width - 2) ->
      clamp y 1 (height - 2) = clamp y' 1 (height - 2) ->
      compute_local_complexity img x y width height
      = compute_local_complexity img x' y' width height).
Proof.
  unfold compute_local_complexity. cbv zeta.
  split; [rewrite !clamp_idempotent; reflexivity|]. split.
  - replace (clamp (Z.min x 1) 1 (width - 2)) with (clamp 1 1 (width - 2))
      by (unfold clamp; lia).
    replace (clamp (Z.min y 1) 1 (height - 2)) with (clamp 1 1 (height - 2))
      by (unfold clamp; lia).
    reflexivity.
  - intros -> ->. reflexivity.
Qed.

Lemma for_each_Ok {A : Type} (l : list A) (f : Z -> A -> result Z) :
  (forall a v, v ∈ l -> 0 <= a -> exists b, f a v = Ok b /\ 0 <= b) ->
  forall a, 0 <= a -> exists b, for_each l f a = Ok b /\ 0 <= b.
Proof.
  induction l as [|v l IH]; intros Hf a Ha; cbn [for_each]; [eauto|].
  destruct (Hf a v (list_elem_of_here _ _) Ha) as (b & -> & Hb). cbn [bind].
  apply IH; [|exact Hb].
  intros a' w Hw. apply Hf. apply list_elem_of_further, Hw.
Qed.

Lemma index_defined {A : Type} (s : list A) (i : Z) :
  0 <= i < len s -> exists v, index s i = Ok v.
Proof.
  intros Hi. rewrite index_nonneg by lia.
  destruct (lookup_lt_is_Some_2 s (Z.to_nat i)) as [v ->]; [unfold len in Hi; lia|].
  eauto.
Qed.

(** Property X7.  On a buffer whose pixels have three channels the estimator
    returns a (non-negative) value at every coordinate if the image is at
    least three pixels wide and high, and raises [IndexError] at every
    coordinate if it is not. *)
Theorem complexity_defined_iff_interior (img : Image) (x y : Z) :
  three_channel img ->
  (has_interior img ->
   exists c,
     compute_local_complexity img x y (Z.pos (im_width img)) (Z.pos (im_height img))
     = Ok c /\ 0 <= c)
  /\ (~ has_interior img ->
      compute_local_complexity img x y (Z.pos (im_width img)) (Z.pos (im_height img))
      = Raise IndexError).
Proof.
  intros H3. split.
  - intros [Hw Hh]. unfold compute_local_complexity. cbv zeta.
    pose proof (clamp_range x _ Hw) as Hcx.
    pose proof (clamp_range y _ Hh) as Hcy.
    set (cx := clamp x 1 (Z.pos (im_width img) - 2)) in *.
    set (cy := clamp y 1 (Z.pos (im_height img) - 2)) in *.
    assert (Hin : forall a b, 0 <= a < Z.pos (im_width img) ->
                              0 <= b < Z.pos (im_height img) ->
                              in_image img a b = true).
    { intros a b Ha Hb. pose proof (getitem_inside img a b Ha Hb) as G.
      unfold getitem in G. destruct (in_image img a b); [reflexivity|discriminate]. }
    rewrite getitem_inside by lia. cbn [bind].
    apply for_each_Ok; [|lia].
    intros a d Hd Ha.
    assert (Hd' : -1 <= fst d <= 1 /\ -1 <= snd d <= 1).
    { repeat (apply elem_of_cons in Hd as [->|Hd]; [cbn; lia|]). inversion Hd. }
    rewrite getitem_inside by lia. cbn [bind].
    apply for_each_Ok; [|exact Ha].
    intros a' c Hc Ha'.
    assert (Hc' : 0 <= c < 3).
    { repeat (apply elem_of_cons in Hc as [->|Hc]; [lia|]). inversion Hc. }
    destruct (index_defined (as_triple (im_cell img (cx + fst d) (cy + snd d))) c)
      as [v1 ->]; [specialize (H3 _ _ (Hin (cx + fst d) (cy + snd d) ltac:(lia) ltac:(lia))); lia|].
    destruct (index_defined (as_triple (im_cell img cx cy)) c)
      as [v2 ->]; [specialize (H3 _ _ (Hin cx cy ltac:(lia) ltac:(lia))); lia|].
    cbn [bind]. eexists. split; [reflexivity|lia].
  - intros Hno.
    destruct (compute_local_complexity img x y _ _) as [c|e] eqn:E.
    + exfalso. eapply Hno, complexity_needs_interior, E.
    + apply complexity_raises in E as ->. reflexivity.
Qed.

Lemma complexity_defined_iff_interior_witness :
  three_channel (flat_image 3 3 [10; 20; 30])
  /\ has_interior (flat_image 3 3 [10; 20; 30])
  /\ exists c, compute_local_complexity (flat_image 3 3 [10; 20; 30]) 0 2 3 3 = Ok c
               /\ 0 <= c.
Proof.
  assert (H3 : three_channel (flat_image 3 3 [10; 20; 30]))
    by (intros x y _; vm_compute; discriminate).
  assert (Hi : has_interior (flat_image 3 3 [10; 20; 30]))
    by (split; vm_compute; discriminate).
  split; [exact H3|]. split; [exact Hi|].
  exact (proj1 (complexity_defined_iff_interior (flat_image 3 3 [10; 20; 30]) 0 2 H3) Hi).
Defined.

(** * Further properties: the embedding as a whole *)

Lemma select_raises (pixels : Image) (used : gset Z)
    (width height usable_channels total_capacity_bits threshold pos_rand : Z)
    (e : exn) :
  select pixels used width height usable_channels total_capacity_bits threshold
    pos_rand = Raise e ->
  e = IndexError.
Proof.
  unfold select. cbv zeta. intros H.
  apply bind_Raise in H as [H|(c & _ & H)]; [eapply complexity_raises, H|].
  destruct (c <? threshold); [discriminate|].
  destruct (bool_decide _); [discriminate|].
  apply bind_Raise in H as [H|(pix & _ & H)]; [eapply getitem_raises, H|].
  apply bind_Raise in H as [H|(v & _ & H)]; [eapply index_raises, H|].
  discriminate.
Qed.

Lemma mutate_raises (pixels : Image) (prng : SimplePRNG) (sel : selection)
    (target_bit : Z) (e : exn) :
  mutate pixels prng sel target_bit = Raise e -> e = IndexError.
Proof.
  unfold mutate. cbv zeta.
  destruct (negb _); [|discriminate].
  destruct (if s_current sel =? 0 then _ else _) as [new_value prng'].
  intros H. apply bind_Raise in H as [H|(p & _ & H)]; [|discriminate].
  unfold setitem in H. destruct (in_image _ _ _); congruence.
Qed.

Lemma embed_body_raises (message_bits : list Z)
    (width height usable_channels total_capacity_bits threshold : Z)
    (st st' : embed_locals) (e : exn) :
  embed_body message_bits width height usable_channels total_capacity_bits
    threshold st = (st', Some e) ->
  e = IndexError.
Proof.
  unfold embed_body.
  destruct (next_u32 (e_prng st)) as [pos_rand prng].
  destruct (select _ _ _ _ _ _ _ _) as [[sel|]|e'] eqn:Hsel.
  - destruct (bind _ _) as [[pixels' prng']|e'] eqn:Hm; [discriminate|].
    intros [= _ <-].
    apply bind_Raise in Hm as [H|(b & _ & H)];
      [eapply index_raises, H|eapply mutate_raises, H].
  - discriminate.
  - intros [= _ <-]. eapply select_raises, Hsel.
Qed.

Lemma embed_loop_raises (message_bits : list Z)
    (width height usable_channels total_capacity_bits threshold max_attempts : Z)
    (fuel : nat) :
  forall st st' e,
    embed_loop fuel message_bits width height usable_channels total_capacity_bits
      threshold max_attempts st = Some (st', Some e) ->
    e = IndexError.
Proof.
  induction fuel as [|fuel IH]; intros st st' e; cbn [embed_loop];
    destruct (_ && _); try discriminate.
  destruct (embed_body _ _ _ _ _ _ st) as [st1 [e1|]] eqn:Hbody.
  - intros [= _ <-]. eapply embed_body_raises, Hbody.
  - apply IH.
Qed.

Lemma same_shape_chan_defined (p q : Image) (x y c v : Z) :
  same_shape p q -> chan p x y c = Ok v -> exists v', chan q x y c = Ok v'.
Proof.
  intros (_ & _ & Hcells) H. unfold chan in *.
  eapply index_same_length; [|exact H]. apply Hcells.
Qed.

Lemma embed_counters_pass (img : Image) (message_bits : list Z)
    (threshold max_attempt_factor : Z) (st st' : embed_locals)
    (signal : option exn) :
  embedding_inv img message_bits st ->
  embed_counters img message_bits (Capacity img * max_attempt_factor) st ->
  e_embedded st < len message_bits ->
  e_attempts st < Capacity img * max_attempt_factor ->
  embed_pass message_bits (Z.pos (im_width img)) (Z.pos (im_height img))
    (usable_channels_of (num_channels_of (im_cell img 0 0))) (Capacity img)
    threshold st st' signal ->
  embed_counters img message_bits (Capacity img * max_attempt_factor) st'.
Proof.
  intros Hinv (Hatt & Hdraws & Hemb & Hle & Hacc) Hlt Hbudget Hpass.
  pose proof (embed_pass_draws _ _ _ _ _ _ _ _ _ Hpass) as [Ha Hd].
  destruct Hpass as [_ Hprng He _ _ Hac _ | sel target _ Hsel _ Hmut He _ _ Hac];
    unfold embed_counters; rewrite Ha, He, Hac.
  - rewrite Hprng, next_u32_draws. repeat split; try lia; assumption.
  - pose proof (mutate_prng _ _ _ _ _ _ Hmut) as Hp.
    assert (Hd2 : draws (e_prng st') <= draws (e_prng st) + 2).
    { destruct Hp as [-> | ->]; rewrite ?next_u32_draws; lia. }
    split; [lia|]. split; [lia|].
    split; [unfold len in *; rewrite length_app; cbn [length]; lia|].
    split; [lia|].
    apply Forall_app. split; [exact Hacc|]. constructor; [|constructor].
    cbn [fst].
    pose proof Hsel as Hpos.
    apply select_position in Hpos as (Hdec & Hc0 & _ & Hget & Hlist & Hcur);
      [|apply next_u32_nonneg].
    apply select_accepts in Hsel as (Hp0 & _).
    destruct Hdec as (Hx & Hy & Hc).
    assert (Hcap : 0 < Capacity img).
    { pose proof (Capacity_nonneg img).
      destruct (Z.eq_dec (Capacity img) 0) as [E|E]; [|lia].
      rewrite E in *. lia. }
    unfold addressable. rewrite Hx, Hy, Hc.
    split; [rewrite Hp0; apply Z.mod_pos_bound, Hcap|].
    destruct Hinv as (Hshape & _).
    apply getitem_Ok in Hget as [Hin _].
    split; [rewrite <- (in_image_same_size (e_pixels st) img);
            [exact Hin|apply Hshape|apply Hshape]|].
    split; [exact Hc0|].
    eapply (same_shape_chan_defined (e_pixels st) img); [exact Hshape|].
    unfold chan. rewrite <- Hlist. exact Hcur.
Qed.

(** Every report of [embed_message_bits] comes from locals that satisfy the
    invariant of the loop and the counters, and says how the loop ended. *)
Lemma embed_report_counters (img : Image) (message_bits password : list Z)
    (complexity_threshold max_attempt_factor : Z) :
  exists r st,
    embed_message_bits img message_bits password complexity_threshold
      max_attempt_factor = Some r
    /\ embedding_inv img message_bits st
    /\ embed_counters img message_bits (Capacity img * max_attempt_factor) st
    /\ er_pixels r = e_pixels st
    /\ er_accepted r = e_accepted st
    /\ er_embedded r = e_embedded st
    /\ er_attempts r = e_attempts st
    /\ er_draws r = draws (e_prng st)
    /\ (er_outcome r = Raise CapacityExceeded /\ Capacity img < len message_bits
        /\ e_attempts st = 0
        \/ er_outcome r = Raise IndexError /\ len message_bits <= Capacity img
        \/ er_outcome r = Raise BudgetExhausted /\ len message_bits <= Capacity img
           /\ e_embedded st < len message_bits
           /\ Capacity img * max_attempt_factor <= e_attempts st
        \/ er_outcome r = Ok tt /\ len message_bits <= Capacity img
           /\ len message_bits <= e_embedded st).
Proof.
  assert (Hinit : embed_counters img message_bits (Capacity img * max_attempt_factor)
                    {| e_pixels := img;
                       e_prng := SimplePRNG_init (derive_seed_from_password password);
                       e_embedded := 0;
                       e_used_positions := ∅; e_attempts := 0; e_accepted := [] |}).
  { unfold embed_counters, len. cbn. repeat split; try lia. constructor. }
  destruct (embed_message_bits_run img message_bits password
              complexity_threshold max_attempt_factor)
    as [[Hgt E]|(Hle & st & signal & Hloop & E)].
  - eexists. eexists. split; [exact E|].
    split; [apply (embedding_inv_initial img message_bits
                     (SimplePRNG_init (derive_seed_from_password password)))|].
    split; [exact Hinit|].
    cbn. repeat split. left. repeat split. exact Hgt.
  - exists {| er_outcome :=
                match signal with
                | Some e => Raise e
                | None => if e_embedded st <? len message_bits
                          then Raise BudgetExhausted else Ok tt
                end;
              er_pixels := e_pixels st; er_draws := draws (e_prng st);
              er_attempts := e_attempts st; er_embedded := e_embedded st;
              er_accepted := e_accepted st |}, st.
    split; [exact E|].
    assert (Hboth : embedding_inv img message_bits st
                    /\ embed_counters img message_bits
                         (Capacity img * max_attempt_factor) st).
    { revert Hloop.
      apply (embed_loop_invariant _ _ _ _ _ _ _
               (fun s => embedding_inv img message_bits s
                         /\ embed_counters img message_bits
                              (Capacity img * max_attempt_factor) s)).
      - intros s s' sig [H1 H2] He Ha Hpass. split.
        + eapply embedding_inv_pass; eauto.
        + eapply embed_counters_pass; eauto.
      - split; [apply embedding_inv_initial|exact Hinit]. }
    destruct Hboth as [H1 H2].
    split; [exact H1|]. split; [exact H2|].
    cbn [er_pixels er_accepted er_embedded er_attempts er_draws er_outcome].
    do 5 (split; [reflexivity|]).
    destruct signal as [e|].
    + apply embed_loop_raises in Hloop as ->. right. left. split; [reflexivity|lia].
    + apply embed_loop_exit in Hloop.
      destruct (Z.ltb_spec (e_embedded st) (len message_bits)).
      * right. right. left. repeat split; lia.
      * right. right. right. repeat split; lia.
Qed.


Lemma channel_in_chan (img pixels : Image) (pos : Z) :
  im_width pixels = im_width img -> im_height pixels = im_height img ->
  in_image img (position_x img pos) (position_y img pos) = true ->
  channel_in img pixels pos
  = chan pixels (position_x img pos) (position_y img pos) (position_channel img pos).
Proof.
  intros Hw Hh Hin. unfold channel_in, getitem.
  rewrite (in_image_same_size pixels img) by assumption.
  rewrite Hin. reflexivity.
Qed.

(** Property X9.  The embedding puts every bit where its position says:
    in the buffer a call of [embed_message_bits] leaves, however the call
    ends, the channel addressed by the i-th accepted position has the i-th
    message bit as its lowest bit; and when the call returns there is one
    accepted position for every bit of the message. *)
Theorem embedded_bits_in_place (img : Image) (message_bits password : list Z)
    (complexity_threshold max_attempt_factor : Z) :
  exists r,
    embed_message_bits img message_bits password complexity_threshold
      max_attempt_factor = Some r
    /\ (forall (i : nat) pos snapshot target,
           er_accepted r !! i = Some (pos, snapshot) ->
           message_bits !! i = Some target ->
           is_bit target ->
           exists v, channel_in img (er_pixels r) pos = Ok v
                     /\ Z.land v 1 = target)
    /\ (er_outcome r = Ok tt -> length (er_accepted r) = length message_bits).
Proof.
  destruct (embed_report_counters img message_bits password complexity_threshold
              max_attempt_factor)
    as (r & st & E & (Hshape & _ & _ & Hchan) & (_ & _ & Hemb & Hle & Hacc)
        & Epix & Eacc & _ & _ & _ & Hout).
  exists r. split; [exact E|]. rewrite Epix, Eacc. split.
  - intros i pos snapshot target Hi Hbit Htarget.
    assert (Haddr : addressable img pos).
    { rewrite Forall_forall in Hacc.
      apply (Hacc (pos, snapshot)). eapply list_elem_of_lookup_2, Hi. }
    destruct Haddr as (_ & Hin & Hc0 & old & Hold).
    destruct (Hchan _ _ _ _ Hc0 Hold) as (new & Hnew & Hhist & _).
    destruct (Hhist i pos snapshot Hi) as (target' & Ht' & Hmatch);
      [repeat split|].
    rewrite index_nonneg, Nat2Z.id, Hbit in Ht' by lia. injection Ht' as <-.
    exists new. split; [|eapply lsb_matched_bit; eauto].
    rewrite channel_in_chan; [exact Hnew|apply Hshape|apply Hshape|exact Hin].
  - intros Hok.
    destruct Hout as [(Ho & _)|[(Ho & _)|[(Ho & _)|(_ & _ & Hfull)]]];
      try (rewrite Ho in Hok; discriminate).
    unfold len in *. lia.
Qed.

Lemma elem_of_map_fst {A B : Type} (l : list (A * B)) (a : A) :
  a ∈ map fst l -> exists b, (a, b) ∈ l.
Proof.
  intros H. apply list_elem_of_In, in_map_iff in H as ([a' b] & <- & Hin).
  exists b. apply list_elem_of_In, Hin.
Qed.

(** Property X10.  The embedding never changes the size of the buffer or the
    number of channels of a pixel, and it never touches a channel beyond
    the usable ones: in an RGBA buffer alpha is what it was. *)
Theorem embedding_keeps_shape_and_alpha (img : Image)
    (message_bits password : list Z)
    (complexity_threshold max_attempt_factor : Z) :
  exists r,
    embed_message_bits img message_bits password complexity_threshold
      max_attempt_factor = Some r
    /\ same_shape (er_pixels r) img
    /\ forall x y c old,
         usable_channels_of (num_channels_of (im_cell img 0 0)) <= c ->
         chan img x y c = Ok old ->
         chan (er_pixels r) x y c = Ok old.
Proof.
  destruct (embed_report_counters img message_bits password complexity_threshold
              max_attempt_factor)
    as (r & st & E & (Hshape & _ & _ & Hchan) & (_ & _ & _ & _ & Hacc)
        & Epix & _ & _ & _ & _ & _).
  exists r. split; [exact E|]. rewrite Epix. split; [exact Hshape|].
  intros x y c old Hc Hold.
  pose proof (usable_channels_nonneg (im_cell img 0 0)) as Hu.
  destruct (Hchan x y c old ltac:(lia) Hold) as (new & Hnew & _ & Hintact & _).
  rewrite Hnew. f_equal. apply Hintact.
  intros pos Hpos (_ & _ & Hdec).
  apply elem_of_map_fst in Hpos as [snapshot Hpos].
  rewrite Forall_forall in Hacc. destruct (Hacc _ Hpos) as (Hrange & _).
  cbn [fst] in Hrange. unfold position_channel in Hdec. unfold Capacity in Hrange.
  set (u := usable_channels_of (num_channels_of (im_cell img 0 0))) in *.
  destruct (Z.eq_dec u 0) as [E0|E0]; [rewrite E0 in Hrange; lia|].
  pose proof (Z.mod_pos_bound pos u ltac:(lia)). lia.
Qed.

(** * Further properties: the extraction as a whole *)

(** Property X11.  The capacity guard of the extraction: asking for more
    bits than the capacity fails with [CapacityExceeded] before any draw
    or attempt, and the buffer is untouched. *)
Theorem extract_capacity_guard (img : Image) (num_bits : Z) (password : list Z)
    (complexity_threshold max_attempt_factor : Z) :
  num_bits > Capacity img ->
  extract_message_bits img num_bits password complexity_threshold
    max_attempt_factor
  = Some {| xr_outcome := Raise CapacityExceeded; xr_pixels := img;
            xr_draws := 0; xr_attempts := 0; xr_accepted := [] |}.
Proof.
  intros Hn.
  destruct (extract_message_bits_run img num_bits password complexity_threshold
              max_attempt_factor) as [[_ E]|[Hle _]]; [exact E|lia].
Qed.

Lemma extract_capacity_guard_witness :
  28 > Capacity (flat_image 3 3 [10; 20; 30])
  /\ extract_message_bits (flat_image 3 3 [10; 20; 30]) 28 (codepoints "pw") 0 4
     = Some {| xr_outcome := Raise CapacityExceeded;
               xr_pixels := flat_image 3 3 [10; 20; 30];
               xr_draws := 0; xr_attempts := 0; xr_accepted := [] |}.
Proof.
  assert (H : 28 > Capacity (flat_image 3 3 [10; 20; 30])) by reflexivity.
  split; [exact H|].
  exact (extract_capacity_guard (flat_image 3 3 [10; 20; 30]) 28
           (codepoints "pw") 0 4 H).
Defined.



Lemma land_1_is_bit (v : Z) : is_bit (Z.land v 1).
Proof.
  unfold is_bit. rewrite land_1_mod.
  pose proof (Z.mod_pos_bound v 2 ltac:(lia)). lia.
Qed.

Lemma extract_counters_pass (img : Image) (num_bits threshold max_attempt_factor : Z)
    (st st' : extract_locals) (signal : option exn) :
  extract_counters img num_bits (Capacity img * max_attempt_factor) st ->
  len (x_extracted st) < num_bits ->
  x_attempts st < Capacity img * max_attempt_factor ->
  extract_pass (Z.pos (im_width img)) (Z.pos (im_height img))
    (usable_channels_of (num_channels_of (im_cell img 0 0))) (Capacity img)
    threshold st st' signal ->
  extract_counters img num_bits (Capacity img * max_attempt_factor) st'.
Proof.
  intros (Hatt & Hlen & Hle & Hbits & Hacc) Hlt Hbudget
    [_ _ He _ Ha Hac _ | sel _ Hsel _ _ He _ Ha Hac];
    unfold extract_counters; rewrite Ha, He, Hac.
  - repeat split; try lia; assumption.
  - split; [lia|].
    split; [unfold len in *; rewrite !length_app; cbn [length]; lia|].
    split; [unfold len in *; rewrite length_app; cbn [length]; lia|].
    split; [apply Forall_app; split; [exact Hbits|];
            constructor; [apply land_1_is_bit|constructor]|].
    apply Forall_app. split; [exact Hacc|]. constructor; [|constructor].
    cbn [fst]. apply select_accepts in Hsel as (-> & _).
    apply Z.mod_pos_bound.
    pose proof (Capacity_nonneg img).
    destruct (Z.eq_dec (Capacity img) 0) as [E|E]; [|lia].
    rewrite E in *. lia.
Qed.

(** The length of what the extraction returns. *)
Lemma extract_returned_length (img : Image) (num_bits : Z) (password : list Z)
    (complexity_threshold max_attempt_factor : Z) (xr : extract_report)
    (bits : list Z) :
  extract_message_bits img num_bits password complexity_threshold
    max_attempt_factor = Some xr ->
  xr_outcome xr = Ok bits ->
  len bits = Z.max 0 num_bits.
Proof.
  intros Hx Hout.
  destruct (extract_message_bits_run img num_bits password complexity_threshold
              max_attempt_factor)
    as [[Hgt E]|(Hle & st & signal & Hloop & E)];
    rewrite E in Hx; injection Hx as <-; cbn [xr_outcome] in Hout;
    [discriminate|].
  assert (Hc : extract_counters img num_bits (Capacity img * max_attempt_factor) st).
  { revert Hloop.
    apply (extract_loop_invariant _ _ _ _ _ _ _
             (extract_counters img num_bits (Capacity img * max_attempt_factor))).
    - intros s s' sig HP He Ha Hpass. eapply extract_counters_pass; eauto.
    - unfold extract_counters, len. cbn. repeat split; try lia; constructor. }
  destruct Hc as (_ & _ & Hmax & _ & _).
  destruct signal as [e|]; [discriminate|].
  destruct (Z.ltb_spec (len (x_extracted st)) num_bits); [discriminate|].
  injection Hout as <-. unfold len in *. lia.
Qed.


(** Property X13.  Degenerate calls.  Embedding the empty message and
    extracting no bits (or a negative number of bits) return at once, with
    no draw and the buffer as it was; with an attempt factor of 0 or less,
    a call that has something to do and passes the capacity guard fails at
    once with [BudgetExhausted], likewise with no draw. *)
Theorem degenerate_calls (img : Image) (message_bits password : list Z)
    (num_bits complexity_threshold max_attempt_factor : Z) :
  embed_message_bits img [] password complexity_threshold max_attempt_factor
  = Some {| er_outcome := Ok tt; er_pixels := img; er_draws := 0;
            er_attempts := 0; er_embedded := 0; er_accepted := [] |}
  /\ (num_bits <= 0 ->
      extract_message_bits img num_bits password complexity_threshold
        max_attempt_factor
      = Some {| xr_outcome := Ok []; xr_pixels := img; xr_draws := 0;
                xr_attempts := 0; xr_accepted := [] |})
  /\ (max_attempt_factor <= 0 ->
      (0 < len message_bits <= Capacity img ->
       embed_message_bits img message_bits password complexity_threshold
         max_attempt_factor
       = Some {| er_outcome := Raise BudgetExhausted; er_pixels := img;
                 er_draws := 0; er_attempts := 0; er_embedded := 0;
                 er_accepted := [] |})
      /\ (0 < num_bits <= Capacity img ->
          extract_message_bits img num_bits password complexity_threshold
            max_attempt_factor
          = Some {| xr_outcome := Raise BudgetExhausted; xr_pixels := img;
                    xr_draws := 0; xr_attempts := 0; xr_accepted := [] |})).
Proof.
  pose proof (Capacity_nonneg img) as Hcap.
  assert (Hembed : forall bits,
             len bits <= Capacity img ->
             len bits <= 0 \/ Capacity img * max_attempt_factor <= 0 ->
             embed_message_bits img bits password complexity_threshold
               max_attempt_factor
             = Some {| er_outcome := if 0 <? len bits then Raise BudgetExhausted
                                     else Ok tt;
                       er_pixels := img; er_draws := 0; er_attempts := 0;
                       er_embedded := 0; er_accepted := [] |}).
  { intros bits Hfit Hstop.
    destruct (embed_message_bits_run img bits password complexity_threshold
                max_attempt_factor)
      as [[Hgt _]|(_ & st & signal & Hloop & E)]; [lia|].
    rewrite E.
    destruct (Z.to_nat (Capacity img * max_attempt_factor)) as [|fuel];
      cbn [embed_loop e_embedded e_attempts] in Hloop;
      (destruct (Z.ltb_spec 0 (len bits));
       destruct (Z.ltb_spec 0 (Capacity img * max_attempt_factor));
       try lia; cbn [andb] in Hloop; injection Hloop as <- <-);
      cbn [e_embedded e_pixels e_prng e_attempts e_accepted draws SimplePRNG_init];
      destruct (Z.ltb_spec 0 (len bits)); try lia; reflexivity. }
  assert (Hextract : forall n,
             n <= Capacity img ->
             n <= 0 \/ Capacity img * max_attempt_factor <= 0 ->
             extract_message_bits img n password complexity_threshold
               max_attempt_factor
             = Some {| xr_outcome := if 0 <? n then Raise BudgetExhausted
                                     else Ok [];
                       xr_pixels := img; xr_draws := 0; xr_attempts := 0;
                       xr_accepted := [] |}).
  { intros n Hfit Hstop.
    destruct (extract_message_bits_run img n password complexity_threshold
                max_attempt_factor)
      as [[Hgt _]|(_ & st & signal & Hloop & E)]; [lia|].
    rewrite E.
    change (len (@nil Z)) with 0 in *.
    destruct (Z.to_nat (Capacity img * max_attempt_factor)) as [|fuel];
      cbn [extract_loop x_extracted x_attempts] in Hloop;
      change (len (@nil Z)) with 0 in *;
      (destruct (Z.ltb_spec 0 n);
       destruct (Z.ltb_spec 0 (Capacity img * max_attempt_factor));
       try lia; cbn [andb] in Hloop; injection Hloop as <- <-);
      cbn [x_extracted x_pixels x_prng x_attempts x_accepted draws SimplePRNG_init];
      change (len (@nil Z)) with 0;
      destruct (Z.ltb_spec 0 n); try lia; reflexivity. }
  split; [apply (Hembed []); unfold len; cbn; lia|].
  split.
  { intros Hn. rewrite Hextract by lia.
    destruct (Z.ltb_spec 0 num_bits); [lia|reflexivity]. }
  intros Hf.
  assert (Hmax : Capacity img * max_attempt_factor <= 0) by nia.
  split.
  - intros [Hpos Hfit]. rewrite Hembed by lia.
    destruct (Z.ltb_spec 0 (len message_bits)); [reflexivity|lia].
  - intros [Hpos Hfit]. rewrite Hextract by lia.
    destruct (Z.ltb_spec 0 num_bits); [reflexivity|lia].
Qed.

(** * Further properties: extraction followed by embedding *)

Lemma extract_loop_prefix
    (num_bits width height usable_channels total_capacity_bits threshold
     max_attempts : Z) (fuel : nat) (st st' : extract_locals) (signal : option exn) :
  extract_loop fuel num_bits width height usable_channels total_capacity_bits
    threshold max_attempts st = Some (st', signal) ->
  x_extracted st `prefix_of` x_extracted st' /\ x_pixels st' = x_pixels st.
Proof.
  apply (extract_loop_invariant _ _ _ _ _ _ _
           (fun s => x_extracted st `prefix_of` x_extracted s
                     /\ x_pixels s = x_pixels st)); [|split; reflexivity].
  intros s s' sig [HP Hpix] _ _ [Hp _ He _ _ _ _ | sel _ _ Hp _ He _ _ _];
    rewrite He, Hp; (split; [|exact Hpix]); [exact HP|].
  etransitivity; [exact HP|]. apply prefix_app_r. reflexivity.
Qed.

Lemma prefix_index (l k : list Z) (v : Z) :
  (l ++ [v]) `prefix_of` k -> index k (len l) = Ok v.
Proof.
  intros [rest ->]. unfold len. rewrite index_nonneg, Nat2Z.id by lia.
  rewrite <- app_assoc. rewrite lookup_app_r by lia.
  rewrite Nat.sub_diag. reflexivity.
Qed.

(** The embedding loop, given the bits that the extraction loop ends with,
    follows the extraction loop pass by pass and writes nothing. *)
Lemma reembed_loop (img : Image) (bits : list Z) (num_bits threshold max_attempts : Z) :
  len bits = Z.max 0 num_bits ->
  forall fuel xst xstf st,
    extract_loop fuel num_bits (Z.pos (im_width img)) (Z.pos (im_height img))
      (usable_channels_of (num_channels_of (im_cell img 0 0))) (Capacity img)
      threshold max_attempts xst = Some (xstf, None) ->
    x_extracted xstf = bits ->
    e_pixels st = x_pixels xst ->
    e_prng st = x_prng xst ->
    e_embedded st = len (x_extracted xst) ->
    e_used_positions st = x_used_positions xst ->
    e_attempts st = x_attempts xst ->
    map fst (e_accepted st) = map fst (x_accepted xst) ->
    exists stf,
      embed_loop fuel bits (Z.pos (im_width img)) (Z.pos (im_height img))
        (usable_channels_of (num_channels_of (im_cell img 0 0))) (Capacity img)
        threshold max_attempts st = Some (stf, None)
      /\ e_pixels stf = x_pixels xst
      /\ e_prng stf = x_prng xstf
      /\ e_embedded stf = len (x_extracted xstf)
      /\ e_attempts stf = x_attempts xstf
      /\ map fst (e_accepted stf) = map fst (x_accepted xstf).
Proof.
  intros Hlen fuel.
  induction fuel as [|fuel IH];
    intros xst xstf st Hloop Hbits Hpix Hprng Hemb Hused Hatt Hacc;
    cbn [embed_loop extract_loop] in Hloop |- *;
    rewrite Hemb, Hatt, Hlen;
    assert (Hcond : (len (x_extracted xst) <? Z.max 0 num_bits)
                    = (len (x_extracted xst) <? num_bits))
      by (unfold len; destruct (Z.ltb_spec (Z.of_nat (length (x_extracted xst)))
                                  (Z.max 0 num_bits));
          destruct (Z.ltb_spec (Z.of_nat (length (x_extracted xst))) num_bits);
          lia);
    rewrite Hcond;
    destruct ((len (x_extracted xst) <? num_bits) && (x_attempts xst <? max_attempts));
    try discriminate;
    try (injection Hloop as <-; exists st; repeat split; assumption).
  destruct (extract_body _ _ _ _ _ xst) as [xst' [e|]] eqn:Hbody; [discriminate|].
  pose proof (extract_loop_prefix _ _ _ _ _ _ _ _ _ _ _ Hloop) as [Hpre Hsame].
  apply extract_body_pass in Hbody.
  unfold embed_body. rewrite Hprng, Hpix, Hused, Hatt, Hemb.
  destruct Hbody as [Hp Hr He Hu Ha Hac Hnone | sel _ Hsel Hp Hr He Hu Ha Hac];
    destruct (next_u32 (x_prng xst)) as [r prng1]; cbn [fst snd] in *.
  - rewrite (Hnone eq_refl).
    destruct (IH xst' xstf
                {| e_pixels := x_pixels xst; e_prng := prng1;
                   e_embedded := len (x_extracted xst);
                   e_used_positions := x_used_positions xst;
                   e_attempts := x_attempts xst + 1;
                   e_accepted := e_accepted st |} Hloop Hbits)
      as (stf & Hl & H1 & H2); cbn; try congruence.
    exists stf. split; [exact Hl|]. split; [congruence|exact H2].
  - rewrite Hsel.
    rewrite He, Hbits in Hpre. rewrite (prefix_index _ _ _ Hpre). cbn [bind].
    unfold mutate. cbv zeta. rewrite Z.eqb_refl. cbn [negb].
    destruct (IH xst' xstf
                {| e_pixels := x_pixels xst; e_prng := prng1;
                   e_embedded := len (x_extracted xst) + 1;
                   e_used_positions := {[ s_pos sel ]} ∪ x_used_positions xst;
                   e_attempts := x_attempts xst + 1;
                   e_accepted := e_accepted st ++ [(s_pos sel, x_pixels xst)] |}
                Hloop Hbits)
      as (stf & Hl & H1 & H2); cbn; try congruence.
    + rewrite He. unfold len. rewrite length_app. cbn [length]. lia.
    + rewrite Hac, !map_app, Hacc. reflexivity.
    + exists stf. split; [exact Hl|]. split; [congruence|exact H2].
Qed.

(** Property X14.  Embedding what was just extracted changes nothing: if
    [extract_message_bits] returns a bit list, then [embed_message_bits]
    with that list and the same password, threshold and attempt factor
    returns, leaves the buffer exactly as it was, and makes the same
    draws and attempts at the same positions. *)
Theorem reembedding_changes_nothing (img : Image) (num_bits : Z)
    (password : list Z) (complexity_threshold max_attempt_factor : Z)
    (xr : extract_report) (bits : list Z) :
  extract_message_bits img num_bits password complexity_threshold
    max_attempt_factor = Some xr ->
  xr_outcome xr = Ok bits ->
  exists r,
    embed_message_bits img bits password complexity_threshold max_attempt_factor
    = Some r
    /\ er_outcome r = Ok tt
    /\ er_pixels r = img
    /\ er_draws r = xr_draws xr
    /\ er_attempts r = xr_attempts xr
    /\ map fst (er_accepted r) = map fst (xr_accepted xr).
Proof.
  intros Hx Hout.
  pose proof (extract_returned_length _ _ _ _ _ _ _ Hx Hout) as Hlen.
  pose proof (Capacity_nonneg img) as Hcap.
  destruct (extract_message_bits_run img num_bits password complexity_threshold
              max_attempt_factor)
    as [[_ E]|(Hle & xst & signal & Hxloop & E)];
    rewrite E in Hx; injection Hx as <-; cbn [xr_outcome] in Hout;
    [discriminate|].
  destruct signal as [e|]; [discriminate|].
  destruct (len (x_extracted xst) <? num_bits) eqn:Hfull; [discriminate|].
  injection Hout as Hbits.
  destruct (embed_message_bits_run img bits password complexity_threshold
              max_attempt_factor)
    as [[Hgt _]|(_ & st & esignal & Hloop & E')]; [lia|].
  rewrite E'. eexists. split; [reflexivity|].
  destruct (reembed_loop img bits num_bits complexity_threshold
              (Capacity img * max_attempt_factor) Hlen _ _ _
              {| e_pixels := img;
                 e_prng := SimplePRNG_init (derive_seed_from_password password);
                 e_embedded := 0; e_used_positions := ∅; e_attempts := 0;
                 e_accepted := [] |} Hxloop Hbits)
    as (stf & Hl & Hp & Hr & He & Ha & Hac); try reflexivity.
  rewrite Hl in Hloop. injection Hloop as <- <-.
  cbn [er_outcome er_pixels er_draws er_attempts er_accepted
       xr_draws xr_attempts xr_accepted].
  rewrite He, Hbits, Z.ltb_irrefl, Hp, Hr, Ha, Hac. repeat split.
Qed.

Lemma reembedding_changes_nothing_witness :
  exists xr bits,
    extract_message_bits (flat_image 4 4 [10; 20; 30]) 16 (codepoints "pw") 0 4
    = Some xr
    /\ xr_outcome xr = Ok bits
    /\ exists r,
        embed_message_bits (flat_image 4 4 [10; 20; 30]) bits (codepoints "pw") 0 4
        = Some r
        /\ er_outcome r = Ok tt
        /\ er_pixels r = flat_image 4 4 [10; 20; 30]
        /\ er_draws r = xr_draws xr
        /\ er_attempts r = xr_attempts xr
        /\ map fst (er_accepted r) = map fst (xr_accepted xr).
Proof.
  assert (Hrun : exists xr bits,
             extract_message_bits (flat_image 4 4 [10; 20; 30]) 16
               (codepoints "pw") 0 4 = Some xr
             /\ xr_outcome xr = Ok bits).
  { do 2 eexists. split; [vm_compute; reflexivity|reflexivity]. }
  destruct Hrun as (xr & bits & E & Hout).
  exists xr, bits. split; [exact E|]. split; [exact Hout|].
  exact (reembedding_changes_nothing _ _ _ _ _ xr bits E Hout).
Defined.

(** * Further properties: the codec on arbitrary bit lists *)

Lemma bits_of_byte_are_bits (b : byte) : Forall is_bit (bits_of_byte b).
Proof.
  unfold bits_of_byte. cbn [map].
  repeat (constructor; [apply land_1_is_bit|]). constructor.
Qed.

Lemma pack_byte_chunk (pre rest : list Z) (b7 b6 b5 b4 b3 b2 b1 b0 : Z) :
  pack_byte (pre ++ b7 :: b6 :: b5 :: b4 :: b3 :: b2 :: b1 :: b0 :: rest) (len pre)
  = Ok (fold_left (fun byte bit => Z.lor (Z.shiftl byte 1) (Z.land bit 1))
          [b7; b6; b5; b4; b3; b2; b1; b0] 0).
Proof.
  unfold pack_byte. cbn [for_each].
  rewrite !index_app_r by lia. reflexivity.
Qed.

Lemma append_packed (out : list byte) (b7 b6 b5 b4 b3 b2 b1 b0 : Z) :
  exists b,
    append out (fold_left (fun byte bit => Z.lor (Z.shiftl byte 1) (Z.land bit 1))
                  [b7; b6; b5; b4; b3; b2; b1; b0] 0)
    = Ok (out ++ [b])
    /\ bits_of_byte b
       = map (fun bit => Z.land bit 1) [b7; b6; b5; b4; b3; b2; b1; b0].
Proof.
  cbn [fold_left map].
  destruct (land_1_is_bit b7) as [-> | ->], (land_1_is_bit b6) as [-> | ->],
    (land_1_is_bit b5) as [-> | ->], (land_1_is_bit b4) as [-> | ->],
    (land_1_is_bit b3) as [-> | ->], (land_1_is_bit b2) as [-> | ->],
    (land_1_is_bit b1) as [-> | ->], (land_1_is_bit b0) as [-> | ->];
    eexists; split; reflexivity.
Qed.

Lemma first_eight (l : list Z) (m : nat) :
  length l = (8 * S m)%nat ->
  exists b7 b6 b5 b4 b3 b2 b1 b0 rest,
    l = b7 :: b6 :: b5 :: b4 :: b3 :: b2 :: b1 :: b0 :: rest
    /\ length rest = (8 * m)%nat.
Proof.
  intros H.
  destruct l as [|b7 [|b6 [|b5 [|b4 [|b3 [|b2 [|b1 [|b0 rest]]]]]]]];
    cbn [length] in H; try lia.
  exists b7, b6, b5, b4, b3, b2, b1, b0, rest. split; [reflexivity|lia].
Qed.

Lemma pack_chunks (m : nat) :
  forall (pre chunks tail : list Z) (k : nat) (out : list byte),
    length pre = (8 * k)%nat ->
    length chunks = (8 * m)%nat ->
    exists bs,
      for_each (map (fun i => 8 * Z.of_nat i) (seq k m))
        (fun out i =>
           let* byte := pack_byte (pre ++ chunks ++ tail) i in append out byte)
        out
      = Ok (out ++ bs)
      /\ bytes_to_bits bs = map (fun bit => Z.land bit 1) chunks
      /\ length bs = m.
Proof.
  induction m as [|m IH]; intros pre chunks tail k out Hpre Hchunks.
  - destruct chunks; [|discriminate]. exists []. cbn. rewrite app_nil_r. auto.
  - destruct (first_eight chunks m Hchunks)
      as (b7 & b6 & b5 & b4 & b3 & b2 & b1 & b0 & rest & -> & Hrest).
    cbn [seq map for_each app].
    replace (8 * Z.of_nat k) with (len pre) by (unfold len; lia).
    rewrite pack_byte_chunk. cbn [bind].
    destruct (append_packed out b7 b6 b5 b4 b3 b2 b1 b0) as (b & -> & Hb).
    cbn [bind].
    destruct (IH (pre ++ [b7; b6; b5; b4; b3; b2; b1; b0]) rest tail (S k)
                (out ++ [b])) as (bs & Hrun & Hbits & Hlen).
    { rewrite length_app. cbn [length]. lia. }
    { exact Hrest. }
    rewrite <- !app_assoc in Hrun. cbn [app] in Hrun.
    exists (b :: bs). split; [|split].
    + rewrite Hrun. reflexivity.
    + rewrite bytes_to_bits_cons, Hbits, Hb. reflexivity.
    + cbn [length]. lia.
Qed.

(** The general form of the two properties below. *)
Lemma bits_to_bytes_spec (bits : list Z) :
  exists out k,
    bits_to_bytes bits = Some (Ok out)
    /\ 0 <= k < 8
    /\ len (bits ++ repeat 0 (Z.to_nat k)) = 8 * len out
    /\ bytes_to_bits out
       = map (fun bit => Z.land bit 1) (bits ++ repeat 0 (Z.to_nat k)).
Proof.
  destruct (padding bits) as (k & Hk & Hpad & Hmod).
  set (padded := bits ++ repeat 0 (Z.to_nat k)) in *.
  assert (Hm : exists m : nat, length padded = (8 * m)%nat).
  { exists (Z.to_nat (len padded / 8)). unfold len in *.
    revert Hmod. Z.div_mod_to_equations. lia. }
  destruct Hm as [m Hm].
  destruct (pack_chunks m [] padded [] 0 [] eq_refl Hm) as (bs & Hrun & Hbits & Hlen).
  exists bs, k. unfold bits_to_bytes. rewrite Hpad. fold padded.
  cbn [app] in Hrun. rewrite app_nil_r in Hrun.
  unfold range_step8.
  assert (Hdiv : (len padded + 7) / 8 = Z.of_nat m)
    by (unfold len; rewrite Hm; symmetry; apply Z.div_unique with (r := 7); lia).
  rewrite Hdiv, Nat2Z.id.
  rewrite Hrun. split; [reflexivity|]. split; [exact Hk|].
  split; [unfold len; lia|exact Hbits].
Qed.

(** Property X16.  [bits_to_bytes] never fails: for every list of integers
    it returns bytes, one for every eight entries with the last group
    padded, that is [(len bits + 7) / 8] bytes. *)
Theorem bits_to_bytes_total (bits : list Z) :
  exists out,
    bits_to_bytes bits = Some (Ok out)
    /\ len out = (len bits + 7) / 8.
Proof.
  destruct (bits_to_bytes_spec bits) as (out & k & E & Hk & Hlen & _).
  exists out. split; [exact E|].
  unfold len in *. rewrite length_app, repeat_length in Hlen.
  apply Z.div_unique with (r := 7 - k); lia.
Qed.

(** Property X17.  Unpacking what [bits_to_bytes] packed gives the lowest
    bit of every entry followed by the padding zeros; for a list of bits
    whose length is a multiple of eight it gives the list back, so on
    such lists the two functions are inverse to each other in this order
    as well.  [bytes_to_bits] only ever produces bits. *)
Theorem unpack_after_pack (bits : list Z) (d : list byte) :
  (exists out k,
      bits_to_bytes bits = Some (Ok out)
      /\ 0 <= k < 8
      /\ (len bits + k) mod 8 = 0
      /\ bytes_to_bits out
         = map (fun bit => Z.land bit 1) bits ++ repeat 0 (Z.to_nat k))
  /\ (Forall is_bit bits -> len bits mod 8 = 0 ->
      exists out, bits_to_bytes bits = Some (Ok out) /\ bytes_to_bits out = bits)
  /\ Forall is_bit (bytes_to_bits d).
Proof.
  destruct (bits_to_bytes_spec bits) as (out & k & E & Hk & Hlen & Hbits).
  assert (Hmod : (len bits + k) mod 8 = 0).
  { unfold len in *. rewrite length_app, repeat_length in Hlen.
    Z.div_mod_to_equations. lia. }
  assert (Hzeros : forall n, map (fun bit => Z.land bit 1) (repeat 0 n)
                             = repeat 0 n).
  { intros n. induction n as [|n IHn];
      [reflexivity|cbn [repeat map]; rewrite IHn; reflexivity]. }
  rewrite map_app, Hzeros in Hbits.
  split; [exists out, k; auto|]. split.
  - intros Hb Haligned. exists out. split; [exact E|].
    assert (Hk0 : k = 0) by (revert Hmod Haligned; Z.div_mod_to_equations; lia).
    rewrite Hbits, Hk0. cbn [Z.to_nat repeat]. rewrite app_nil_r.
    clear -Hb. induction Hb as [|b l Hbit _ IH]; [reflexivity|].
    cbn [map]. rewrite IH. destruct Hbit as [-> | ->]; reflexivity.
  - induction d as [|b d IH]; [constructor|].
    rewrite bytes_to_bits_cons. apply Forall_app. split; [|exact IH].
    apply bits_of_byte_are_bits.
Qed.

(** * Further properties: seed collisions *)

Lemma derive_seed_loop_app (p q : list Z) :
  forall i seed,
    derive_seed_loop i seed (p ++ q)
    = derive_seed_loop (i + len p) (derive_seed_loop i seed p) q.
Proof.
  induction p as [|ch p IH]; intros i seed; cbn [app derive_seed_loop].
  - unfold len. cbn. rewrite Z.add_0_r. reflexivity.
  - rewrite IH. f_equal. unfold len. cbn [length]. lia.
Qed.

Lemma derive_seed_loop_range (p : list Z) :
  forall i seed, 0 <= seed < 2 ^ 32 -> 0 <= derive_seed_loop i seed p < 2 ^ 32.
Proof.
  induction p as [|ch p IH]; intros i seed Hs; cbn [derive_seed_loop]; [exact Hs|].
  apply IH. rewrite land_MASK32. apply Z.mod_pos_bound. lia.
Qed.

Lemma derive_seed_loop_nul (n : nat) :
  forall i seed, 0 <= seed < 2 ^ 32 -> derive_seed_loop i seed (repeat 0 n) = seed.
Proof.
  induction n as [|n IH]; intros i seed Hs; cbn [repeat derive_seed_loop];
    [reflexivity|].
  rewrite Z.shiftl_0_l, Z.lxor_0_r, land_MASK32, Z.mod_small by lia.
  apply IH, Hs.
Qed.

Lemma land_lxor_congr (seed a b m : Z) :
  Z.land a m = Z.land b m ->
  Z.land (Z.lxor seed a) m = Z.land (Z.lxor seed b) m.
Proof.
  intros H. apply Z.bits_inj'. intros n Hn.
  assert (Hbit : Z.testbit (Z.land a m) n = Z.testbit (Z.land b m) n)
    by (rewrite H; reflexivity).
  rewrite !Z.land_spec in Hbit. rewrite !Z.land_spec, !Z.lxor_spec.
  destruct (Z.testbit m n); [|rewrite !andb_false_r; reflexivity].
  rewrite !andb_true_r in *. rewrite Hbit. reflexivity.
Qed.

Lemma mask_step_high_bits (seed ch k s : Z) :
  0 <= s <= 32 ->
  Z.land (Z.lxor seed (Z.shiftl (ch + k * 2 ^ (32 - s)) s)) MASK32
  = Z.land (Z.lxor seed (Z.shiftl ch s)) MASK32.
Proof.
  intros Hs. apply land_lxor_congr.
  rewrite !land_MASK32, !Z.shiftl_mul_pow2 by lia.
  replace ((ch + k * 2 ^ (32 - s)) * 2 ^ s) with (ch * 2 ^ s + k * 2 ^ 32).
  - apply Z.mod_add. lia.
  - replace (2 ^ 32) with (2 ^ (32 - s) * 2 ^ s)
      by (rewrite <- Z.pow_add_r by lia; f_equal; lia).
    ring.
Qed.

(** Property X18.  Passwords that collide.  The seed does not see NUL
    characters at the end of a password, and it does not see the part of
    a code point that the shift by [index mod 24] pushes beyond 32 bits:
    adding a multiple of [2 ^ (32 - index mod 24)] to the character at any
    index gives the same seed. *)
Theorem seed_collisions (password before after : list Z) (n : nat) (ch k : Z) :
  derive_seed_from_password (password ++ repeat 0 n)
  = derive_seed_from_password password
  /\ derive_seed_from_password
       (before ++ (ch + k * 2 ^ (32 - len before mod 24)) :: after)
     = derive_seed_from_password (before ++ ch :: after).
Proof.
  unfold derive_seed_from_password. cbv zeta. split.
  - rewrite derive_seed_loop_app, derive_seed_loop_nul; [reflexivity|].
    apply derive_seed_loop_range. lia.
  - rewrite !derive_seed_loop_app. cbn [derive_seed_loop].
    rewrite Z.add_0_l, mask_step_high_bits; [reflexivity|].
    pose proof (Z.mod_pos_bound (len before) 24 ltac:(lia)). lia.
Qed.

(** * Further properties: the key *)

Example str_of_int_16 : str_of_int 16 = codepoints "16".
Proof. reflexivity. Qed.

Example str_of_int_0 : str_of_int 0 = codepoints "0".
Proof. reflexivity. Qed.

Example make_key_hi :
  make_key (codepoints "my_pw") hi_bits = codepoints "my_pw_16".
Proof. reflexivity. Qed.

Lemma digits_loop_spec (fuel : nat) :
  forall n acc,
    0 <= n -> (Z.to_nat n < fuel)%nat ->
    exists ds,
      digits_loop fuel n acc = ds ++ acc
      /\ ds <> []
      /\ forallb is_digit ds = true
      /\ forall a, fold_left (fun acc c => 10 * acc + (c - 48)) ds a
                   = a * 10 ^ len ds + n.
Proof.
  induction fuel as [|fuel IH]; intros n acc Hn Hfuel; [lia|].
  cbn [digits_loop].
  pose proof (Z.mod_pos_bound n 10 ltac:(lia)) as Hd.
  assert (Hdigit : is_digit (48 + n mod 10) = true).
  { unfold is_digit. apply andb_true_iff. split; [apply Z.leb_le|apply Z.leb_le]; lia. }
  destruct (Z.eqb_spec (n / 10) 0) as [E|E].
  - exists [48 + n mod 10]. split; [reflexivity|]. split; [discriminate|].
    split; [cbn [forallb]; rewrite Hdigit; reflexivity|].
    intros a. cbn [fold_left]. unfold len. cbn [length].
    change (10 ^ Z.of_nat 1) with 10.
    revert E. Z.div_mod_to_equations. lia.
  - assert (Hq : 0 < n / 10) by (revert E; Z.div_mod_to_equations; lia).
    destruct (IH (n / 10) ((48 + n mod 10) :: acc)) as (ds & Hds & Hne & Hall & Hval);
      [lia|revert Hq; Z.div_mod_to_equations; lia|].
    exists (ds ++ [48 + n mod 10]). split; [rewrite Hds, <- app_assoc; reflexivity|].
    split; [destruct ds; discriminate|].
    split; [rewrite forallb_app, Hall; cbn [forallb]; rewrite Hdigit; reflexivity|].
    intros a. rewrite fold_left_app, Hval. cbn [fold_left].
    unfold len. rewrite length_app. cbn [length].
    rewrite Nat2Z.inj_add, Z.pow_add_r by lia.
    change (10 ^ Z.of_nat 1) with 10.
    revert E. Z.div_mod_to_equations. lia.
Qed.

Lemma break_at_first (sep : Z) (before after : list Z) :
  sep ∉ before ->
  break_at sep (before ++ sep :: after) = Some (before, after).
Proof.
  induction before as [|c before IH]; intros Hnot; cbn [app break_at].
  - rewrite Z.eqb_refl. reflexivity.
  - apply not_elem_of_cons in Hnot as [Hc Hrest].
    destruct (Z.eqb_spec c sep) as [->|_]; [contradiction|].
    rewrite IH by exact Hrest. reflexivity.
Qed.

Lemma break_at_none (sep : Z) (l : list Z) :
  sep ∉ l -> break_at sep l = None.
Proof.
  induction l as [|c l IH]; intros Hnot; cbn [break_at]; [reflexivity|].
  apply not_elem_of_cons in Hnot as [Hc Hrest].
  destruct (Z.eqb_spec c sep) as [->|_]; [contradiction|].
  rewrite IH by exact Hrest. reflexivity.
Qed.

Lemma elem_of_rev_iff (c : Z) (l : list Z) : c ∈ rev l <-> c ∈ l.
Proof. rewrite !list_elem_of_In. symmetry. apply in_rev. Qed.

Lemma digits_no_underscore (ds : list Z) :
  forallb is_digit ds = true -> 95 ∉ ds.
Proof.
  intros Hall Hin. rewrite forallb_forall in Hall.
  apply list_elem_of_In, Hall in Hin. discriminate.
Qed.

(** Property X19.  The key round trip.  For every password, also one that
    contains underscores, and every message, splitting the key made from
    them gives back the password and the number of bits; a key without an
    underscore raises [ValueError]. *)
Theorem key_roundtrip (password bits key : list Z) :
  split_key (make_key password bits) = Some (Ok (password, len bits))
  /\ (95 ∉ key -> split_key key = Some (Raise ValueError)).
Proof.
  split.
  - unfold make_key, str_of_int.
    destruct (Z.ltb_spec (len bits) 0) as [Hneg|_]; [unfold len in Hneg; lia|].
    destruct (digits_loop_spec (S (Z.to_nat (len bits))) (len bits) [])
      as (ds & -> & Hne & Hall & Hval); [unfold len; lia|lia|].
    rewrite app_nil_r. unfold split_key, rsplit_once.
    cbn [app]. rewrite rev_app_distr. cbn [rev]. rewrite <- app_assoc. cbn [app].
    rewrite break_at_first.
    + rewrite !rev_involutive. unfold int_of_str.
      destruct ds as [|d ds]; [contradiction|].
      rewrite Hall, Hval. repeat f_equal.
    + intros Hin. apply (proj1 (elem_of_rev_iff _ _)) in Hin. revert Hin.
      apply digits_no_underscore, Hall.
  - intros Hnot. unfold split_key, rsplit_once.
    rewrite break_at_none; [reflexivity|].
    intros Hin. apply Hnot. apply (proj1 (elem_of_rev_iff _ _)). exact Hin.
Qed.

(** * Further properties: the extraction on flat and on narrow images *)

Lemma flat_extract_loop (img : Image) (num_bits : Z)
    (usable_channels total_capacity_bits threshold max_attempts : Z) :
  flat img -> has_interior img ->
  3 <= len (as_triple (im_cell img 0 0)) ->
  0 < threshold ->
  0 < num_bits ->
  forall fuel st,
    x_pixels st = img ->
    x_extracted st = [] ->
    x_accepted st = [] ->
    Z.of_nat fuel = max_attempts - x_attempts st ->
    exists st',
      extract_loop fuel num_bits (Z.pos (im_width img)) (Z.pos (im_height img))
        usable_channels total_capacity_bits threshold max_attempts st
      = Some (st', None)
      /\ x_pixels st' = img
      /\ x_extracted st' = []
      /\ x_accepted st' = []
      /\ x_attempts st' = max_attempts
      /\ draws (x_prng st') = draws (x_prng st) + Z.of_nat fuel.
Proof.
  intros Hflat Hint H3 HT HN fuel.
  induction fuel as [|fuel IH]; intros st Hpix Hext Hacc Hfuel; cbn [extract_loop];
    rewrite Hext; change (len (@nil Z)) with 0;
    destruct (Z.ltb_spec 0 num_bits) as [_|]; try lia;
    destruct (Z.ltb_spec (x_attempts st) max_attempts) as [Ha|Ha]; try lia;
    cbn [andb].
  - exists st. repeat split; try assumption; try reflexivity; lia.
  - unfold extract_body.
    destruct (next_u32 (x_prng st)) as [pos_rand prng] eqn:Hdraw.
    rewrite Hpix, flat_select by assumption.
    edestruct IH as (st' & Hloop & Hp & He & Hac & Hat & Hd);
      [| | | | exists st'; split; [exact Hloop|] ];
      cbn [x_pixels x_extracted x_accepted x_attempts];
      try reflexivity; try assumption; try lia.
    pose proof (next_u32_draws (x_prng st)) as Hn. rewrite Hdraw in Hn.
    cbn [snd] in Hn. cbn [x_prng] in Hd.
    split_and!; try assumption. lia.
Qed.

(** Property X20.  The extraction on a flat image: with a threshold above 0
    no position passes the filter, so a call that asks for at least one
    and at most [Capacity] bits spends its whole budget of
    [Capacity * factor] draws, reads nothing and fails with
    [BudgetExhausted]. *)
Theorem flat_image_extraction_exhausts_budget (img : Image) (num_bits : Z)
    (password : list Z) (complexity_threshold max_attempt_factor : Z) :
  flat img -> has_interior img ->
  3 <= len (as_triple (im_cell img 0 0)) ->
  0 < complexity_threshold ->
  0 < num_bits <= Capacity img ->
  0 <= max_attempt_factor ->
  extract_message_bits img num_bits password complexity_threshold
    max_attempt_factor
  = Some {| xr_outcome := Raise BudgetExhausted; xr_pixels := img;
            xr_draws := Capacity img * max_attempt_factor;
            xr_attempts := Capacity img * max_attempt_factor;
            xr_accepted := [] |}.
Proof.
  intros Hflat Hint H3 HT [HN Hcap] Hf.
  assert (Hpos : 0 <= Capacity img * max_attempt_factor)
    by (apply Z.mul_nonneg_nonneg; lia).
  destruct (extract_message_bits_run img num_bits password
              complexity_threshold max_attempt_factor)
    as [[Hgt _]|(_ & st & signal & Hloop & E)]; [lia|].
  edestruct (flat_extract_loop img num_bits
               (usable_channels_of (num_channels_of (im_cell img 0 0)))
               (Capacity img) complexity_threshold
               (Capacity img * max_attempt_factor) Hflat Hint H3 HT HN
               (Z.to_nat (Capacity img * max_attempt_factor)))
    as (st' & Hloop' & Hp & He & Hac & Hat & Hd);
    [| | | | rewrite Hloop' in Hloop; injection Hloop as <- <- ];
    try reflexivity; [cbn; lia|].
  rewrite E, He, Hp, Hac, Hat, Hd.
  change (len (@nil Z)) with 0.
  destruct (Z.ltb_spec 0 num_bits); [|lia].
  cbn [draws x_prng SimplePRNG_init]. rewrite Z2Nat.id by lia. reflexivity.
Qed.

Lemma flat_image_extraction_exhausts_budget_witness :
  let img := flat_image 3 3 [10; 20; 30] in
  flat img /\ has_interior img
  /\ 3 <= len (as_triple (im_cell img 0 0))
  /\ 0 < 20
  /\ 0 < 16 <= Capacity img
  /\ 0 <= 4
  /\ extract_message_bits img 16 (codepoints "pw") 20 4
     = Some {| xr_outcome := Raise BudgetExhausted; xr_pixels := img;
               xr_draws := Capacity img * 4; xr_attempts := Capacity img * 4;
               xr_accepted := [] |}.
Proof.
  cbv zeta.
  assert (H1 : flat (flat_image 3 3 [10; 20; 30])) by (intros x y _; reflexivity).
  assert (H2 : has_interior (flat_image 3 3 [10; 20; 30]))
    by (split; vm_compute; discriminate).
  assert (H3 : 3 <= len (as_triple (im_cell (flat_image 3 3 [10; 20; 30]) 0 0)))
    by (vm_compute; discriminate).
  assert (H4 : 0 < 20) by reflexivity.
  assert (H5 : 0 < 16 <= Capacity (flat_image 3 3 [10; 20; 30]))
    by (vm_compute; split; [reflexivity|discriminate]).
  assert (H6 : 0 <= 4) by discriminate.
  repeat (split; [assumption|]).
  exact (flat_image_extraction_exhausts_budget (flat_image 3 3 [10; 20; 30]) 16
           (codepoints "pw") 20 4 H1 H2 H3 H4 H5 H6).
Defined.

Lemma extract_needs_interior (img : Image) (num_bits : Z) (password : list Z)
    (complexity_threshold max_attempt_factor : Z) :
  ~ has_interior img ->
  0 < num_bits <= Capacity img ->
  0 < max_attempt_factor ->
  exists r,
    extract_message_bits img num_bits password complexity_threshold
      max_attempt_factor = Some r
    /\ xr_outcome r = Raise IndexError
    /\ xr_draws r = 1
    /\ xr_attempts r = 1
    /\ xr_pixels r = img.
Proof.
  intros Hno [HN Hcap] Hf.
  destruct (extract_message_bits_run img num_bits password
              complexity_threshold max_attempt_factor)
    as [[Hgt _]|(_ & st & signal & Hloop & E)]; [lia|].
  rewrite E. eexists. split; [reflexivity|].
  assert (Hmax : 0 < Capacity img * max_attempt_factor) by nia.
  destruct (Z.to_nat (Capacity img * max_attempt_factor)) as [|fuel] eqn:Hfuel;
    [lia|].
  cbn [extract_loop x_extracted x_attempts] in Hloop.
  change (len (@nil Z)) with 0 in Hloop.
  destruct (Z.ltb_spec 0 num_bits); [|lia].
  destruct (Z.ltb_spec 0 (Capacity img * max_attempt_factor)); [|lia].
  cbn [andb] in Hloop. unfold extract_body in Hloop.
  cbn [x_prng x_pixels x_used_positions] in Hloop.
  destruct (next_u32 _) as [pos_rand prng] eqn:Hdraw.
  rewrite select_needs_interior in Hloop by exact Hno.
  injection Hloop as <- <-.
  cbn [xr_outcome xr_draws xr_attempts xr_pixels x_prng x_attempts x_pixels].
  pose proof (next_u32_draws (SimplePRNG_init (derive_seed_from_password password)))
    as Hd.
  rewrite Hdraw in Hd. cbn [snd] in Hd. rewrite Hd. repeat split.
Qed.

(** Property X21.  Images without an interior.  On an image narrower or
    lower than three pixels the estimator reads outside the buffer, so a
    call with a positive attempt factor that has a bit to embed or to
    extract, and passes the capacity guard, ends in its first attempt with
    [IndexError], after one draw and with the buffer as it was. *)
Theorem narrow_image_calls_raise (img : Image) (message_bits password : list Z)
    (num_bits complexity_threshold max_attempt_factor : Z) :
  ~ has_interior img ->
  0 < max_attempt_factor ->
  (0 < len message_bits <= Capacity img ->
   exists r,
     embed_message_bits img message_bits password complexity_threshold
       max_attempt_factor = Some r
     /\ er_outcome r = Raise IndexError
     /\ er_draws r = 1 /\ er_attempts r = 1 /\ er_pixels r = img)
  /\ (0 < num_bits <= Capacity img ->
      exists r,
        extract_message_bits img num_bits password complexity_threshold
          max_attempt_factor = Some r
        /\ xr_outcome r = Raise IndexError
        /\ xr_draws r = 1 /\ xr_attempts r = 1 /\ xr_pixels r = img).
Proof.
  intros Hno Hf. split; intros Hn.
  - apply embed_needs_interior; assumption.
  - apply extract_needs_interior; assumption.
Qed.

Lemma narrow_image_calls_raise_witness :
  ~ has_interior (flat_image 1 9 [10; 20; 30])
  /\ 0 < 4
  /\ 0 < 16 <= Capacity (flat_image 1 9 [10; 20; 30])
  /\ exists r,
      extract_message_bits (flat_image 1 9 [10; 20; 30]) 16 (codepoints "pw") 20 4
      = Some r
      /\ xr_outcome r = Raise IndexError
      /\ xr_draws r = 1 /\ xr_attempts r = 1
      /\ xr_pixels r = flat_image 1 9 [10; 20; 30].
Proof.
  assert (H1 : ~ has_interior (flat_image 1 9 [10; 20; 30])).
  { intros [Hw _]. vm_compute in Hw. apply Hw. reflexivity. }
  assert (H2 : 0 < 4) by reflexivity.
  assert (H3 : 0 < 16 <= Capacity (flat_image 1 9 [10; 20; 30]))
    by (vm_compute; split; [reflexivity|discriminate]).
  split; [exact H1|]. split; [exact H2|]. split; [exact H3|].
  exact (proj2 (narrow_image_calls_raise (flat_image 1 9 [10; 20; 30]) []
                  (codepoints "pw") 16 20 4 H1 H2) H3).
Defined.
